(** * SLR(1) parser table generator (app.py): model and properties

    The development follows the script top to bottom: the grammar reader
    [get_grammar], [augment_grammar], the LR(0) construction ([closure],
    [goto], [generate_lr0_items]), the memoised [compute_first] and
    [compute_follow], and [generate_slr1_parsing_table].

    Conventions of the model.
    - A Python [str] is a list of Unicode code points ([str := list N]);
      ASCII literals are written with [lit].
    - A [dict] whose iteration order is observed (the grammar) is an
      association list in insertion order with unique keys; a [dict] that is
      only looked up is a [gmap]; a [set]/[frozenset] is a [gset].
    - Iterating over a [set] visits its elements once each, in an order the
      language does not fix: every loop over a set goes through a
      [set_order], and general statements hold for every such order.
    - Functions that can raise, or whose loop needs fuel in the model,
      return a [res].
    - The interpreter's limit on the depth of recursion is not modelled.
      [compute_first] and [compute_follow] nest up to one call for each
      nonterminal; where that exceeds the limit the script raises
      [RecursionError], which [exn] does not have. What is stated of the
      tables they return is stated of a run that stays below the limit. *)

From Stdlib Require Import NArith Ascii String Decimal.
From stdpp Require Import base option list gmap sets finite vector.

#[local] Set Warnings "-clear-no-such-hyp".
Local Open Scope N_scope.
Local Open Scope nat_scope.

(** ** Strings *)

Abbreviation char := N (only parsing).
Abbreviation str := (list N) (only parsing).

(** An ASCII literal as a Python string. *)
Definition lit (s : string) : str :=
  (λ a, N_of_ascii a) <$> list_ascii_of_string s.

(** [str.isspace] on one character, as used by [strip()] and [split()]:
    the ASCII controls 9-13 and 28-31, the space, and the Unicode spaces. *)
Definition is_space (c : char) : bool :=
  ((9 <=? c) && (c <=? 13))%N || ((28 <=? c) && (c <=? 32))%N
  || (c =? 133)%N || (c =? 160)%N || (c =? 5760)%N
  || ((8192 <=? c) && (c <=? 8202))%N
  || (c =? 8232)%N || (c =? 8233)%N || (c =? 8239)%N
  || (c =? 8287)%N || (c =? 12288)%N.

Fixpoint lstrip (s : str) : str :=
  match s with
  | c :: s' => if is_space c then lstrip s' else s
  | [] => []
  end.

(** [s.strip()] *)
Definition strip (s : str) : str := rev (lstrip (rev (lstrip s))).

(** [s.split()]: the maximal runs of non-space characters. [cur] is the
    run being read, reversed. *)
Fixpoint split_ws_go (cur : str) (s : str) : list str :=
  match s with
  | [] => match cur with [] => [] | _ => [rev cur] end
  | c :: s' =>
      if is_space c
      then match cur with
           | [] => split_ws_go [] s'
           | _ => rev cur :: split_ws_go [] s'
           end
      else split_ws_go (c :: cur) s'
  end.

Definition split_ws (s : str) : list str := split_ws_go [] s.

(** [s.startswith(p)] *)
Fixpoint starts_with (p s : str) : bool :=
  match p, s with
  | [], _ => true
  | _ :: _, [] => false
  | a :: p', b :: s' => (a =? b)%N && starts_with p' s'
  end.

(** [sep in s], for a non-empty [sep]. *)
Fixpoint contains (sep s : str) : bool :=
  starts_with sep s ||
  match s with
  | [] => false
  | _ :: s' => contains sep s'
  end.

(** [s.split(sep)] for a non-empty [sep]: occurrences are taken leftmost
    first and do not overlap. [skip] counts the characters of a separator
    just found that are still to be passed over; [cur] is the piece being
    read, reversed. *)
Fixpoint split_go (sep : str) (skip : nat) (cur : str) (s : str) : list str :=
  match s with
  | [] => [rev cur]
  | c :: s' =>
      match skip with
      | S k => split_go sep k cur s'
      | O =>
          if starts_with sep s
          then rev cur :: split_go sep (length sep - 1) [] s'
          else split_go sep 0 (c :: cur) s'
      end
  end.

Definition split (sep s : str) : list str := split_go sep 0 [] s.

(** [sep.join(l)] *)
Fixpoint join (sep : str) (l : list str) : str :=
  match l with
  | [] => []
  | [x] => x
  | x :: l' => x ++ sep ++ join sep l'
  end.

(** [str(n)] for a non-negative integer. *)
Fixpoint digits (u : Decimal.uint) : str :=
  match u with
  | Nil => []
  | D0 u => 48%N :: digits u | D1 u => 49%N :: digits u
  | D2 u => 50%N :: digits u | D3 u => 51%N :: digits u
  | D4 u => 52%N :: digits u | D5 u => 53%N :: digits u
  | D6 u => 54%N :: digits u | D7 u => 55%N :: digits u
  | D8 u => 56%N :: digits u | D9 u => 57%N :: digits u
  end.

Definition str_of_nat (n : nat) : str := digits (Nat.to_uint n).

(** The symbols the script spells out. *)
Definition arrow : str := lit "->".
Definition bar : str := lit "|".
Definition newline : str := [10%N].
Definition S_prime : str := lit "S'".
Definition dollar : str := lit "$".
Definition epsilon : str := [949%N].          (* the letter ε *)
Definition empty_str : str := [].

(** ** Results *)

Inductive exn :=
  | ValueError | KeyError | IndexError | StopIteration
  | ScriptStopped.                             (* st.stop() *)

Inductive res (A : Type) :=
  | Ok (a : A)
  | Raise (e : exn)
  | OutOfFuel.
Arguments Ok {A} a.
Arguments Raise {A} e.
Arguments OutOfFuel {A}.

#[global] Instance res_ret : MRet res := λ A a, Ok a.
#[global] Instance res_bind : MBind res := λ A B k r,
  match r with
  | Ok a => k a
  | Raise e => Raise e
  | OutOfFuel => OutOfFuel
  end.

(** [l[i]] on a list or tuple, for [i >= 0]. *)
Definition index {A} (l : list A) (i : nat) : res A :=
  match l !! i with
  | Some x => Ok x
  | None => Raise IndexError
  end.

(** ** Insertion-ordered dictionaries *)

Section dict.
Context {K V : Type} `{EqDecision K}.

(** [d.get(k)] *)
Fixpoint dict_get (d : list (K * V)) (k : K) : option V :=
  match d with
  | [] => None
  | (k', v) :: d' => if decide (k' = k) then Some v else dict_get d' k
  end.

(** [k in d] *)
Definition dict_mem (d : list (K * V)) (k : K) : bool :=
  bool_decide (is_Some (dict_get d k)).

(** [d[k] = v]: an existing key keeps its place, a new one goes last. *)
Fixpoint dict_set (d : list (K * V)) (k : K) (v : V) : list (K * V) :=
  match d with
  | [] => [(k, v)]
  | (k', v') :: d' =>
      if decide (k' = k) then (k, v) :: d' else (k', v') :: dict_set d' k v
  end.

(** [d.update(e)] *)
Definition dict_update (d e : list (K * V)) : list (K * V) :=
  foldl (λ acc kv, dict_set acc kv.1 kv.2) d e.

(** [next(iter(d), None)] *)
Definition dict_first (d : list (K * V)) : option K :=
  match d with
  | [] => None
  | (k, _) :: _ => Some k
  end.
End dict.

(** A grammar: nonterminal to its alternatives, each a list of symbols. *)
Abbreviation grammar := (list (list N * list (list (list N)))) (only parsing).

(** ** Reading the grammar *)

(** What [get_grammar] does with one text: it returns a dictionary, or it
    reports the offending line in the sidebar and returns [None], or the
    unpacking of [line.split('->')] raises [ValueError]. *)
Inductive parsed :=
  | Grammar (g : grammar)
  | ReturnedNone (reported : str)
  | RaisedValueError.

(** [lhs, rhs = line.split('->')] with the two lines after it: the
    stripped left-hand side and the alternatives; [None] when the unpacking
    into two names fails. *)
Definition parse_line (line : str) : option (str * list (list str)) :=
  match split arrow line with
  | [lhs; rhs] =>
      Some (strip lhs, (λ prod, split_ws (strip prod)) <$> split bar rhs)
  | _ => None
  end.

(** The body of the loop for one line, from the unpacking on. *)
Definition add_line (g : grammar) (line : str) : option grammar :=
  '(lhs, rhs_productions) ← parse_line line;
  match dict_get g lhs with
  | Some old => Some (dict_set g lhs (old ++ rhs_productions))
  | None => Some (dict_set g lhs rhs_productions)
  end.

Fixpoint get_grammar_loop (g : grammar) (lines : list str) : parsed :=
  match lines with
  | [] => Grammar g
  | line :: lines' =>
      if contains arrow line
      then match add_line g line with
           | Some g' => get_grammar_loop g' lines'
           | None => RaisedValueError
           end
      else ReturnedNone line
  end.

Definition get_lines (grammar_text : str) : list str :=
  split newline (strip grammar_text).

Definition get_grammar (grammar_text : str) : parsed :=
  get_grammar_loop [] (get_lines grammar_text).

(** ** Augmentation *)

(** [start_symbol] is falsy when the dictionary is empty ([None]) and also
    when its first key is the empty string. *)
Definition augment_grammar (g : grammar) : res grammar :=
  match dict_first g with
  | None => Raise ScriptStopped
  | Some start_symbol =>
      if decide (start_symbol = empty_str) then Raise ScriptStopped
      else Ok (dict_update [(S_prime, [[start_symbol]])] g)
  end.

(** ** LR(0) items *)

(** An item [(lhs, rhs, dot_pos)]. *)
Abbreviation item := (list N * list (list N) * nat)%type (only parsing).

(** The order in which a loop visits the elements of a set. *)
Record set_order := {
  iter_set : ∀ `{Countable A}, gset A → list A;
  iter_set_perm : ∀ `{Countable A} (s : gset A), iter_set s ≡ₚ elements s
}.

(** Monadic loop over a list. *)
Fixpoint for_each {A St} (body : St → A → res St) (s : St) (l : list A)
    : res St :=
  match l with
  | [] => Ok s
  | x :: l' => s' ← body s x; for_each body s' l'
  end.

(** [2 ^ n] rounds of a loop body that either goes on ([inl]) or leaves
    the loop ([inr]). *)
Fixpoint rounds {St R} (body : St → St + R) (n : nat) (s : St) : St + R :=
  match n with
  | O => body s
  | S n' =>
      match rounds body n' s with
      | inl s' => rounds body n' s'
      | inr r => inr r
      end
  end.

(** Every item of a grammar: each alternative with each dot position. *)
Definition all_items (g : grammar) : gset item :=
  list_to_set
    ('(lhs, prods) ← g; rhs ← prods;
     (λ dot_pos, (lhs, rhs, dot_pos)) <$> seq 0 (S (length rhs))).

(** The state of the worklist loop of [generate_lr0_items]. *)
Record lr0 := {
  states : list (gset item);
  state_indices : gmap (gset item) nat;
  transitions : list (nat * list N * nat);
  queue : list (gset item)
}.

Section automaton.
Context (ord : set_order).

(** One pass of the [while] loop of [closure]: the set [new_items]. *)
Definition closure_pass (g : grammar) (closure_set : gset item) : gset item :=
  foldl (λ new_items '(lhs, rhs, dot_pos),
    match rhs !! dot_pos with
    | Some symbol =>
        match dict_get g symbol with
        | Some prods =>
            foldl (λ new_items production,
              let new_item := (symbol, production, 0) in
              if decide (new_item ∈ closure_set) then new_items
              else {[new_item]} ∪ new_items) new_items prods
        | None => new_items
        end
    | None => new_items
    end) ∅ (iter_set ord closure_set).

(** [added] is true after a pass exactly when [new_items] is not empty. *)
Fixpoint closure_loop (fuel : nat) (g : grammar) (closure_set : gset item)
    : res (gset item) :=
  match fuel with
  | O => OutOfFuel
  | S fuel' =>
      let new_items := closure_pass g closure_set in
      if decide (new_items = ∅) then Ok closure_set
      else closure_loop fuel' g (closure_set ∪ new_items)
  end.

Definition closure (items : gset item) (g : grammar) : res (gset item) :=
  closure_loop (S (size (all_items g))) g items.

Definition goto (items : gset item) (symbol : str) (g : grammar)
    : res (gset item) :=
  let next_items : gset item :=
    foldl (λ next_items '(lhs, rhs, dot_pos),
      if decide (rhs !! dot_pos = Some symbol)
      then {[(lhs, rhs, S dot_pos)]} ∪ next_items
      else next_items) ∅ (iter_set ord items) in
  if decide (next_items = ∅) then Ok ∅ else closure next_items g.

(** [{rhs[pos] for lhs, rhs, pos in state if pos < len(rhs)}] *)
Definition symbols_after_dot (state : gset item) : gset str :=
  foldl (λ acc '(lhs, rhs, pos),
    match rhs !! pos with
    | Some symbol => {[symbol]} ∪ acc
    | None => acc
    end) ∅ (iter_set ord state).

(** The body of [for symbol in symbols]. *)
Definition visit_symbol (g : grammar) (state : gset item) (state_index : nat)
    (w : lr0) (symbol : str) : res lr0 :=
  new_state ← goto state symbol g;
  match state_indices w !! new_state with
  | None =>
      let states' := states w ++ [new_state] in
      let new_index := length states' - 1 in
      Ok {| states := states';
            state_indices := <[new_state := new_index]> (state_indices w);
            transitions := dict_set (transitions w) (state_index, symbol) new_index;
            queue := queue w ++ [new_state] |}
  | Some new_index =>
      Ok {| states := states w;
            state_indices := state_indices w;
            transitions := dict_set (transitions w) (state_index, symbol) new_index;
            queue := queue w |}
  end.

(** One round of [while queue]. *)
Definition lr0_round (g : grammar) (w : lr0)
    : lr0 + res (list (gset item) * list (nat * str * nat)) :=
  match queue w with
  | [] => inr (Ok (states w, transitions w))
  | state :: queue' =>
      let w := {| states := states w; state_indices := state_indices w;
                  transitions := transitions w; queue := queue' |} in
      match state_indices w !! state with
      | None => inr (Raise KeyError)
      | Some state_index =>
          match for_each (visit_symbol g state state_index) w
                  (iter_set ord (symbols_after_dot state)) with
          | Ok w' => inl w'
          | Raise e => inr (Raise e)
          | OutOfFuel => inr OutOfFuel
          end
      end
  end.

Definition generate_lr0_items (augmented_grammar : grammar)
    : res (list (gset item) * list (nat * str * nat)) :=
  match augmented_grammar with
  | [] => Raise StopIteration
  | (start_symbol, prods) :: _ =>
      rhs ← index prods 0;
      let initial_item := (start_symbol, rhs, 0) in
      initial_state ← closure {[initial_item]} augmented_grammar;
      let w := {| states := [initial_state];
                  state_indices := {[initial_state := 0]};
                  transitions := [];
                  queue := [initial_state] |} in
      match rounds (lr0_round augmented_grammar)
              (S (size (all_items augmented_grammar))) w with
      | inr r => r
      | inl _ => OutOfFuel
      end
  end.
End automaton.

(** The order of [elements], and its reverse. *)
Definition elements_order : set_order :=
  {| iter_set A _ _ s := elements s;
     iter_set_perm A _ _ s := reflexivity (elements s) |}.

Definition reverse_order : set_order :=
  {| iter_set A _ _ s := reverse (elements s);
     iter_set_perm A _ _ s := reverse_Permutation (elements s) |}.

(** ** FIRST and FOLLOW *)

(** [table[key].add(x)] and [table[key].update(xs)] on a dictionary of
    sets whose entry [key] exists. *)
Definition set_add (key x : str) (table : gmap str (gset str))
    : gmap str (gset str) :=
  alter (λ s, {[x]} ∪ s) key table.

Definition set_update (key : str) (xs : gset str) (table : gmap str (gset str))
    : gmap str (gset str) :=
  alter (λ s, xs ∪ s) key table.

(** The loop [for sub_symbol in production] of [compute_first] with its
    [else] branch, for the nonterminal [symbol]; [call] is
    [compute_first] itself. The set that a call returns is the entry of the
    table, read after the call. *)
Fixpoint walk_production (call : gmap str (gset str) → str → res (gmap str (gset str)))
    (g : grammar) (symbol : str) (first : gmap str (gset str))
    (production : list str) : res (gmap str (gset str)) :=
  match production with
  | [] => Ok (set_add symbol epsilon first)                  (* for ... else *)
  | sub_symbol :: rest =>
      if dict_mem g sub_symbol
      then
        first ← call first sub_symbol;
        let sub_first := first !!! sub_symbol in
        let first := set_update symbol (sub_first ∖ {[epsilon]}) first in
        if decide (epsilon ∈ sub_first)
        then walk_production call g symbol first rest
        else Ok first                                          (* break *)
      else Ok (set_add symbol sub_symbol first)               (* break *)
  end.

(** [compute_first(symbol)], with the global [first] passed in and out.
    [fuel] bounds the depth of the recursion; the interpreter's own limit
    on it is not modelled. *)
Fixpoint compute_first (fuel : nat) (g : grammar)
    (first : gmap str (gset str)) (symbol : str) : res (gmap str (gset str)) :=
  match fuel with
  | O => OutOfFuel
  | S fuel' =>
      if decide (is_Some (first !! symbol)) then Ok first
      else
        for_each (λ first production,
            if decide (production = [empty_str])
            then Ok (set_add symbol epsilon first)
            else walk_production (compute_first fuel' g) g symbol first production)
          (<[symbol := ∅]> first) (default [] (dict_get g symbol))
  end.

(** [for nt in grammar: compute_first(nt)], from the empty table. *)
Definition compute_first_all (g : grammar) : res (gmap str (gset str)) :=
  for_each (compute_first (S (length g)) g) ∅ (g.*1).

(** [list(enumerate(l))] *)
Definition enumerate {A} (l : list A) : list (nat * A) := imap pair l.

(** The body of [for i, sub_symbol in enumerate(rhs)] in
    [compute_follow(symbol)], for the production [lhs -> rhs]; [call] is
    [compute_follow] itself. *)
Definition follow_occurrence
    (call : gmap str (gset str) → str → res (gmap str (gset str)))
    (g : grammar) (first : gmap str (gset str)) (symbol lhs : str)
    (rhs : list str) (follow : gmap str (gset str)) (occurrence : nat * str)
    : res (gmap str (gset str)) :=
  let '(i, sub_symbol) := occurrence in
  if decide (sub_symbol = symbol)
  then
    match rhs !! (i + 1) with
    | Some next_symbol =>
        if dict_mem g next_symbol
        then
          match first !! next_symbol with
          | None => Raise KeyError
          | Some next_sym_first =>
              let follow :=
                set_update symbol (next_sym_first ∖ {[epsilon]}) follow in
              if decide (epsilon ∈ next_sym_first)
              then
                follow ← call follow lhs;
                Ok (set_update symbol (follow !!! lhs) follow)
              else Ok follow
          end
        else Ok (set_add symbol next_symbol follow)
    | None =>
        if decide (lhs ≠ symbol)
        then
          follow ← call follow lhs;
          Ok (set_update symbol (follow !!! lhs) follow)
        else Ok follow
    end
  else Ok follow.

(** [compute_follow(symbol)], with the global [follow] passed in and out. *)
Fixpoint compute_follow (fuel : nat) (g : grammar) (first : gmap str (gset str))
    (follow : gmap str (gset str)) (symbol : str) : res (gmap str (gset str)) :=
  match fuel with
  | O => OutOfFuel
  | S fuel' =>
      if decide (is_Some (follow !! symbol)) then Ok follow
      else
        let follow := <[symbol := ∅]> follow in
        match dict_first g with
        | None => Raise StopIteration
        | Some start =>
            let follow :=
              if decide (symbol = start) then set_add symbol dollar follow
              else follow in
            for_each (λ follow '(lhs, rhs_list),
                for_each (λ follow rhs,
                    for_each
                      (follow_occurrence (compute_follow fuel' g first)
                         g first symbol lhs rhs)
                      follow (enumerate rhs))
                  follow rhs_list)
              follow g
        end
  end.

(** [for nt in grammar: compute_follow(nt)], from the empty table. *)
Definition compute_follow_all (g : grammar) (first : gmap str (gset str))
    : res (gmap str (gset str)) :=
  for_each (compute_follow (S (length g)) g first) ∅ (g.*1).

(** ** The SLR(1) table *)

(** [f"S{next_state}"], ['ACC'] and [f"R({lhs} → {' '.join(rhs)})"]. *)
Definition shift_action (next_state : nat) : str := lit "S" ++ str_of_nat next_state.
Definition accept_action : str := lit "ACC".
Definition reduce_action (lhs : str) (rhs : list str) : str :=
  lit "R(" ++ lhs ++ [32%N; 8594%N; 32%N] ++ join (lit " ") rhs ++ lit ")".

(** [{state: {} for state in range(n)}] *)
Definition empty_rows {V} (n : nat) : gmap nat (gmap str V) :=
  list_to_map ((λ state, (state, ∅)) <$> seq 0 n).

(** [table[state][symbol] = v] *)
Definition set_cell {V} (table : gmap nat (gmap str V)) (state : nat)
    (symbol : str) (v : V) : res (gmap nat (gmap str V)) :=
  match table !! state with
  | Some row => Ok (<[state := <[symbol := v]> row]> table)
  | None => Raise KeyError
  end.

(** [table[state].get(symbol)] for reading the result. *)
Definition cell {V} (table : gmap nat (gmap str V)) (state : nat)
    (symbol : str) : option V :=
  row ← table !! state; row !! symbol.

(** What the script has computed when it reaches the display. *)
Record output := {
  out_grammar : grammar;
  out_states : list (gset item);
  out_transitions : list (nat * list N * nat);
  out_first : gmap (list N) (gset (list N));
  out_follow : gmap (list N) (gset (list N));
  out_parsing_table : gmap nat (gmap (list N) (list N));
  out_goto_table : gmap nat (gmap (list N) nat)
}.

Section table.
Context (ord : set_order).

(** The first loop: one entry per transition. *)
Definition write_transition (g : grammar)
    (t : gmap nat (gmap str str) * gmap nat (gmap str nat))
    (tr : nat * str * nat)
    : res (gmap nat (gmap str str) * gmap nat (gmap str nat)) :=
  let '(state, symbol, next_state) := tr in
  if dict_mem g symbol
  then goto_table ← set_cell t.2 state symbol next_state; Ok (t.1, goto_table)
  else parsing_table ← set_cell t.1 state symbol (shift_action next_state);
       Ok (parsing_table, t.2).

(** The body of the second loop for one item of one state. *)
Definition write_item (follow : gmap str (gset str)) (state : nat)
    (parsing_table : gmap nat (gmap str str)) (it : item)
    : res (gmap nat (gmap str str)) :=
  let '(lhs, rhs, dot_pos) := it in
  if decide (dot_pos = length rhs)
  then
    if decide (lhs = S_prime)
    then set_cell parsing_table state dollar accept_action
    else
      match follow !! lhs with
      | None => Raise KeyError
      | Some terminals =>
          for_each (λ parsing_table terminal,
              set_cell parsing_table state terminal (reduce_action lhs rhs))
            parsing_table (iter_set ord terminals)
      end
  else Ok parsing_table.

Definition generate_slr1_parsing_table (states : list (gset item))
    (transitions : list (nat * str * nat)) (g : grammar)
    (first follow : gmap str (gset str))
    : res (gmap nat (gmap str str) * gmap nat (gmap str nat)) :=
  let parsing_table := empty_rows (length states) in
  let goto_table := empty_rows (length states) in
  '(parsing_table, goto_table) ←
    for_each (write_transition g) (parsing_table, goto_table) transitions;
  parsing_table ←
    for_each (λ parsing_table '(state, items),
        for_each (write_item follow state) parsing_table (iter_set ord items))
      parsing_table (enumerate states);
  Ok (parsing_table, goto_table).

(** ** The script *)

(** The module body, from the text of the sidebar to the two tables.
    [if not grammar: st.stop()] stops on [None] and on an empty
    dictionary. *)
Definition script (grammar_input : str) : res output :=
  match get_grammar grammar_input with
  | RaisedValueError => Raise ValueError
  | ReturnedNone _ | Grammar [] => Raise ScriptStopped
  | Grammar g =>
      augmented_grammar ← augment_grammar g;
      '(states, transitions) ← generate_lr0_items ord augmented_grammar;
      first ← compute_first_all g;
      follow ← compute_follow_all g first;
      '(parsing_table, goto_table) ←
        generate_slr1_parsing_table states transitions g first follow;
      Ok {| out_grammar := g; out_states := states;
            out_transitions := transitions; out_first := first;
            out_follow := follow; out_parsing_table := parsing_table;
            out_goto_table := goto_table |}
  end.
End table.

(** * Statements of the specification *)

(** The alternatives that the lines with left-hand side [lhs] give, in the
    order of the lines. *)
Definition alternatives_of (lhs : str) (entries : list (str * list (list str)))
    : list (list str) :=
  entries ≫= (λ e, if decide (e.1 = lhs) then e.2 else []).

(** Augmentation as the specification words it: a start symbol that is not
    one of the nonterminals, with the single alternative [start], is put
    before the unchanged grammar. *)
Definition augment_adds_fresh_start (g : grammar) : Prop :=
  ∀ start, dict_first g = Some start →
    ∃ new_start, (new_start ∉ g.*1) ∧
      augment_grammar g = Ok ((new_start, [[start]]) :: g).

(** [x] is an item [(symbol, production, 0)] for a production of the
    symbol that follows the dot of some item of [cs]. *)
Definition predicted (g : grammar) (cs : gset item) (x : item) : Prop :=
  ∃ lhs rhs dot_pos symbol prods production,
    (lhs, rhs, dot_pos) ∈ cs ∧ rhs !! dot_pos = Some symbol ∧
    dict_get g symbol = Some prods ∧ production ∈ prods ∧
    x = (symbol, production, 0).

(** An item set to which the closure rule adds nothing. *)
Definition closed (g : grammar) (cs : gset item) : Prop :=
  ∀ x, predicted g cs x → x ∈ cs.

(** [x] is an item of [items] with the dot moved over [symbol]. *)
Definition advanced (items : gset item) (symbol : str) (x : item) : Prop :=
  ∃ lhs rhs dot_pos,
    (lhs, rhs, dot_pos) ∈ items ∧ rhs !! dot_pos = Some symbol ∧
    x = (lhs, rhs, S dot_pos).

(** The item sets reachable from state 0: the closure of the first
    alternative of the first nonterminal with the dot in front, and every
    [goto] of a reachable set on a symbol that follows one of its dots. *)
Inductive reachable (ord : set_order) (g : grammar) : gset item → Prop :=
  | reachable_initial start rhs prods rest s0 :
      g = (start, rhs :: prods) :: rest →
      closure ord {[(start, rhs, 0)]} g = Ok s0 →
      reachable ord g s0
  | reachable_goto s symbol s' :
      reachable ord g s →
      symbol ∈ symbols_after_dot ord s →
      goto ord s symbol g = Ok s' →
      reachable ord g s'.

(** The automaton in the words of the specification, without the code's
    own [closure], [goto] and scan of the symbols after the dots. *)

(** [cs] is the closure of [items]: the least item set that includes them
    and to which the closure rule adds nothing. *)
Definition is_closure (g : grammar) (items cs : gset item) : Prop :=
  items ⊆ cs ∧ closed g cs ∧
  ∀ X : gset item, items ⊆ X → closed g X → cs ⊆ X.

(** [symbol] stands right after the dot of an item of [s]. *)
Definition after_dot (s : gset item) (symbol : str) : Prop :=
  ∃ lhs rhs dot_pos, (lhs, rhs, dot_pos) ∈ s ∧ rhs !! dot_pos = Some symbol.

(** [s'] is the target of [s] on [symbol]: the closure of the items of [s]
    with the dot moved over [symbol]. *)
Definition is_goto (g : grammar) (s : gset item) (symbol : str) (s' : gset item)
    : Prop :=
  (∀ x, advanced s symbol x → x ∈ s') ∧ closed g s' ∧
  ∀ X : gset item, (∀ x, advanced s symbol x → x ∈ X) → closed g X → s' ⊆ X.

(** The states of the LR(0) automaton of [g]: state 0, the closure of the
    first alternative of the first nonterminal with the dot in front, and
    the target of every state on every symbol right after one of its dots. *)
Inductive lr0_state (g : grammar) : gset item → Prop :=
  | lr0_state_initial start rhs prods rest s0 :
      g = (start, rhs :: prods) :: rest →
      is_closure g {[(start, rhs, 0)]} s0 →
      lr0_state g s0
  | lr0_state_goto s symbol s' :
      lr0_state g s → after_dot s symbol → is_goto g s symbol s' →
      lr0_state g s'.

(** [k] rounds of a loop body, one after the other. *)
Fixpoint steps {St R} (body : St → St + R) (k : nat) (s : St) : St + R :=
  match k with
  | O => inl s
  | S k' =>
      match body s with
      | inl s' => steps body k' s'
      | inr r => inr r
      end
  end.

(** What holds of the worklist of [generate_lr0_items] between two steps:
    [q] states have left the queue, [s0] is state 0, and [P i symbol]
    tells for which pairs the transition has been recorded already. *)
Record lr0_inv (ord : set_order) (g : grammar) (s0 : gset item) (q : nat)
    (P : nat → str → Prop) (w : lr0) : Prop := {
  inv_queue : queue w = drop q (states w);
  inv_q : q ≤ length (states w);
  inv_idx : ∀ s i, state_indices w !! s = Some i ↔ states w !! i = Some s;
  inv_init : states w !! 0 = Some s0;
  inv_reach : ∀ s, s ∈ states w → reachable ord g s;
  inv_keys : NoDup (transitions w).*1;
  inv_sound : ∀ i symbol j,
    dict_get (transitions w) (i, symbol) = Some j →
    ∃ s s', states w !! i = Some s ∧ symbol ∈ symbols_after_dot ord s ∧
      goto ord s symbol g = Ok s' ∧ states w !! j = Some s';
  inv_bound : ∀ i symbol, P i symbol → i < length (states w);
  inv_complete : ∀ i s symbol,
    states w !! i = Some s → symbol ∈ symbols_after_dot ord s → P i symbol →
    is_Some (dict_get (transitions w) (i, symbol))
}.

(** ** The table *)

(** [t'] comes from [t] by assignments [t[s][x] = v] with [touch s x v]
    only: a cell with such an assignment holds the value of one of them, the
    others are as before, and no row is added. *)
Definition writes {V} (touch : nat → str → V → Prop)
    (t t' : gmap nat (gmap str V)) : Prop :=
  (∀ s, is_Some (t' !! s) ↔ is_Some (t !! s)) ∧
  ∀ s x,
    (∃ v, touch s x v ∧ cell t' s x = Some v) ∨
    ((∀ v, ¬ touch s x v) ∧ cell t' s x = cell t s x).

(** The action that the second loop of the builder writes for a complete
    item under the lookahead [terminal]. *)
Definition item_action (follow : gmap str (gset str)) (it : item)
    (terminal : str) (action : str) : Prop :=
  let '(lhs, rhs, dot_pos) := it in
  dot_pos = length rhs ∧
  ((lhs = S_prime ∧ terminal = dollar ∧ action = accept_action) ∨
   (lhs ≠ S_prime ∧ ∃ terminals, follow !! lhs = Some terminals ∧
      terminal ∈ terminals ∧ action = reduce_action lhs rhs)).

Definition reduce_candidate (follow : gmap str (gset str)) (items : gset item)
    (terminal : str) (action : str) : Prop :=
  ∃ it, it ∈ items ∧ item_action follow it terminal action.

(** The action that the first loop writes for a transition on a terminal. *)
Definition shift_candidate (transitions : list (nat * str * nat)) (g : grammar)
    (state : nat) (terminal : str) : option str :=
  if dict_mem g terminal then None
  else shift_action <$> dict_get transitions (state, terminal).

(** The two tables are the same whatever the order in which the loops of
    the builder visit the items of a state and the terminals of a FOLLOW
    set. *)
Definition table_order_independent (states : list (gset item))
    (transitions : list (nat * str * nat)) (g : grammar)
    (first follow : gmap str (gset str)) : Prop :=
  ∀ ord1 ord2 : set_order,
    generate_slr1_parsing_table ord1 states transitions g first follow =
    generate_slr1_parsing_table ord2 states transitions g first follow.

(** ** FIRST and FOLLOW as the specification defines them *)

(** FIRST of one symbol under the table [first]: a terminal is its own
    FIRST set. *)
Definition first_of_symbol (g : grammar) (first : gmap str (gset str))
    (symbol : str) : gset str :=
  if dict_mem g symbol then first !!! symbol else {[symbol]}.

(** What a right-hand side [X1 ... Xk] contributes: [ε] when [k = 0];
    otherwise FIRST(Xi) without [ε] for the successive [Xi], up to the first
    one whose FIRST lacks [ε], and [ε] when there is none. *)
Fixpoint first_of_seq (g : grammar) (first : gmap str (gset str))
    (rhs : list str) : gset str :=
  match rhs with
  | [] => {[epsilon]}
  | x :: rest =>
      let fx := first_of_symbol g first x in
      (fx ∖ {[epsilon]}) ∪
      (if decide (epsilon ∈ fx) then first_of_seq g first rest else ∅)
  end.

(** [first] satisfies the FIRST equations of [g]. *)
Definition first_closed (g : grammar) (first : gmap str (gset str)) : Prop :=
  ∀ lhs prods rhs,
    dict_get g lhs = Some prods → rhs ∈ prods →
    first_of_seq g first rhs ⊆ first !!! lhs.

(** [first] is the least solution of the FIRST equations. *)
Definition least_first (g : grammar) (first : gmap str (gset str)) : Prop :=
  first_closed g first ∧
  ∀ first', first_closed g first' →
    ∀ lhs, dict_mem g lhs → first !!! lhs ⊆ first' !!! lhs.

(** [follow] satisfies the FOLLOW equations of [g] under [first]. *)
Definition follow_closed (g : grammar) (first follow : gmap str (gset str))
    : Prop :=
  (∀ start, dict_first g = Some start → dollar ∈ follow !!! start) ∧
  ∀ lhs prods alpha x beta,
    dict_get g lhs = Some prods → alpha ++ x :: beta ∈ prods → dict_mem g x →
    (beta ≠ [] → first_of_seq g first beta ∖ {[epsilon]} ⊆ follow !!! x) ∧
    (beta = [] ∨ epsilon ∈ first_of_seq g first beta →
       follow !!! lhs ⊆ follow !!! x).

(** [follow] is the least solution of the FOLLOW equations. *)
Definition least_follow (g : grammar) (first follow : gmap str (gset str))
    : Prop :=
  follow_closed g first follow ∧
  ∀ follow', follow_closed g first follow' →
    ∀ lhs, dict_mem g lhs → follow !!! lhs ⊆ follow' !!! lhs.

(** The entries of [t] are entries of [t'], with sets at least as large:
    how the tables [first] and [follow] change while they are filled. *)
Definition table_le (t t' : gmap str (gset str)) : Prop :=
  ∀ k s, t !! k = Some s → ∃ s', t' !! k = Some s' ∧ s ⊆ s'.

(** The nonterminals of a grammar, as a set. *)
Definition nonterminals (g : grammar) : gset str := list_to_set g.*1.

(** ** Further statements about the code *)

(** A string without white space. *)
Definition no_space (s : str) : Prop := Forall (λ c, is_space c = false) s.

(** What every dictionary built by [get_grammar] satisfies: the keys are
    distinct and stripped, every key has an alternative, and the symbols of
    the alternatives are non-empty words without white space. *)
Definition parsed_grammar (g : grammar) : Prop :=
  NoDup g.*1 ∧
  ∀ lhs prods, (lhs, prods) ∈ g →
    strip lhs = lhs ∧ prods ≠ [] ∧
    ∀ alt symbol, alt ∈ prods → symbol ∈ alt → symbol ≠ [] ∧ no_space symbol.

(** No alternative uses [ε] as a symbol, and none is the single empty
    string that [compute_first] reads as the empty alternative. *)
Definition epsilon_free (g : grammar) : Prop :=
  Forall (λ lp : str * list (list str),
            Forall (λ rhs, rhs ≠ [empty_str] ∧ epsilon ∉ rhs) lp.2) g.

(** Membership in what a right-hand side contributes, for a table given
    as a relation. *)
Fixpoint seq_has (g : grammar) (F : str → str → Prop) (rhs : list str) (x : str)
    : Prop :=
  match rhs with
  | [] => x = epsilon
  | y :: rest =>
      if dict_mem g y
      then (F y x ∧ x ≠ epsilon) ∨ (F y epsilon ∧ seq_has g F rest x)
      else (x = y ∧ x ≠ epsilon) ∨ (y = epsilon ∧ seq_has g F rest x)
  end.

(** The table [t] holds nothing that the relation [F] does not allow. *)
Definition below (F : str → str → Prop) (t : gmap str (gset str)) : Prop :=
  ∀ k x, x ∈ t !!! k → F k x.

(** The nonterminals that can begin what [lhs -> rhs] derives - the
    leading symbols of [rhs] up to the first one outside [nul] - are of lower
    rank than [lhs], or are [lhs] itself when [lhs] is outside [nul]. *)
Fixpoint leftmost_ranked (g : grammar) (rank : str → nat) (nul : gset str)
    (lhs : str) (rhs : list str) : bool :=
  match rhs with
  | [] => true
  | y :: rest =>
      if dict_mem g y
      then (bool_decide (rank y < rank lhs) || bool_decide (y = lhs ∧ lhs ∉ nul))
           && (if bool_decide (y ∈ nul)
               then leftmost_ranked g rank nul lhs rest else true)
      else true
  end.

(** The only left recursion of [g] is direct and in nonterminals that do
    not derive the empty word: [nul] holds every nonterminal that derives the
    empty word, and [rank] witnesses that the leading nonterminals are
    ranked. *)
Definition mild_left_recursion (g : grammar) (rank : str → nat) (nul : gset str)
    : Prop :=
  Forall (λ lp : str * list (list str),
            Forall (λ rhs, (Forall (.∈ nul) rhs → lp.1 ∈ nul) ∧
                           leftmost_ranked g rank nul lp.1 rhs = true) lp.2) g.

(** [ε] is allowed in the entries of the members of [nul] only. *)
Definition nullable_in (nul : gset str) (k x : str) : Prop :=
  x = epsilon → k ∈ nul.

(** The entry of [k] in [t] has what the alternative [rhs] contributes,
    read off entries of lower rank. *)
Fixpoint covered (g : grammar) (rank : str → nat) (nul : gset str)
    (t : gmap str (gset str)) (k : str) (rhs : list str) : Prop :=
  match rhs with
  | [] => epsilon ∈ t !!! k
  | y :: rest =>
      if dict_mem g y
      then (y = k ∧ k ∉ nul) ∨
           (y ∈ dom t ∧ rank y < rank k ∧ t !!! y ∖ {[epsilon]} ⊆ t !!! k ∧
            (epsilon ∈ t !!! y → covered g rank nul t k rest))
      else y ≠ epsilon ∧ y ∈ t !!! k
  end.

(** The entry of [k] covers every alternative of [k]. *)
Definition settled (g : grammar) (rank : str → nat) (nul : gset str)
    (t : gmap str (gset str)) (k : str) : Prop :=
  ∀ prods rhs, dict_get g k = Some prods → rhs ∈ prods →
    covered g rank nul t k rhs.

(** How the table changes while [compute_first(symbol)] runs: old entries
    other than that of [symbol] are kept, the entry of [symbol] grows, and
    the new entries are settled and of lower rank. *)
Definition grows (g : grammar) (rank : str → nat) (nul : gset str)
    (symbol : str) (u u' : gmap str (gset str)) : Prop :=
  dom u ⊆ dom u' ∧
  (∀ k, k ∈ dom u → k ≠ symbol → u' !! k = u !! k) ∧
  u !!! symbol ⊆ u' !!! symbol ∧
  (∀ k, k ∈ dom u' → k ∉ dom u → settled g rank nul u' k ∧ rank k < rank symbol).

(** Every entry of [t] of lower rank than [symbol] is settled. *)
Definition lower_settled (g : grammar) (rank : str → nat) (nul : gset str)
    (symbol : str) (t : gmap str (gset str)) : Prop :=
  ∀ k, k ∈ dom t → rank k < rank symbol → settled g rank nul t k.

(** The entry of [B] in [t] has what the symbol right after each
    occurrence of [B] in a right-hand side contributes: that symbol when it
    is a terminal, its FIRST set without [ε] when it is a nonterminal. *)
Definition direct_follow (g : grammar) (first t : gmap str (gset str)) (B : str)
    : Prop :=
  ∀ lhs rhs_list rhs i next,
    (lhs, rhs_list) ∈ g → rhs ∈ rhs_list →
    rhs !! i = Some B → rhs !! (i + 1) = Some next →
    if dict_mem g next then first !!! next ∖ {[epsilon]} ⊆ t !!! B
    else next ∈ t !!! B.

(** How the table changes while [compute_follow] runs: entries are kept
    and grow, and the new entries have their direct contributions. *)
Definition follow_grows (g : grammar) (first u u' : gmap str (gset str)) : Prop :=
  table_le u u' ∧ ∀ k, k ∈ dom u' → k ∉ dom u → direct_follow g first u' k.

(** What the round of [compute_follow(symbol)] for one occurrence in
    [rhs] establishes. *)
Definition occurrence_done (g : grammar) (first : gmap str (gset str))
    (symbol : str) (rhs : list str) (occurrence : nat * str)
    (u : gmap str (gset str)) : Prop :=
  occurrence.2 = symbol → ∀ next, rhs !! (occurrence.1 + 1) = Some next →
    if dict_mem g next then first !!! next ∖ {[epsilon]} ⊆ u !!! symbol
    else next ∈ u !!! symbol.

(** [x] can head a column of the action table: it is [$] or a symbol that
    is not a nonterminal of [g]. *)
Definition lookahead_symbol (g : grammar) (x : str) : Prop :=
  x = dollar ∨ dict_mem g x = false.

(** * Properties *)

(** ** Dictionaries and the grammar reader *)


Section dict_facts.
Context {K V : Type} `{EqDecision K}.
Implicit Types (d : list (K * V)) (k : K) (v : V).

Lemma dict_get_set d k v k' :
  dict_get (dict_set d k v) k' = if decide (k = k') then Some v else dict_get d k'.
Proof.
  induction d as [|[k0 v0] d IH]; simpl.
  - by destruct (decide (k = k')).
  - destruct (decide (k0 = k)) as [->|Hne]; simpl.
    + by destruct (decide (k = k')).
    + destruct (decide (k0 = k')) as [->|Hne'].
      * by rewrite decide_False.
      * done.
Qed.

Lemma dict_get_Some_elem d k v : dict_get d k = Some v → (k, v) ∈ d.
Proof.
  induction d as [|[k0 v0] d IH]; simpl; [done|].
  destruct (decide (k0 = k)) as [->|Hne].
  - intros [= ->]. by left.
  - intros. right. auto.
Qed.

Lemma dict_get_None d k : dict_get d k = None ↔ k ∉ d.*1.
Proof.
  induction d as [|[k0 v0] d IH]; simpl.
  - split; [intros _; apply not_elem_of_nil|done].
  - rewrite not_elem_of_cons. destruct (decide (k0 = k)) as [->|Hne].
    + split; [done|]. by intros [? _].
    + rewrite IH. naive_solver.
Qed.

Lemma dict_get_is_Some d k : is_Some (dict_get d k) ↔ k ∈ d.*1.
Proof.
  rewrite <-not_eq_None_Some, dict_get_None.
  split; [apply dec_stable|tauto].
Qed.

Lemma dict_get_NoDup d k v : NoDup d.*1 → (k, v) ∈ d → dict_get d k = Some v.
Proof.
  induction d as [|[k0 v0] d IH]; simpl.
  - by intros _ ?%elem_of_nil.
  - intros [Hk0 Hnd]%NoDup_cons [[= -> ->]|Hin]%elem_of_cons.
    + by rewrite decide_True.
    + rewrite decide_False; [auto|].
      intros ->. apply Hk0. apply list_elem_of_fmap. by exists (k, v).
Qed.

Lemma dict_set_keys d k v :
  (dict_set d k v).*1 = if decide (k ∈ d.*1) then d.*1 else d.*1 ++ [k].
Proof.
  induction d as [|[k0 v0] d IH]; [done|].
  cbn [dict_set]. destruct (decide (k0 = k)) as [->|Hne].
  - rewrite !fmap_cons. cbn [fst]. rewrite decide_True; [done|by left].
  - rewrite !fmap_cons, IH. cbn [fst]. destruct (decide (k ∈ d.*1)).
    + rewrite decide_True; [done|by right].
    + rewrite decide_False; [done|]. rewrite not_elem_of_cons. naive_solver.
Qed.

Lemma dict_set_NoDup d k v : NoDup d.*1 → NoDup (dict_set d k v).*1.
Proof.
  intros Hnd. rewrite dict_set_keys. case_decide; [done|].
  apply NoDup_app. split_and!; [done| |apply NoDup_singleton].
  intros x Hx ->%list_elem_of_singleton. done.
Qed.

Lemma dict_set_fresh d k v : k ∉ d.*1 → dict_set d k v = d ++ [(k, v)].
Proof.
  induction d as [|[k0 v0] d IH]; simpl; [done|].
  rewrite not_elem_of_cons. intros [Hne Hk].
  rewrite decide_False by done. by rewrite IH.
Qed.
End dict_facts.

Lemma split_go_no_sep sep s cur :
  contains sep s = false → split_go sep 0 cur s = [rev cur ++ s].
Proof.
  revert cur. induction s as [|c s IH]; intros cur; simpl.
  - by rewrite app_nil_r.
  - intros [Hst Hc]%orb_false_iff. rewrite Hst, IH by done.
    simpl. by rewrite <-app_assoc.
Qed.

Lemma parse_line_contains line :
  is_Some (parse_line line) → contains arrow line = true.
Proof.
  intros Hp. destruct (contains arrow line) eqn:Hc; [done|].
  unfold parse_line, split in Hp. rewrite split_go_no_sep in Hp by done.
  by destruct Hp.
Qed.

Lemma alternatives_of_cons lhs e entries :
  alternatives_of lhs (e :: entries) =
  (if decide (e.1 = lhs) then e.2 else []) ++ alternatives_of lhs entries.
Proof. done. Qed.

Lemma get_grammar_loop_merges lines : ∀ g entries,
  mapM parse_line lines = Some entries →
  NoDup g.*1 →
  ∃ g', get_grammar_loop g lines = Grammar g' ∧ NoDup g'.*1 ∧
    ∀ lhs, dict_get g' lhs =
      match dict_get g lhs with
      | Some old => Some (old ++ alternatives_of lhs entries)
      | None => if decide (lhs ∈ entries.*1)
                then Some (alternatives_of lhs entries) else None
      end.
Proof.
  induction lines as [|line lines IH]; intros g entries Hm Hnd.
  - injection Hm as <-. exists g. split_and!; [done..|].
    intros lhs. destruct (dict_get g lhs); [by rewrite app_nil_r|].
    rewrite decide_False; [done|apply not_elem_of_nil].
  - rewrite mapM_Some in Hm. 
    destruct entries as [|[l alts] entries]; [by apply Forall2_nil_inv_r in Hm|].
    apply Forall2_cons_1 in Hm as [Hl Hrest]. rewrite <-mapM_Some in Hrest.
    cbn [get_grammar_loop]. rewrite parse_line_contains by (by rewrite Hl).
    unfold add_line. rewrite Hl. cbn [mbind option_bind].
    destruct (dict_get g l) as [old|] eqn:Hgl.
    + destruct (IH (dict_set g l (old ++ alts)) entries Hrest) as (g' & -> & Hnd' & Hg').
      { by apply dict_set_NoDup. }
      exists g'. split_and!; [done..|]. intros lhs.
      rewrite Hg', dict_get_set, alternatives_of_cons, fmap_cons. cbn [fst snd].
      destruct (decide (l = lhs)) as [->|Hne].
      * rewrite Hgl. by rewrite <-app_assoc.
      * destruct (dict_get g lhs); [done|]. rewrite app_nil_l.
        repeat case_decide; set_solver.
    + destruct (IH (dict_set g l alts) entries Hrest) as (g' & -> & Hnd' & Hg').
      { by apply dict_set_NoDup. }
      exists g'. split_and!; [done..|]. intros lhs.
      rewrite Hg', dict_get_set, alternatives_of_cons, fmap_cons. cbn [fst snd].
      destruct (decide (l = lhs)) as [->|Hne].
      * rewrite Hgl. rewrite decide_True; [done|]. by left.
      * destruct (dict_get g lhs); [done|]. rewrite app_nil_l.
        repeat case_decide; set_solver.
Qed.

(** C10. When every line of the text unpacks into a left-hand side and
    alternatives, [get_grammar] returns a dictionary in which each
    nonterminal has the alternatives of all its lines, those of a later line
    after those of an earlier one, in the order of the text: a repeated
    left-hand side is merged, neither replaced nor rejected. *)
Theorem get_grammar_merges_repeated_lhs (grammar_text : str)
    (entries : list (str * list (list str))) :
  mapM parse_line (get_lines grammar_text) = Some entries →
  ∃ g, get_grammar grammar_text = Grammar g ∧ NoDup g.*1 ∧
    ∀ lhs, dict_get g lhs =
      if decide (lhs ∈ entries.*1)
      then Some (alternatives_of lhs entries) else None.
Proof.
  intros Hm.
  destruct (get_grammar_loop_merges _ [] entries Hm) as (g & Hg & Hnd & Hget).
  { apply NoDup_nil_2. }
  exists g. split_and!; [done..|]. intros lhs. by rewrite Hget.
Qed.

Lemma get_grammar_merges_repeated_lhs_witness :
  let text := lit "A -> a" ++ newline ++ lit "B -> b" ++ newline ++ lit "A -> c | d" in
  ∃ g, get_grammar text = Grammar g ∧ NoDup g.*1 ∧
    ∀ lhs, dict_get g lhs =
      if decide (lhs ∈ [lit "A"; lit "B"; lit "A"])
      then Some (alternatives_of lhs
                   [(lit "A", [[lit "a"]]); (lit "B", [[lit "b"]]);
                    (lit "A", [[lit "c"]; [lit "d"]])])
      else None.
Proof.
  exact (get_grammar_merges_repeated_lhs
           (lit "A -> a" ++ newline ++ lit "B -> b" ++ newline ++ lit "A -> c | d")
           [(lit "A", [[lit "a"]]); (lit "B", [[lit "b"]]);
            (lit "A", [[lit "c"]; [lit "d"]])] eq_refl).
Defined.

Lemma get_grammar_loop_reports pre : ∀ g line post,
  Forall (λ l, is_Some (parse_line l)) pre →
  contains arrow line = false →
  get_grammar_loop g (pre ++ line :: post) = ReturnedNone line.
Proof.
  induction pre as [|l pre IH]; intros g line post Hpre Hline.
  - cbn [app get_grammar_loop]. by rewrite Hline.
  - apply Forall_cons in Hpre as [Hl Hpre]. cbn [app get_grammar_loop].
    rewrite parse_line_contains by done. unfold add_line.
    destruct Hl as [[lhs alts] ->]. cbn [mbind option_bind].
    destruct (dict_get g lhs); by apply IH.
Qed.

Lemma get_grammar_loop_raises pre : ∀ g line post,
  Forall (λ l, is_Some (parse_line l)) pre →
  2 < length (split arrow line) →
  get_grammar_loop g (pre ++ line :: post) = RaisedValueError.
Proof.
  induction pre as [|l pre IH]; intros g line post Hpre Hline.
  - cbn [app get_grammar_loop].
    assert (parse_line line = None) as Hp.
    { unfold parse_line. destruct (split arrow line) as [|?[|?[|??]]]; simpl in *; done || lia. }
    destruct (contains arrow line) eqn:Hc.
    + unfold add_line. by rewrite Hp.
    + unfold split in Hline. rewrite split_go_no_sep in Hline by done.
      simpl in Hline. lia.
  - apply Forall_cons in Hpre as [Hl Hpre]. cbn [app get_grammar_loop].
    rewrite parse_line_contains by done. unfold add_line.
    destruct Hl as [[lhs alts] ->]. cbn [mbind option_bind].
    destruct (dict_get g lhs); by apply IH.
Qed.

Lemma get_grammar_loop_no_grammar lines : ∀ g line,
  line ∈ lines → contains arrow line = false →
  ∀ g', get_grammar_loop g lines ≠ Grammar g'.
Proof.
  induction lines as [|l lines IH]; intros g line Hin Hline g'.
  - by apply elem_of_nil in Hin.
  - cbn [get_grammar_loop]. apply elem_of_cons in Hin as [<-|Hin].
    + by rewrite Hline.
    + destruct (contains arrow l); [|done].
      destruct (add_line g l); [by eapply IH|done].
Qed.

(** A line without the separator is reported, and [None] returned, when
    every line before it unpacks. *)
Lemma get_grammar_reports_line grammar_text pre line post :
  get_lines grammar_text = pre ++ line :: post →
  Forall (λ l, is_Some (parse_line l)) pre →
  contains arrow line = false →
  get_grammar grammar_text = ReturnedNone line.
Proof. unfold get_grammar. intros ->. apply get_grammar_loop_reports. Qed.

(** With a line that lacks the separator, no dictionary is ever returned. *)
Lemma get_grammar_never_partial grammar_text line :
  line ∈ get_lines grammar_text → contains arrow line = false →
  ∀ g, get_grammar grammar_text ≠ Grammar g.
Proof. unfold get_grammar. apply get_grammar_loop_no_grammar. Qed.

(** The unpacking raises at the first line with two separators or more,
    when every line before it unpacks. *)
Lemma get_grammar_raises grammar_text pre line post :
  get_lines grammar_text = pre ++ line :: post →
  Forall (λ l, is_Some (parse_line l)) pre →
  2 < length (split arrow line) →
  get_grammar grammar_text = RaisedValueError.
Proof. unfold get_grammar. intros ->. apply get_grammar_loop_raises. Qed.

(** C8, at the input where the code departs from it. The text has the line
    [foo], which lacks the separator, after a line with two separators:
    [get_grammar] neither reports [foo] nor returns [None], the unpacking of
    the first line raises [ValueError]. *)
Theorem get_grammar_missing_separator_raises :
  let grammar_text := lit "A -> b -> c" ++ newline ++ lit "foo" in
  lit "foo" ∈ get_lines grammar_text ∧
  contains arrow (lit "foo") = false ∧
  get_grammar grammar_text = RaisedValueError.
Proof. split_and!; [|done|done]. vm_compute. set_solver. Qed.

(** C9. There is a text with a line in which the separator occurs twice
    on which [get_grammar] returns no dictionary and reports no line: the
    unpacking of [line.split('->')] into two names raises [ValueError]. *)
Theorem get_grammar_unpacking_raises :
  ∃ grammar_text line,
    line ∈ get_lines grammar_text ∧
    contains arrow line = true ∧
    2 < length (split arrow line) ∧
    get_grammar grammar_text = RaisedValueError.
Proof.
  exists (lit "A -> b -> c"), (lit "A -> b -> c").
  assert (get_lines (lit "A -> b -> c") = [] ++ lit "A -> b -> c" :: []) as Hl by done.
  split_and!.
  - rewrite Hl. set_solver.
  - done.
  - vm_compute. lia.
  - eapply get_grammar_raises; [exact Hl|done|]. vm_compute. lia.
Qed.

(** C5 as worded fails on a grammar that already has the nonterminal [S']
    (the entry of [S'] is overwritten, no production is added) and on one
    whose first nonterminal is the empty string (taken for an empty
    grammar). *)

Lemma dict_update_fresh {V} (e : list (list N * V)) : ∀ d,
  NoDup (d.*1 ++ e.*1) → dict_update d e = d ++ e.
Proof.
  unfold dict_update.
  induction e as [|[k v] e IH]; intros d Hnd; cbn [foldl fst snd].
  - by rewrite app_nil_r.
  - rewrite fmap_cons in Hnd. cbn [fst] in Hnd.
    rewrite dict_set_fresh.
    + rewrite IH; [by rewrite <-app_assoc|].
      by rewrite fmap_app, <-app_assoc.
    + apply NoDup_app in Hnd as (_ & Hd & _). intros Hk.
      apply (Hd k Hk). by left.
Qed.

Lemma augment_grammar_collision :
  ¬ augment_adds_fresh_start [(S_prime, [[lit "a"]])] ∧
  ¬ augment_adds_fresh_start [(empty_str, [[lit "a"]])].
Proof.
  split; intros H; destruct (H _ eq_refl) as (new & _ & Haug); by vm_compute in Haug.
Qed.

(** C5, amended. On the empty grammar [augment_grammar] stops the script.
    On a grammar whose first nonterminal [start] is not the empty string and
    that has no nonterminal named [S'], it returns the entry [S' -> start]
    followed by the grammar itself, unchanged. *)
Theorem augment_grammar_spec :
  augment_grammar [] = Raise ScriptStopped ∧
  ∀ (g : grammar) (start : str),
    NoDup g.*1 → dict_first g = Some start →
    start ≠ empty_str → S_prime ∉ g.*1 →
    augment_grammar g = Ok ((S_prime, [[start]]) :: g).
Proof.
  split; [done|]. intros g start Hnd Hfirst Hne Hfresh.
  unfold augment_grammar. rewrite Hfirst. rewrite decide_False by done.
  rewrite dict_update_fresh; [done|].
  cbn. apply NoDup_cons. done.
Qed.

Lemma augment_grammar_spec_witness :
  augment_grammar [(lit "S", [[lit "a"]])] =
  Ok [(S_prime, [[lit "S"]]); (lit "S", [[lit "a"]])].
Proof.
  apply (proj2 augment_grammar_spec [(lit "S", [[lit "a"]])] (lit "S")).
  - apply NoDup_singleton.
  - reflexivity.
  - discriminate.
  - vm_compute. intros H. apply list_elem_of_singleton in H. discriminate.
Defined.

(** ** Loops over sets *)

Lemma elem_of_iter_set (ord : set_order) `{Countable A} (s : gset A) x :
  x ∈ iter_set ord s ↔ x ∈ s.
Proof. by rewrite iter_set_perm, elem_of_elements. Qed.

Lemma NoDup_iter_set (ord : set_order) `{Countable A} (s : gset A) :
  NoDup (iter_set ord s).
Proof. rewrite iter_set_perm. apply NoDup_elements. Qed.

(** ** Closure *)

Section closure_facts.
Context (ord : set_order) (g : grammar).
Implicit Types (cs : gset item) (x : item).

Lemma closure_pass_inner cs symbol prods : ∀ (acc : gset item) x,
  x ∈ foldl (λ new_items production,
         let new_item := (symbol, production, 0) in
         if decide (new_item ∈ cs) then new_items
         else {[new_item]} ∪ new_items) acc prods
  ↔ x ∈ acc ∨ ((x ∉ cs) ∧ ∃ production, production ∈ prods ∧ x = (symbol, production, 0)).
Proof.
  induction prods as [|p prods IH]; intros acc x; cbn [foldl].
  - split; [auto|]. intros [?|(_ & p & Hp & _)]; [done|]. by apply elem_of_nil in Hp.
  - rewrite IH. destruct (decide ((symbol, p, 0) ∈ cs)) as [Hin|Hin].
    + split.
      * intros [?|(? & q & ? & ?)]; [auto|]. right. split; [done|].
        exists q. split; [by right|done].
      * intros [?|(Hx & q & [->|?]%elem_of_cons & ->)]; [auto|done|].
        right. eauto.
    + rewrite elem_of_union, elem_of_singleton. split.
      * intros [[->|?]|(? & q & ? & ?)]; [|auto|].
        -- right. split; [done|]. exists p. split; [by left|done].
        -- right. split; [done|]. exists q. split; [by right|done].
      * intros [?|(Hx & q & [->|?]%elem_of_cons & ->)]; [auto|auto|].
        right. eauto.
Qed.

Lemma closure_pass_spec cs x :
  x ∈ closure_pass ord g cs ↔ (x ∉ cs) ∧ predicted g cs x.
Proof.
  unfold closure_pass, predicted.
  assert (∀ (l : list item) (acc : gset item),
    x ∈ foldl (λ new_items '(lhs, rhs, dot_pos),
      match rhs !! dot_pos with
      | Some symbol =>
          match dict_get g symbol with
          | Some prods =>
              foldl (λ new_items production,
                let new_item := (symbol, production, 0) in
                if decide (new_item ∈ cs) then new_items
                else {[new_item]} ∪ new_items) new_items prods
          | None => new_items
          end
      | None => new_items
      end) acc l
    ↔ x ∈ acc ∨ ((x ∉ cs) ∧ ∃ lhs rhs dot_pos symbol prods production,
         (lhs, rhs, dot_pos) ∈ l ∧ rhs !! dot_pos = Some symbol ∧
         dict_get g symbol = Some prods ∧ production ∈ prods ∧
         x = (symbol, production, 0))) as Hfold.
  { induction l as [|[[lhs rhs] dot_pos] l IH]; intros acc; cbn [foldl].
    - split; [auto|]. intros [?|(_ & ? & ? & ? & ? & ? & ? & Hin & _)]; [done|].
      by apply elem_of_nil in Hin.
    - rewrite IH. clear IH.
      destruct (rhs !! dot_pos) as [symbol|] eqn:Hsym;
        [destruct (dict_get g symbol) as [prods|] eqn:Hprods|].
      + rewrite closure_pass_inner. split.
        * intros [[?|(Hx & p & Hp & ->)]|(Hx & l1 & r1 & d1 & s1 & ps1 & p1 & Hin & ?)];
            [auto| |].
          -- right. split; [done|].
             exists lhs, rhs, dot_pos, symbol, prods, p. split_and!; [by left|done..].
          -- right. split; [done|].
             exists l1, r1, d1, s1, ps1, p1. split; [by right|done].
        * intros [?|(Hx & l1 & r1 & d1 & s1 & ps1 & p1 & Hin & Hs1 & Hps1 & Hp1 & ->)];
            [auto|].
          apply elem_of_cons in Hin as [[= -> -> ->]|Hin].
          -- left. right. split; [done|]. exists p1. split; [|congruence].
             congruence.
          -- right. split; [done|].
             exists l1, r1, d1, s1, ps1, p1. done.
      + split.
        * intros [?|(Hx & l1 & r1 & d1 & s1 & ps1 & p1 & Hin & ?)]; [auto|].
          right. split; [done|]. exists l1, r1, d1, s1, ps1, p1. split; [by right|done].
        * intros [?|(Hx & l1 & r1 & d1 & s1 & ps1 & p1 & Hin & Hs1 & Hps1 & ?)]; [auto|].
          apply elem_of_cons in Hin as [[= -> -> ->]|Hin]; [congruence|].
          right. split; [done|]. exists l1, r1, d1, s1, ps1, p1. done.
      + split.
        * intros [?|(Hx & l1 & r1 & d1 & s1 & ps1 & p1 & Hin & ?)]; [auto|].
          right. split; [done|]. exists l1, r1, d1, s1, ps1, p1. split; [by right|done].
        * intros [?|(Hx & l1 & r1 & d1 & s1 & ps1 & p1 & Hin & Hs1 & ?)]; [auto|].
          apply elem_of_cons in Hin as [[= -> -> ->]|Hin]; [congruence|].
          right. split; [done|]. exists l1, r1, d1, s1, ps1, p1. done. }
  rewrite Hfold. split.
  - intros [?%elem_of_empty|(Hx & l1 & r1 & d1 & s1 & ps1 & p1 & Hin & ?)]; [done|].
    split; [done|]. exists l1, r1, d1, s1, ps1, p1.
    split; [by apply (elem_of_iter_set ord)|done].
  - intros (Hx & l1 & r1 & d1 & s1 & ps1 & p1 & Hin & ?). right.
    split; [done|]. exists l1, r1, d1, s1, ps1, p1.
    split; [by apply (elem_of_iter_set ord)|done].
Qed.

Lemma closure_pass_empty cs : closure_pass ord g cs = ∅ ↔ closed g cs.
Proof.
  unfold closed. split.
  - intros Hpass x Hx. destruct (decide (x ∈ cs)) as [|Hnin]; [done|].
    assert (x ∈ closure_pass ord g cs) as Hin by by apply closure_pass_spec.
    rewrite Hpass in Hin. by apply elem_of_empty in Hin.
  - intros Hcl. apply set_eq. intros x. rewrite closure_pass_spec.
    split; [|by intros ?%elem_of_empty]. intros [Hnin Hp]. destruct Hnin. auto.
Qed.
End closure_facts.

Lemma elem_of_all_items (g : grammar) lhs rhs dot_pos :
  (lhs, rhs, dot_pos) ∈ all_items g ↔
  ∃ prods, (lhs, prods) ∈ g ∧ rhs ∈ prods ∧ dot_pos ≤ length rhs.
Proof.
  unfold all_items. rewrite elem_of_list_to_set, list_elem_of_bind. split.
  - intros ([l prods] & Hin & Hg). apply list_elem_of_bind in Hin as (r & Hin & Hr).
    apply list_elem_of_fmap in Hin as (d & [= -> -> ->] & Hd).
    apply elem_of_seq in Hd. exists prods. split_and!; [done..|lia].
  - intros (prods & Hg & Hr & Hd). exists (lhs, prods). split; [|done].
    apply list_elem_of_bind. exists rhs. split; [|done].
    apply list_elem_of_fmap. exists dot_pos. split; [done|].
    apply elem_of_seq. lia.
Qed.

Section closure_loop_facts.
Context (ord : set_order) (g : grammar).
Implicit Types (cs : gset item) (x : item).

Lemma predicted_all_items cs x : predicted g cs x → x ∈ all_items g.
Proof.
  intros (lhs & rhs & d & sym & prods & p & _ & _ & Hget & Hp & ->).
  apply elem_of_all_items. exists prods.
  split_and!; [by apply dict_get_Some_elem|done|lia].
Qed.

Lemma predicted_mono cs1 cs2 x : cs1 ⊆ cs2 → predicted g cs1 x → predicted g cs2 x.
Proof.
  intros Hsub (lhs & rhs & d & sym & prods & p & Hin & ?).
  exists lhs, rhs, d, sym, prods, p. split; [by apply Hsub|done].
Qed.

Lemma closure_loop_spec fuel : ∀ cs,
  size (all_items g ∖ cs) < fuel →
  ∃ cs', closure_loop ord fuel g cs = Ok cs' ∧
    cs ⊆ cs' ∧ closed g cs' ∧ cs' ⊆ cs ∪ all_items g ∧
    ∀ X : gset item, cs ⊆ X → closed g X → cs' ⊆ X.
Proof.
  induction fuel as [|fuel IH]; intros cs Hfuel; [lia|].
  cbn [closure_loop]. destruct (decide (closure_pass ord g cs = ∅)) as [Hpass|Hpass].
  - exists cs. split_and!; [done|done| |set_solver|auto].
    by apply (closure_pass_empty ord).
  - assert (closure_pass ord g cs ⊆ all_items g ∖ cs) as Hnew.
    { intros x [Hx Hp]%closure_pass_spec. apply elem_of_difference.
      split; [by eapply predicted_all_items|done]. }
    destruct (IH (cs ∪ closure_pass ord g cs)) as (cs' & -> & Hsub & Hcl & Hup & Hleast).
    { apply set_choose_L in Hpass as [x Hx].
      assert (all_items g ∖ (cs ∪ closure_pass ord g cs) ⊂ all_items g ∖ cs) as Hlt.
      { split; [set_solver|]. intros Hsub. specialize (Hnew _ Hx).
        specialize (Hsub _ Hnew). set_solver. }
      apply subset_size in Hlt. lia. }
    exists cs'. split_and!; [done|set_solver|done|set_solver|].
    intros X HX HclX. apply Hleast; [|done].
    apply union_least; [done|].
    intros x [_ Hp]%closure_pass_spec. apply HclX. by eapply predicted_mono.
Qed.

(** [closure] returns, and what it returns is the least closed set that
    includes the items given. *)
Lemma closure_spec (items : gset item) :
  ∃ cs, closure ord items g = Ok cs ∧
    items ⊆ cs ∧ closed g cs ∧ cs ⊆ items ∪ all_items g ∧
    ∀ X : gset item, items ⊆ X → closed g X → cs ⊆ X.
Proof.
  apply closure_loop_spec.
  apply Nat.lt_succ_r, subseteq_size. set_solver.
Qed.

Lemma closure_closed (cs : gset item) : closed g cs → closure ord cs g = Ok cs.
Proof.
  intros Hcl%(closure_pass_empty ord). unfold closure. cbn [closure_loop].
  by rewrite decide_True.
Qed.
End closure_loop_facts.

(** C7. For every grammar and every item set, [closure] returns, and
    applying it to its own result returns that result again. *)
Theorem closure_idempotent (ord : set_order) (g : grammar) (items : gset item) :
  ∃ cs, closure ord items g = Ok cs ∧ closure ord cs g = Ok cs.
Proof.
  destruct (closure_spec ord g items) as (cs & Hcs & _ & Hcl & _).
  exists cs. split; [done|]. by apply closure_closed.
Qed.

(** The result of [closure] does not depend on the order of the loops. *)
Lemma closure_order_irrelevant (ord1 ord2 : set_order) (g : grammar)
    (items cs1 cs2 : gset item) :
  closure ord1 items g = Ok cs1 → closure ord2 items g = Ok cs2 → cs1 = cs2.
Proof.
  intros H1 H2.
  destruct (closure_spec ord1 g items) as (c1 & E1 & Hs1 & Hc1 & _ & Hl1).
  destruct (closure_spec ord2 g items) as (c2 & E2 & Hs2 & Hc2 & _ & Hl2).
  rewrite H1 in E1. rewrite H2 in E2. injection E1 as <-. injection E2 as <-.
  apply set_eq. intros x. split; [by apply Hl1|by apply Hl2].
Qed.

(** ** Goto *)

Section goto_facts.
Context (ord : set_order) (g : grammar).
Implicit Types (items : gset item) (x : item).

Lemma advance_spec (symbol : str) (l : list item) : ∀ (acc : gset item) x,
  x ∈ foldl (λ next_items '(lhs, rhs, dot_pos),
        if decide (rhs !! dot_pos = Some symbol)
        then {[(lhs, rhs, S dot_pos)]} ∪ next_items
        else next_items) acc l
  ↔ x ∈ acc ∨ ∃ lhs rhs dot_pos,
      (lhs, rhs, dot_pos) ∈ l ∧ rhs !! dot_pos = Some symbol ∧
      x = (lhs, rhs, S dot_pos).
Proof.
  induction l as [|[[lhs rhs] d] l IH]; intros acc x; cbn [foldl].
  - split; [auto|]. intros [?|(? & ? & ? & Hin & _)]; [done|].
    by apply elem_of_nil in Hin.
  - rewrite IH. clear IH. destruct (decide (rhs !! d = Some symbol)) as [Hs|Hs].
    + rewrite elem_of_union, elem_of_singleton. split.
      * intros [[->|?]|(l1 & r1 & d1 & Hin & ?)]; [|auto|].
        -- right. exists lhs, rhs, d. split; [by left|done].
        -- right. exists l1, r1, d1. split; [by right|done].
      * intros [?|(l1 & r1 & d1 & [[= -> -> ->]|Hin]%elem_of_cons & H1 & ->)];
          [auto|auto|]. right. exists l1, r1, d1. done.
    + split.
      * intros [?|(l1 & r1 & d1 & Hin & ?)]; [auto|].
        right. exists l1, r1, d1. split; [by right|done].
      * intros [?|(l1 & r1 & d1 & [[= -> -> ->]|Hin]%elem_of_cons & H1 & ->)];
          [auto|done|]. right. exists l1, r1, d1. done.
Qed.

Lemma symbols_after_dot_spec (state : gset item) (symbol : str) :
  symbol ∈ symbols_after_dot ord state ↔
  ∃ lhs rhs dot_pos, (lhs, rhs, dot_pos) ∈ state ∧ rhs !! dot_pos = Some symbol.
Proof.
  unfold symbols_after_dot.
  assert (∀ (l : list item) (acc : gset str),
    symbol ∈ foldl (λ acc '(lhs, rhs, pos),
        match rhs !! pos with
        | Some symbol => {[symbol]} ∪ acc
        | None => acc
        end) acc l
    ↔ symbol ∈ acc ∨ ∃ lhs rhs dot_pos,
        (lhs, rhs, dot_pos) ∈ l ∧ rhs !! dot_pos = Some symbol) as Hfold.
  { induction l as [|[[lhs rhs] d] l IH]; intros acc; cbn [foldl].
    - split; [auto|]. intros [?|(? & ? & ? & Hin & _)]; [done|].
      by apply elem_of_nil in Hin.
    - rewrite IH. clear IH. destruct (rhs !! d) as [s|] eqn:Hs.
      + rewrite elem_of_union, elem_of_singleton. split.
        * intros [[->|?]|(l1 & r1 & d1 & Hin & ?)]; [|auto|].
          -- right. exists lhs, rhs, d. split; [by left|done].
          -- right. exists l1, r1, d1. split; [by right|done].
        * intros [?|(l1 & r1 & d1 & [[= -> -> ->]|Hin]%elem_of_cons & H1)];
            [auto| |].
          -- left. left. congruence.
          -- right. exists l1, r1, d1. done.
      + split.
        * intros [?|(l1 & r1 & d1 & Hin & ?)]; [auto|].
          right. exists l1, r1, d1. split; [by right|done].
        * intros [?|(l1 & r1 & d1 & [[= -> -> ->]|Hin]%elem_of_cons & H1)];
            [auto|congruence|]. right. exists l1, r1, d1. done. }
  rewrite Hfold. split.
  - intros [?%elem_of_empty|(l1 & r1 & d1 & Hin & ?)]; [done|].
    exists l1, r1, d1. split; [by apply (elem_of_iter_set ord)|done].
  - intros (l1 & r1 & d1 & Hin & ?). right.
    exists l1, r1, d1. split; [by apply (elem_of_iter_set ord)|done].
Qed.
End goto_facts.

Section goto_total.
Context (ord : set_order) (g : grammar).
Implicit Types (items : gset item) (x : item).

(** [goto] returns the least closed set that holds the advanced items;
    it is empty exactly when no dot stands before the symbol. *)
Lemma goto_spec items (symbol : str) :
  ∃ s', goto ord items symbol g = Ok s' ∧
    (∀ x, advanced items symbol x → x ∈ s') ∧
    closed g s' ∧
    (items ⊆ all_items g → s' ⊆ all_items g) ∧
    (∀ X : gset item, (∀ x, advanced items symbol x → x ∈ X) → closed g X → s' ⊆ X) ∧
    (s' = ∅ ↔ symbol ∉ symbols_after_dot ord items).
Proof.
  unfold goto.
  set (next_items := foldl _ _ _).
  assert (∀ x, x ∈ next_items ↔ advanced items symbol x) as Hnext.
  { intros x. unfold next_items. rewrite advance_spec. unfold advanced. split.
    - intros [?%elem_of_empty|(l1 & r1 & d1 & Hin & ?)]; [done|].
      exists l1, r1, d1. split; [by apply (elem_of_iter_set ord)|done].
    - intros (l1 & r1 & d1 & Hin & ?). right.
      exists l1, r1, d1. split; [by apply (elem_of_iter_set ord)|done]. }
  assert (next_items = ∅ ↔ symbol ∉ symbols_after_dot ord items) as Hempty.
  { rewrite symbols_after_dot_spec. split.
    - intros Hn (l1 & r1 & d1 & Hin & Hs).
      assert ((l1, r1, S d1) ∈ next_items) as Hx.
      { apply Hnext. exists l1, r1, d1. done. }
      rewrite Hn in Hx. by apply elem_of_empty in Hx.
    - intros Hn. apply set_eq. intros x. rewrite Hnext.
      split; [|by intros ?%elem_of_empty].
      intros (l1 & r1 & d1 & Hin & Hs & _). destruct Hn. by exists l1, r1, d1. }
  destruct (decide (next_items = ∅)) as [Hn|Hn].
  - exists ∅. split_and!; [done| | |set_solver|set_solver|by rewrite <-Hempty].
    + intros x Hx%Hnext. by rewrite Hn in Hx.
    + intros x (? & ? & ? & ? & ? & ? & Hin & _). done.
  - destruct (closure_spec ord g next_items) as (cs & -> & Hsub & Hcl & Hup & Hleast).
    exists cs. split_and!; [done| |done| | |].
    + intros x Hx%Hnext. by apply Hsub.
    + intros Hitems x Hx. apply Hup in Hx. apply elem_of_union in Hx as [Hx|Hx]; [|done].
      apply Hnext in Hx as (l1 & r1 & d1 & Hin & Hs & ->).
      apply Hitems in Hin. apply elem_of_all_items in Hin as (prods & ? & ? & ?).
      apply elem_of_all_items. exists prods. split_and!; [done..|].
      apply lookup_lt_Some in Hs. lia.
    + intros X HX HclX. apply Hleast; [|done]. intros x Hx%Hnext. auto.
    + rewrite <-Hempty. split; [|done]. intros ->.
      apply set_choose_L in Hn as [x Hx]. apply Hsub in Hx. set_solver.
Qed.
End goto_total.

(** ** Counting item sets *)

Lemma subsets_bound `{Countable A} (U : gset A) : ∀ l : list (gset A),
  NoDup l → Forall (λ s, s ⊆ U) l → length l ≤ 2 ^ size U.
Proof.
  induction U as [|x U Hx IH] using set_ind_L; intros l Hnd Hsub.
  - rewrite size_empty. simpl.
    destruct l as [|a [|b l]]; simpl; [lia..|].
    exfalso. apply Forall_cons in Hsub as [Ha Hsub].
    apply Forall_cons in Hsub as [Hb _].
    apply NoDup_cons in Hnd as [Hab _]. apply Hab.
    assert (a = b) as -> by set_solver. by left.
  - rewrite size_union, size_singleton by set_solver.
    rewrite <-(filter_app_complement (λ s, x ∈ s) l), length_app.
    assert (length (filter (λ s, x ∉ s) l) ≤ 2 ^ size U) as H2.
    { apply IH; [by apply NoDup_filter|].
      apply Forall_forall. intros s [Hs Hin]%list_elem_of_filter.
      rewrite Forall_forall in Hsub. specialize (Hsub s Hin). set_solver. }
    assert (length (filter (λ s, x ∈ s) l) ≤ 2 ^ size U) as H1.
    { rewrite <-(length_fmap (λ s, s ∖ {[x]})). apply IH.
      - apply NoDup_fmap_2_strong; [|by apply NoDup_filter].
        intros s1 s2 [Hs1 _]%list_elem_of_filter [Hs2 _]%list_elem_of_filter Heq.
        apply set_eq. intros y. destruct (decide (y = x)) as [->|Hne]; [done|].
        assert (y ∈ s1 ∖ {[x]} ↔ y ∈ s2 ∖ {[x]}) as Hy by by rewrite Heq.
        set_solver.
      - apply Forall_forall. intros s' (s & -> & [Hs Hin]%list_elem_of_filter)%list_elem_of_fmap.
        rewrite Forall_forall in Hsub. specialize (Hsub s Hin). set_solver. }
    change (2 ^ (1 + size U)) with (2 * 2 ^ size U). lia.
Qed.

(** ** Rounds *)

Lemma steps_add {St R} (body : St → St + R) (a b : nat) (s : St) :
  steps body (a + b) s =
  match steps body a s with
  | inl s' => steps body b s'
  | inr r => inr r
  end.
Proof.
  revert s. induction a as [|a IH]; intros s; cbn [steps Nat.add]; [done|].
  destruct (body s); [apply IH|done].
Qed.

Lemma rounds_steps {St R} (body : St → St + R) (n : nat) (s : St) :
  rounds body n s = steps body (2 ^ n) s.
Proof.
  revert s. induction n as [|n IH]; intros s.
  - cbn. by destruct (body s).
  - cbn [rounds]. change (2 ^ S n) with (2 * 2 ^ n).
    replace (2 * 2 ^ n) with (2 ^ n + 2 ^ n) by lia.
    rewrite steps_add, IH. destruct (steps body (2 ^ n) s); [apply IH|done].
Qed.

(** ** The worklist *)

Section worklist.
Context (ord : set_order) (g : grammar).

Lemma reachable_items (s : gset item) : reachable ord g s → s ⊆ all_items g.
Proof.
  induction 1 as [start rhs prods rest s0 Hg Hcl|s symbol s' Hs IH Hsym Hgoto].
  - destruct (closure_spec ord g {[(start, rhs, 0)]}) as (cs & Hcs & _ & _ & Hup & _).
    rewrite Hcl in Hcs. injection Hcs as <-.
    intros x [Hx|Hx]%Hup%elem_of_union; [|done].
    apply elem_of_singleton in Hx as ->. apply elem_of_all_items.
    exists (rhs :: prods). rewrite Hg. split_and!; [by left|by left|lia].
  - destruct (goto_spec ord g s symbol) as (s1 & Hs1 & _ & _ & Hitems & _).
    rewrite Hgoto in Hs1. injection Hs1 as <-. auto.
Qed.

Lemma lr0_inv_weaken (s0 : gset item) (q : nat) (P P' : nat → str → Prop)
    (w : lr0) :
  (∀ i symbol, P' i symbol → i < length (states w)) →
  (∀ i s symbol, states w !! i = Some s → symbol ∈ symbols_after_dot ord s →
     P' i symbol → P i symbol) →
  lr0_inv ord g s0 q P w → lr0_inv ord g s0 q P' w.
Proof. intros Hb' HP [? ? ? ? ? ? ? Hb Hc]. split; try done; eauto. Qed.

Lemma lr0_inv_NoDup (s0 : gset item) (q : nat) (P : nat → str → Prop)
    (w : lr0) : lr0_inv ord g s0 q P w → NoDup (states w).
Proof.
  intros Hinv. apply NoDup_alt. intros i j s Hi Hj.
  apply (inv_idx _ _ _ _ _ _ Hinv) in Hi, Hj. congruence.
Qed.

Lemma visit_symbol_inv (s0 : gset item) (q : nat) (P : nat → str → Prop)
    (w : lr0) (state : gset item) (state_index : nat) (symbol : str) :
  lr0_inv ord g s0 q P w →
  states w !! state_index = Some state →
  symbol ∈ symbols_after_dot ord state →
  ∃ w', visit_symbol ord g state state_index w symbol = Ok w' ∧
    lr0_inv ord g s0 q (λ i s, P i s ∨ (i = state_index ∧ s = symbol)) w' ∧
    states w `prefix_of` states w'.
Proof.
  intros Hinv Hstate Hsym.
  destruct (goto_spec ord g state symbol) as (new_state & Hgoto & _).
  unfold visit_symbol. rewrite Hgoto. cbn [mbind res_bind].
  assert (reachable ord g new_state) as Hreach.
  { eapply reachable_goto; [|done..]. eapply inv_reach; [done|].
    by eapply list_elem_of_lookup_2. }
  destruct Hinv as [Hqueue Hq Hidx Hinit Hre Hkeys Hsound Hbound Hcomplete].
  assert (state_index < length (states w)) as Hsi by by eapply lookup_lt_Some.
  destruct (state_indices w !! new_state) as [new_index|] eqn:Hnew.
  - eexists. split; [done|]. split; [|done]. split; cbn; try done.
    + by apply dict_set_NoDup.
    + intros i sym j. rewrite dict_get_set. case_decide as Heq.
      * injection Heq as <- <-. intros [= <-].
        exists state, new_state. split_and!; [done..|]. by apply Hidx.
      * apply Hsound.
    + intros i sym [HP|[-> _]]; eauto.
    + intros i s sym Hi Hs HP. rewrite dict_get_set. case_decide as Heq; [done|].
      destruct HP as [HP|[-> ->]]; [eauto|done].
  - assert (new_state ∉ states w) as Hfresh.
    { intros [i Hi]%list_elem_of_lookup_1. apply Hidx in Hi. congruence. }
    eexists. split; [done|]. split; [|by apply prefix_app_r].
    rewrite length_app. cbn [length]. replace (length (states w) + 1 - 1) with (length (states w)) by lia.
    split; cbn.
    + rewrite drop_app_le by done. by rewrite Hqueue.
    + rewrite length_app. lia.
    + intros s i. rewrite lookup_insert. case_decide as Heq.
      * subst s. split.
        -- intros [= <-]. by rewrite lookup_app_r, Nat.sub_diag.
        -- intros Hi. f_equal. destruct (decide (i < length (states w))) as [Hlt|Hge].
           ++ rewrite lookup_app_l in Hi by done. destruct Hfresh.
              by eapply list_elem_of_lookup_2.
           ++ apply lookup_lt_Some in Hi. rewrite length_app in Hi. simpl in Hi. lia.
      * rewrite Hidx. split.
        -- intros Hi. by apply lookup_app_l_Some.
        -- intros Hi. destruct (decide (i < length (states w))) as [Hlt|Hge].
           ++ by rewrite lookup_app_l in Hi.
           ++ rewrite lookup_app_r in Hi by lia.
              apply list_lookup_singleton_Some in Hi as [_ ?]. done.
    + by apply lookup_app_l_Some.
    + intros s [Hs|Hs%list_elem_of_singleton]%elem_of_app; [auto|by subst].
    + by apply dict_set_NoDup.
    + intros i sym j. rewrite dict_get_set. case_decide as Heq.
      * injection Heq as <- <-. intros [= <-].
        exists state, new_state. split_and!; [by apply lookup_app_l_Some|done..|].
        by rewrite lookup_app_r, Nat.sub_diag.
      * intros (s & s' & ? & ? & ? & ?)%Hsound.
        exists s, s'. split_and!; [by apply lookup_app_l_Some|done..|by apply lookup_app_l_Some].
    + intros i sym [HP%Hbound|[-> _]]; rewrite length_app; lia.
    + intros i s sym Hi Hs HP. rewrite dict_get_set. case_decide as Heq; [done|].
      destruct HP as [HP|[-> ->]]; [|done].
      rewrite lookup_app_l in Hi by eauto. eauto.
Qed.

Lemma visit_all_inv (s0 : gset item) (q : nat) (state : gset item)
    (state_index : nat) (l : list str) :
  ∀ (P : nat → str → Prop) (w : lr0),
  lr0_inv ord g s0 q P w →
  states w !! state_index = Some state →
  Forall (λ symbol, symbol ∈ symbols_after_dot ord state) l →
  ∃ w', for_each (visit_symbol ord g state state_index) w l = Ok w' ∧
    lr0_inv ord g s0 q (λ i s, P i s ∨ (i = state_index ∧ s ∈ l)) w' ∧
    states w `prefix_of` states w'.
Proof.
  induction l as [|symbol l IH]; intros P w Hinv Hstate Hl; cbn [for_each].
  - exists w. split_and!; [done| |done].
    eapply lr0_inv_weaken; [| |done].
    + intros i sym [HP|[_ Hin]]; [by eapply inv_bound|by apply elem_of_nil in Hin].
    + intros i s sym _ _ [HP|[_ Hin]]; [done|by apply elem_of_nil in Hin].
  - apply Forall_cons in Hl as [Hsym Hl].
    destruct (visit_symbol_inv s0 q P w state state_index symbol)
      as (w1 & -> & Hinv1 & Hpre1); [done..|].
    cbn [mbind res_bind].
    destruct (IH _ w1 Hinv1) as (w' & -> & Hinv' & Hpre'); [|done|].
    { by eapply prefix_lookup_Some. }
    exists w'. split_and!; [done| |by etrans].
    eapply lr0_inv_weaken; [| |done].
    + intros i sym HP.
      assert (state_index < length (states w')) as Hsi.
      { apply (lookup_lt_Some _ _ state).
        eapply prefix_lookup_Some; [exact Hstate|by etrans]. }
      destruct HP as [HP|[-> _]]; [|done].
      eapply inv_bound; [done|]. left. by left.
    + intros i s sym _ _ [HP|[-> [->|Hin]%elem_of_cons]]; auto.
Qed.

Lemma lr0_round_inv (s0 : gset item) (q : nat) (w : lr0) :
  lr0_inv ord g s0 q (λ i _, i < q) w →
  (lr0_round ord g w = inr (Ok (states w, transitions w)) ∧
     q = length (states w)) ∨
  (∃ w', lr0_round ord g w = inl w' ∧
     lr0_inv ord g s0 (S q) (λ i _, i < S q) w').
Proof.
  intros Hinv. unfold lr0_round.
  destruct (queue w) as [|state queue'] eqn:Hqueue.
  - left. split; [done|].
    rewrite (inv_queue _ _ _ _ _ _ Hinv) in Hqueue.
    apply drop_nil_inv in Hqueue. pose proof (inv_q _ _ _ _ _ _ Hinv). lia.
  - right. rewrite (inv_queue _ _ _ _ _ _ Hinv) in Hqueue.
    assert (states w !! q = Some state) as Hstate.
    { pose proof (lookup_drop (states w) q 0) as Hd.
      rewrite Hqueue, Nat.add_0_r in Hd. done. }
    assert (queue' = drop (S q) (states w)) as Hqueue'.
    { pose proof (drop_drop (states w) 1 q) as Hd.
      rewrite Hqueue, Nat.add_1_r in Hd. done. }
    cbn [state_indices].
    rewrite (proj2 (inv_idx _ _ _ _ _ _ Hinv state q) Hstate).
    set (w1 := {| states := states w; state_indices := state_indices w;
                  transitions := transitions w; queue := queue' |}).
    assert (lr0_inv ord g s0 (S q) (λ i _, i < q) w1) as Hinv1.
    { destruct Hinv as [? ? ? ? ? ? ? Hb Hc]. split; try done.
      cbn. by eapply lookup_lt_Some. }
    destruct (visit_all_inv s0 (S q) state q
                (iter_set ord (symbols_after_dot ord state)) _ w1 Hinv1)
      as (w' & -> & Hinv' & Hpre); [done| |].
    { apply Forall_forall. intros sym. by rewrite elem_of_iter_set. }
    exists w'. split; [done|].
    eapply lr0_inv_weaken; [| |done].
    + intros i _ Hi. pose proof (inv_q _ _ _ _ _ _ Hinv'). cbn in *. lia.
    + intros i s sym Hi Hs Hlt. cbn beta.
      destruct (decide (i < q)) as [|Hge]; [by left|]. right.
      assert (i = q) as -> by lia. split; [done|].
      apply elem_of_iter_set.
      assert (states w' !! q = Some state) as Hq'.
      { eapply prefix_lookup_Some; [|done]. done. }
      congruence.
Qed.

Lemma lr0_inv_length (s0 : gset item) (q : nat) (P : nat → str → Prop)
    (w : lr0) :
  lr0_inv ord g s0 q P w → length (states w) ≤ 2 ^ size (all_items g).
Proof.
  intros Hinv. apply subsets_bound; [by eapply lr0_inv_NoDup|].
  apply Forall_forall. intros s Hs. apply reachable_items.
  by eapply inv_reach.
Qed.

Lemma lr0_steps (s0 : gset item) (k : nat) : ∀ (q : nat) (w : lr0),
  lr0_inv ord g s0 q (λ i _, i < q) w →
  2 ^ size (all_items g) - q < k →
  ∃ w', steps (lr0_round ord g) k w = inr (Ok (states w', transitions w')) ∧
    lr0_inv ord g s0 (length (states w')) (λ i _, i < length (states w')) w'.
Proof.
  induction k as [|k IH]; intros q w Hinv Hk; [lia|].
  cbn [steps]. destruct (lr0_round_inv s0 q w Hinv) as [[-> Hq]|(w' & -> & Hinv')].
  - exists w. split; [done|]. by rewrite <-Hq.
  - apply (IH (S q)); [done|].
    pose proof (lr0_inv_length _ _ _ _ Hinv'). pose proof (inv_q _ _ _ _ _ _ Hinv'). lia.
Qed.
End worklist.

(** The loop ends with every state taken from the queue and the
    invariant in force. *)
Lemma generate_lr0_items_inv (ord : set_order) (g : grammar)
    (start : str) (rhs : list str) (prods : list (list str))
    (rest : list (str * list (list str))) :
  g = (start, rhs :: prods) :: rest →
  ∃ w s0,
    generate_lr0_items ord g = Ok (states w, transitions w) ∧
    closure ord {[(start, rhs, 0)]} g = Ok s0 ∧
    lr0_inv ord g s0 (length (states w)) (λ i _, i < length (states w)) w.
Proof.
  intros Hg.
  destruct (closure_spec ord g {[(start, rhs, 0)]}) as (s0 & Hs0 & _).
  set (w0 := {| states := [s0]; state_indices := {[s0 := 0]};
                transitions := []; queue := [s0] |}).
  assert (lr0_inv ord g s0 0 (λ i _, i < 0) w0) as Hinv0.
  { split; cbn; try done.
    - lia.
    - intros s i. rewrite lookup_singleton_Some, list_lookup_singleton_Some. naive_solver.
    - intros s ->%list_elem_of_singleton. by eapply reachable_initial.
    - apply NoDup_nil_2.
    - intros; lia.
    - intros; lia. }
  destruct (lr0_steps ord g s0 (2 ^ S (size (all_items g))) 0 w0 Hinv0)
    as (w & Hsteps & Hinv).
  { change (2 ^ S (size (all_items g))) with (2 * 2 ^ size (all_items g)).
    pose proof (Nat.pow_nonzero 2 (size (all_items g))). lia. }
  exists w, s0. split_and!; [|done..].
  unfold generate_lr0_items. rewrite Hg. cbn [index lookup list_lookup mbind res_bind].
  rewrite <-Hg, Hs0. cbn [mbind res_bind]. fold w0.
  by rewrite rounds_steps, Hsteps.
Qed.

(** With every state taken from the queue, each state has its transitions
    and their targets among the states. *)
Lemma lr0_inv_goto (ord : set_order) (g : grammar) (s0 : gset item) (w : lr0)
    (i : nat) (s s' : gset item) (symbol : str) :
  lr0_inv ord g s0 (length (states w)) (λ i _, i < length (states w)) w →
  states w !! i = Some s → symbol ∈ symbols_after_dot ord s →
  goto ord s symbol g = Ok s' →
  ∃ j, dict_get (transitions w) (i, symbol) = Some j ∧ states w !! j = Some s'.
Proof.
  intros Hinv Hi Hsym Hgoto.
  destruct (inv_complete _ _ _ _ _ _ Hinv i s symbol) as [j Hj]; [done..| |].
  { by eapply lookup_lt_Some. }
  exists j. split; [done|].
  apply (inv_sound _ _ _ _ _ _ Hinv) in Hj as (s1 & s1' & Hi1 & _ & Hgoto1 & Hj).
  rewrite Hi in Hi1. injection Hi1 as <-.
  rewrite Hgoto in Hgoto1. by injection Hgoto1 as <-.
Qed.

(** What [generate_lr0_items] returns, in terms of the functions it calls. *)
Lemma generate_lr0_items_calls (ord : set_order) (g : grammar)
    (start : str) (rhs : list str) (prods : list (list str))
    (rest : list (str * list (list str))) :
  g = (start, rhs :: prods) :: rest →
  ∃ sts trs s0,
    generate_lr0_items ord g = Ok (sts, trs) ∧
    closure ord {[(start, rhs, 0)]} g = Ok s0 ∧ sts !! 0 = Some s0 ∧
    (∀ s, s ∈ sts ↔ reachable ord g s) ∧
    (∀ i j s, sts !! i = Some s → sts !! j = Some s → i = j) ∧
    (∀ i symbol j1 j2,
       (i, symbol, j1) ∈ trs → (i, symbol, j2) ∈ trs → j1 = j2) ∧
    (∀ i symbol j,
       (i, symbol, j) ∈ trs ↔
       ∃ s s', sts !! i = Some s ∧ symbol ∈ symbols_after_dot ord s ∧
         goto ord s symbol g = Ok s' ∧ sts !! j = Some s').
Proof.
  intros Hg.
  destruct (generate_lr0_items_inv ord g start rhs prods rest Hg)
    as (w & s0 & Hgen & Hs0 & Hinv).
  exists (states w), (transitions w), s0.
  assert (∀ i symbol j, (i, symbol, j) ∈ transitions w ↔
            dict_get (transitions w) (i, symbol) = Some j) as Hin.
  { intros i symbol j. split.
    - apply dict_get_NoDup. by eapply inv_keys.
    - apply dict_get_Some_elem. }
  split_and!; [done|done|by eapply inv_init| | | |].
  - intros s. split; [by eapply inv_reach|].
    induction 1 as [start' rhs' prods' rest' s0' Hg' Hcl|s symbol s' Hs IH Hsym Hgoto].
    + rewrite Hg in Hg'. injection Hg' as <- <- <- <-.
      rewrite Hs0 in Hcl. injection Hcl as <-.
      eapply list_elem_of_lookup_2. by eapply inv_init.
    + apply list_elem_of_lookup_1 in IH as [i Hi].
      destruct (lr0_inv_goto ord g s0 w i s s' symbol) as (j & _ & Hj); [done..|].
      by eapply list_elem_of_lookup_2.
  - intros i j s Hi Hj. apply (inv_idx _ _ _ _ _ _ Hinv) in Hi, Hj. congruence.
  - intros i symbol j1 j2 H1%Hin H2%Hin. congruence.
  - intros i symbol j. rewrite Hin. split; [by eapply inv_sound|].
    intros (s & s' & Hi & Hsym & Hgoto & Hj).
    destruct (lr0_inv_goto ord g s0 w i s s' symbol) as (j' & -> & Hj'); [done..|].
    f_equal. apply (inv_idx _ _ _ _ _ _ Hinv) in Hj, Hj'. congruence.
Qed.

(** The functions that the builder calls compute what the specification
    names. *)
Lemma is_closure_unique (g : grammar) (items cs1 cs2 : gset item) :
  is_closure g items cs1 → is_closure g items cs2 → cs1 = cs2.
Proof.
  intros (Hsub1 & Hcl1 & Hleast1) (Hsub2 & Hcl2 & Hleast2).
  apply (anti_symm (⊆)); [by apply Hleast1|by apply Hleast2].
Qed.

Lemma closure_is_closure (ord : set_order) (g : grammar) (items cs : gset item) :
  closure ord items g = Ok cs ↔ is_closure g items cs.
Proof.
  destruct (closure_spec ord g items) as (cs0 & Hcs0 & Hsub & Hcl & _ & Hleast).
  assert (is_closure g items cs0) as H0 by done.
  rewrite Hcs0. split.
  - by intros [= <-].
  - intros Hcs. f_equal. by eapply is_closure_unique.
Qed.

Lemma is_goto_unique (g : grammar) (s : gset item) (symbol : str)
    (s1 s2 : gset item) :
  is_goto g s symbol s1 → is_goto g s symbol s2 → s1 = s2.
Proof.
  intros (Hadv1 & Hcl1 & Hleast1) (Hadv2 & Hcl2 & Hleast2).
  apply (anti_symm (⊆)); [by apply Hleast1|by apply Hleast2].
Qed.

Lemma goto_is_goto (ord : set_order) (g : grammar) (s : gset item) (symbol : str)
    (s' : gset item) :
  goto ord s symbol g = Ok s' ↔ is_goto g s symbol s'.
Proof.
  destruct (goto_spec ord g s symbol) as (s0 & Hs0 & Hadv & Hcl & _ & Hleast & _).
  assert (is_goto g s symbol s0) as H0 by done.
  rewrite Hs0. split.
  - by intros [= <-].
  - intros Hs'. f_equal. by eapply is_goto_unique.
Qed.

Lemma reachable_lr0_state (ord : set_order) (g : grammar) (s : gset item) :
  reachable ord g s ↔ lr0_state g s.
Proof.
  split.
  - induction 1 as [start rhs prods rest s0 Hg Hcl|s symbol s' Hs IH Hsym Hgoto].
    + eapply lr0_state_initial; [done|]. by apply (closure_is_closure ord).
    + eapply lr0_state_goto; [done| |].
      * by apply (symbols_after_dot_spec ord).
      * by apply (goto_is_goto ord).
  - induction 1 as [start rhs prods rest s0 Hg Hcl|s symbol s' Hs IH Hsym Hgoto].
    + eapply reachable_initial; [done|]. by apply closure_is_closure.
    + eapply reachable_goto; [done| |].
      * by apply symbols_after_dot_spec.
      * by apply goto_is_goto.
Qed.

(** C6. On a grammar whose first nonterminal has an alternative (every
    augmented grammar is one), [generate_lr0_items] returns states and
    transitions such that: state 0 is the closure of the initial item; the
    states are exactly the states of the LR(0) automaton, each reachable
    one being in the list; no item set has two state ids; no pair (state,
    symbol) has two targets; and the transitions are exactly the targets of
    the states on the symbols right after their dots. Closure, target and
    reachability are those of the specification, not the functions of the
    code. *)
Theorem generate_lr0_items_spec (ord : set_order) (g : grammar)
    (start : str) (rhs : list str) (prods : list (list str))
    (rest : list (str * list (list str))) :
  g = (start, rhs :: prods) :: rest →
  ∃ sts trs s0,
    generate_lr0_items ord g = Ok (sts, trs) ∧
    is_closure g {[(start, rhs, 0)]} s0 ∧ sts !! 0 = Some s0 ∧
    (∀ s, s ∈ sts ↔ lr0_state g s) ∧
    (∀ i j s, sts !! i = Some s → sts !! j = Some s → i = j) ∧
    (∀ i symbol j1 j2,
       (i, symbol, j1) ∈ trs → (i, symbol, j2) ∈ trs → j1 = j2) ∧
    (∀ i symbol j,
       (i, symbol, j) ∈ trs ↔
       ∃ s s', sts !! i = Some s ∧ after_dot s symbol ∧
         is_goto g s symbol s' ∧ sts !! j = Some s').
Proof.
  intros Hg.
  destruct (generate_lr0_items_calls ord g start rhs prods rest Hg)
    as (sts & trs & s0 & Hgen & Hs0 & H0 & Hreach & Hinj & Hdet & Htrs).
  exists sts, trs, s0. split_and!; [done| |done| |done|done|].
  - by apply (closure_is_closure ord).
  - intros s. by rewrite Hreach, reachable_lr0_state.
  - intros i symbol j. rewrite Htrs. split.
    + intros (s & s' & Hi & Hsym & Hgoto & Hj). exists s, s'.
      split_and!; [done| |by apply (goto_is_goto ord)|done].
      by apply (symbols_after_dot_spec ord).
    + intros (s & s' & Hi & Hsym & Hgoto & Hj). exists s, s'.
      split_and!; [done| |by apply goto_is_goto|done].
      by apply symbols_after_dot_spec.
Qed.

Lemma generate_lr0_items_spec_witness :
  let g := [(S_prime, [[lit "S"]]); (lit "S", [[lit "a"]])] in
  ∃ sts trs s0,
    generate_lr0_items elements_order g = Ok (sts, trs) ∧
    is_closure g {[(S_prime, [lit "S"], 0)]} s0 ∧
    sts !! 0 = Some s0 ∧
    (∀ s, s ∈ sts ↔ lr0_state g s) ∧
    (∀ i j s, sts !! i = Some s → sts !! j = Some s → i = j) ∧
    (∀ i symbol j1 j2,
       (i, symbol, j1) ∈ trs → (i, symbol, j2) ∈ trs → j1 = j2) ∧
    (∀ i symbol j,
       (i, symbol, j) ∈ trs ↔
       ∃ s s', sts !! i = Some s ∧ after_dot s symbol ∧
         is_goto g s symbol s' ∧ sts !! j = Some s').
Proof.
  exact (generate_lr0_items_spec elements_order
           [(S_prime, [[lit "S"]]); (lit "S", [[lit "a"]])]
           S_prime [lit "S"] [] [(lit "S", [[lit "a"]])] eq_refl).
Defined.

(** ** Writing table cells *)

Section writes.
Context {V : Type}.
Implicit Types (t : gmap nat (gmap str V)) (touch : nat → str → V → Prop).

Lemma writes_refl t touch : (∀ s x v, ¬ touch s x v) → writes touch t t.
Proof. intros Hno. split; [done|]. intros s x. right. split; [apply Hno|done]. Qed.

Lemma writes_trans t1 t2 t3 touch1 touch2 :
  writes touch1 t1 t2 → writes touch2 t2 t3 →
  writes (λ s x v, touch1 s x v ∨ touch2 s x v) t1 t3.
Proof.
  intros [Hrows1 Hcells1] [Hrows2 Hcells2]. split.
  - intros s. by rewrite Hrows2, Hrows1.
  - intros s x. destruct (Hcells2 s x) as [(v & Hv & Hc)|[Hno2 Hc2]].
    + left. exists v. auto.
    + destruct (Hcells1 s x) as [(v & Hv & Hc)|[Hno1 Hc1]].
      * left. exists v. split; [auto|congruence].
      * right. split; [|congruence]. intros v [?|?]; [by eapply Hno1|by eapply Hno2].
Qed.

Lemma writes_weaken t t' touch touch' :
  (∀ s x v, touch s x v ↔ touch' s x v) → writes touch t t' → writes touch' t t'.
Proof.
  intros Heq [Hrows Hcells]. split; [done|]. intros s x.
  destruct (Hcells s x) as [(v & Hv & Hc)|[Hno Hc]].
  - left. exists v. split; [by apply Heq|done].
  - right. split; [|done]. intros v Hv. apply (Hno v). by apply Heq.
Qed.

Lemma set_cell_writes t (state : nat) (symbol : str) (v : V) :
  is_Some (t !! state) →
  ∃ t', set_cell t state symbol v = Ok t' ∧
    writes (λ s x v', s = state ∧ x = symbol ∧ v' = v) t t'.
Proof.
  intros [row Hrow]. unfold set_cell. rewrite Hrow. eexists. split; [done|].
  split.
  - intros s. rewrite lookup_insert. case_decide; [subst; by rewrite Hrow|done].
  - intros s x. unfold cell. rewrite lookup_insert.
    destruct (decide (state = s)) as [->|Hs].
    + cbn [mbind option_bind]. rewrite lookup_insert.
      destruct (decide (symbol = x)) as [->|Hx].
      * left. by exists v.
      * right. split; [naive_solver|]. by rewrite Hrow.
    + right. split; [naive_solver|done].
Qed.

Lemma for_each_writes {A} (body : gmap nat (gmap str V) → A → res (gmap nat (gmap str V)))
    (touch : A → nat → str → V → Prop) (rows : nat → Prop) (l : list A) :
  (∀ t a, a ∈ l → (∀ s, rows s → is_Some (t !! s)) →
      ∃ t', body t a = Ok t' ∧ writes (touch a) t t') →
  ∀ t, (∀ s, rows s → is_Some (t !! s)) →
    ∃ t', for_each body t l = Ok t' ∧
      writes (λ s x v, ∃ a, a ∈ l ∧ touch a s x v) t t'.
Proof.
  induction l as [|a l IH]; intros Hbody t Hrows; cbn [for_each].
  - exists t. split; [done|]. apply writes_refl.
    intros s x v (a & Ha & _). by apply elem_of_nil in Ha.
  - destruct (Hbody t a) as (t1 & -> & Hw1); [by left|done|]. cbn [mbind res_bind].
    destruct IH with (t := t1) as (t' & -> & Hw').
    { intros t0 a0 Ha0. apply Hbody. by right. }
    { intros s Hs. apply Hw1. auto. }
    exists t'. split; [done|].
    eapply writes_weaken; [|by eapply writes_trans].
    intros s x v. cbn beta. split.
    + intros [?|(a0 & ? & ?)]; [exists a; split; [by left|done]|].
      exists a0. split; [by right|done].
    + intros (a0 & [->|?]%elem_of_cons & ?); [by left|]. right. by exists a0.
Qed.
End writes.

Lemma empty_rows_lookup {V} (n s : nat) :
  (empty_rows n : gmap nat (gmap str V)) !! s = if decide (s < n) then Some ∅ else None.
Proof.
  unfold empty_rows. case_decide as Hs.
  - apply elem_of_list_to_map_1.
    + rewrite <-list_fmap_compose. cbn. rewrite list_fmap_id. apply NoDup_seq.
    + apply list_elem_of_fmap. exists s. split; [done|]. apply elem_of_seq. lia.
  - apply not_elem_of_list_to_map_1. rewrite <-list_fmap_compose. cbn.
    rewrite list_fmap_id, elem_of_seq. lia.
Qed.

Lemma empty_rows_cell {V} (n s : nat) (x : str) :
  cell (empty_rows n : gmap nat (gmap str V)) s x = None.
Proof.
  unfold cell. rewrite empty_rows_lookup. case_decide; [|done].
  cbn. apply lookup_empty.
Qed.

Lemma elem_of_enumerate {A} (l : list A) (i : nat) (x : A) :
  (i, x) ∈ enumerate l ↔ l !! i = Some x.
Proof.
  unfold enumerate. rewrite elem_of_lookup_imap. split.
  - by intros (j & y & [= -> ->] & ?).
  - intros. by exists i, x.
Qed.

(** ** The two loops of the builder *)

Section table_facts.
Context (ord : set_order).

Lemma write_item_writes (follow : gmap str (gset str)) (state : nat)
    (pt : gmap nat (gmap str str)) (it : item) :
  is_Some (pt !! state) →
  (it.2 = length it.1.2 → it.1.1 ≠ S_prime → is_Some (follow !! it.1.1)) →
  ∃ pt', write_item ord follow state pt it = Ok pt' ∧
    writes (λ s x a, s = state ∧ item_action follow it x a) pt pt'.
Proof.
  destruct it as [[lhs rhs] dot_pos]. cbn [fst snd]. intros Hrow Hfollow.
  unfold write_item, item_action.
  destruct (decide (dot_pos = length rhs)) as [Hd|Hd].
  - destruct (decide (lhs = S_prime)) as [Hl|Hl].
    + destruct (set_cell_writes pt state dollar accept_action Hrow) as (pt' & -> & Hw).
      exists pt'. split; [done|]. eapply writes_weaken; [|done].
      intros s x a. cbn beta. naive_solver.
    + destruct (Hfollow Hd Hl) as [terminals Hts]. rewrite Hts.
      destruct (for_each_writes
        (λ parsing_table terminal,
           set_cell parsing_table state terminal (reduce_action lhs rhs))
        (λ terminal s x a, s = state ∧ x = terminal ∧ a = reduce_action lhs rhs)
        (λ s, s = state) (iter_set ord terminals)) with (t := pt)
        as (pt' & -> & Hw).
      { intros t terminal _ Ht. apply set_cell_writes. by apply Ht. }
      { by intros s ->. }
      exists pt'. split; [done|]. eapply writes_weaken; [|done].
      intros s x a. cbn beta. split.
      * intros (terminal & Hin%elem_of_iter_set & -> & -> & ->).
        split_and!; [done..|]. right. split; [done|]. by exists terminals.
      * intros (-> & _ & [[? _]|(_ & ts & Hts' & Hin & ->)]); [done|].
        injection Hts' as <-.
        exists x. by rewrite elem_of_iter_set.
  - exists pt. split; [done|]. apply writes_refl. naive_solver.
Qed.

Lemma write_items_writes (follow : gmap str (gset str))
    (states : list (gset item)) (pt : gmap nat (gmap str str)) :
  (∀ s, s < length states → is_Some (pt !! s)) →
  (∀ items lhs rhs, items ∈ states → (lhs, rhs, length rhs) ∈ items →
     lhs ≠ S_prime → is_Some (follow !! lhs)) →
  ∃ pt',
    for_each (λ parsing_table '(state, items),
        for_each (write_item ord follow state) parsing_table (iter_set ord items))
      pt (enumerate states) = Ok pt' ∧
    writes (λ s x a, ∃ items, states !! s = Some items ∧
              reduce_candidate follow items x a) pt pt'.
Proof.
  intros Hrows Hfollow.
  destruct (for_each_writes
    (λ parsing_table '(state, items),
        for_each (write_item ord follow state) parsing_table (iter_set ord items))
    (λ '(state, items) s x a, s = state ∧ reduce_candidate follow items x a)
    (λ s, s < length states) (enumerate states)) with (t := pt)
    as (pt' & Hpt' & Hw); [|done|].
  - intros t [state items] Hin%elem_of_enumerate Ht.
    destruct (for_each_writes (write_item ord follow state)
      (λ it s x a, s = state ∧ item_action follow it x a)
      (λ s, s = state) (iter_set ord items)) with (t := t) as (t' & -> & Hw).
    { intros t0 [[lhs rhs] d] Hit%elem_of_iter_set Ht0.
      apply write_item_writes; [by apply Ht0|]. cbn [fst snd]. intros -> Hl.
      eapply Hfollow; [|done..]. by eapply list_elem_of_lookup_2. }
    { intros s ->. apply Ht. by eapply lookup_lt_Some. }
    exists t'. split; [done|]. eapply writes_weaken; [|done].
    intros s x a. cbn beta. unfold reduce_candidate. split.
    + intros (it & Hit%elem_of_iter_set & -> & ?). eauto.
    + intros (-> & it & Hit & ?). exists it. by rewrite elem_of_iter_set.
  - exists pt'. split; [done|]. eapply writes_weaken; [|done].
    intros s x a. cbn beta. split.
    + intros ([state items] & Hin%elem_of_enumerate & -> & ?). eauto.
    + intros (items & Hs & ?). exists (s, items). by rewrite elem_of_enumerate.
Qed.

Lemma write_transitions_writes (g : grammar) (n : nat)
    (transitions : list (nat * str * nat)) :
  ∀ (pt : gmap nat (gmap str str)) (gt : gmap nat (gmap str nat)),
  (∀ s, s < n → is_Some (pt !! s)) →
  (∀ s, s < n → is_Some (gt !! s)) →
  (∀ i symbol j, (i, symbol, j) ∈ transitions → i < n) →
  ∃ pt' gt',
    for_each (write_transition g) (pt, gt) transitions = Ok (pt', gt') ∧
    writes (λ s x a, ∃ j, (s, x, j) ∈ transitions ∧ dict_mem g x = false ∧
              a = shift_action j) pt pt' ∧
    writes (λ s x j, (s, x, j) ∈ transitions ∧ dict_mem g x = true) gt gt'.
Proof.
  induction transitions as [|[[state symbol] next_state] trs IH];
    intros pt gt Hpt Hgt Hlt; cbn [for_each].
  - exists pt, gt. split_and!; [done|apply writes_refl|apply writes_refl].
    + intros s x a (j & Hin & _). by apply elem_of_nil in Hin.
    + intros s x j [Hin _]. by apply elem_of_nil in Hin.
  - assert (state < n) as Hstate by (eapply Hlt; by left).
    assert (∀ i symbol j, (i, symbol, j) ∈ trs → i < n) as Hlt'.
    { intros i sym j Hin. eapply Hlt. by right. }
    assert (write_transition g (pt, gt) (state, symbol, next_state) =
            if dict_mem g symbol
            then goto_table ← set_cell gt state symbol next_state; Ok (pt, goto_table)
            else parsing_table ← set_cell pt state symbol (shift_action next_state);
                 Ok (parsing_table, gt)) as -> by done.
    destruct (dict_mem g symbol) eqn:Hmem.
    + destruct (set_cell_writes gt state symbol next_state) as (gt1 & -> & Hw1); [auto|].
      cbn [mbind res_bind].
      destruct (IH pt gt1) as (pt' & gt' & -> & Hwp & Hwg); [done| |done|].
      { intros s Hs. apply Hw1. auto. }
      exists pt', gt'. split_and!; [done| |].
      * eapply writes_weaken; [|done]. intros s x a. cbn beta. split.
        -- intros (j & Hin & ?). exists j. split; [by right|done].
        -- intros (j & [[= -> -> ->]|Hin]%elem_of_cons & Hx & ?); [congruence|eauto].
      * eapply writes_weaken; [|by eapply writes_trans]. intros s x j. cbn beta. split.
        -- intros [(-> & -> & ->)|[Hin ?]]; [split; [by left|done]|].
           split; [by right|done].
        -- intros [[[= -> -> ->]|Hin]%elem_of_cons Hx]; [by left|by right].
    + destruct (set_cell_writes pt state symbol (shift_action next_state))
        as (pt1 & -> & Hw1); [auto|].
      cbn [mbind res_bind].
      destruct (IH pt1 gt) as (pt' & gt' & -> & Hwp & Hwg); [|done|done|].
      { intros s Hs. apply Hw1. auto. }
      exists pt', gt'. split_and!; [done| |].
      * eapply writes_weaken; [|by eapply writes_trans]. intros s x a. cbn beta. split.
        -- intros [(-> & -> & ->)|(j & Hin & ?)].
           ++ exists next_state. split; [by left|done].
           ++ exists j. split; [by right|done].
        -- intros (j & [[= -> -> ->]|Hin]%elem_of_cons & Hx & ->); [by left|].
           right. eauto.
      * eapply writes_weaken; [|done]. intros s x j. cbn beta. split.
        -- intros [Hin ?]. split; [by right|done].
        -- intros [[[= -> -> ->]|Hin]%elem_of_cons Hx]; [congruence|done].
Qed.
End table_facts.

Lemma shift_candidate_Some (transitions : list (nat * str * nat)) (g : grammar)
    (state : nat) (terminal : str) (a : str) :
  NoDup transitions.*1 →
  shift_candidate transitions g state terminal = Some a ↔
  ∃ j, (state, terminal, j) ∈ transitions ∧ dict_mem g terminal = false ∧
    a = shift_action j.
Proof.
  intros Hnd. unfold shift_candidate. destruct (dict_mem g terminal).
  - split; [done|]. by intros (? & _ & ? & _).
  - rewrite fmap_Some. split.
    + intros (j & Hj%dict_get_Some_elem & ->). eauto.
    + intros (j & Hj & _ & ->). exists j. split; [|done]. by apply dict_get_NoDup.
Qed.

(** The builder returns; after its first loop the cells are the shifts
    of the transitions, and its second loop writes reduce and accept
    actions over them. *)
Lemma generate_slr1_parsing_table_writes (ord : set_order)
    (states : list (gset item)) (transitions : list (nat * str * nat))
    (g : grammar) (first follow : gmap str (gset str)) :
  NoDup transitions.*1 →
  (∀ i symbol j, (i, symbol, j) ∈ transitions → i < length states) →
  (∀ items lhs rhs, items ∈ states → (lhs, rhs, length rhs) ∈ items →
     lhs ≠ S_prime → is_Some (follow !! lhs)) →
  ∃ shifts parsing_table goto_table,
    generate_slr1_parsing_table ord states transitions g first follow
      = Ok (parsing_table, goto_table) ∧
    (∀ state terminal,
       cell shifts state terminal = shift_candidate transitions g state terminal) ∧
    writes (λ s x a, ∃ items, states !! s = Some items ∧
              reduce_candidate follow items x a) shifts parsing_table ∧
    writes (λ s x j, (s, x, j) ∈ transitions ∧ dict_mem g x = true)
      (empty_rows (length states)) goto_table.
Proof.
  intros Hnd Hlt Hfollow. unfold generate_slr1_parsing_table.
  assert (∀ V s, s < length states →
            is_Some ((empty_rows (length states) : gmap nat (gmap str V)) !! s)) as Hrows.
  { intros V s Hs. rewrite empty_rows_lookup. by rewrite decide_True. }
  destruct (write_transitions_writes g (length states) transitions
              (empty_rows (length states)) (empty_rows (length states)))
    as (pt1 & gt & -> & Hw1 & Hwg); [by apply Hrows|by apply Hrows|done|].
  cbn [mbind res_bind].
  destruct (write_items_writes ord follow states pt1) as (pt & -> & Hw2); [|done|].
  { intros s Hs. apply Hw1. by apply Hrows. }
  cbn [mbind res_bind]. exists pt1, pt, gt. split_and!; [done| |done|done].
  intros state terminal.
  destruct (proj2 Hw1 state terminal) as [(a & Ha & ->)|[Hno ->]].
  - symmetry. by apply shift_candidate_Some.
  - rewrite empty_rows_cell.
    destruct (shift_candidate transitions g state terminal) as [a|] eqn:Ha; [|done].
    apply shift_candidate_Some in Ha; [|done]. by apply Hno in Ha.
Qed.

(** C1, amended. The builder returns the action table and the goto table
    and nothing else. For a state of the automaton and a lookahead: if some
    complete item of the state reduces (or accepts) under that lookahead,
    the cell holds the action of one such item, whatever shift the
    transitions give for it; otherwise the cell holds that shift, or nothing
    when there is none. The goto table holds the transitions on
    nonterminals. *)
Theorem generate_slr1_parsing_table_cells (ord : set_order)
    (states : list (gset item)) (transitions : list (nat * str * nat))
    (g : grammar) (first follow : gmap str (gset str)) :
  NoDup transitions.*1 →
  (∀ i symbol j, (i, symbol, j) ∈ transitions → i < length states) →
  (∀ items lhs rhs, items ∈ states → (lhs, rhs, length rhs) ∈ items →
     lhs ≠ S_prime → is_Some (follow !! lhs)) →
  ∃ parsing_table goto_table,
    generate_slr1_parsing_table ord states transitions g first follow
      = Ok (parsing_table, goto_table) ∧
    (∀ state items terminal, states !! state = Some items →
       (∃ action, reduce_candidate follow items terminal action ∧
          cell parsing_table state terminal = Some action) ∨
       ((∀ action, ¬ reduce_candidate follow items terminal action) ∧
          cell parsing_table state terminal =
          shift_candidate transitions g state terminal)) ∧
    (∀ state symbol,
       cell goto_table state symbol =
       if dict_mem g symbol then dict_get transitions (state, symbol) else None).
Proof.
  intros Hnd Hlt Hfollow.
  destruct (generate_slr1_parsing_table_writes ord states transitions g first follow)
    as (pt1 & pt & gt & Hgen & Hpt1 & Hw2 & Hwg); [done..|].
  exists pt, gt. split_and!; [done| |].
  - intros state items terminal Hstate.
    destruct (proj2 Hw2 state terminal) as [(a & (items' & Hitems' & Ha) & Hc)|[Hno Hc]].
    + left. exists a. split; [|done]. congruence.
    + right. split; [|by rewrite Hc]. intros a Ha. apply (Hno a). eauto.
  - intros state symbol.
    destruct (proj2 Hwg state symbol) as [(j & [Hin Hmem] & ->)|[Hno ->]].
    + rewrite Hmem. symmetry. by apply dict_get_NoDup.
    + rewrite empty_rows_cell. destruct (dict_mem g symbol) eqn:Hmem; [|done].
      destruct (dict_get transitions (state, symbol)) as [j|] eqn:Hj; [|done].
      apply dict_get_Some_elem in Hj. destruct (Hno j). done.
Qed.

Lemma generate_slr1_parsing_table_cells_witness :
  let states : list (gset item) := [{[(lit "E", [lit "x"], 1)]}; ∅] in
  let transitions := [(0, lit "+", 1)] in
  let g : grammar := [(lit "E", [[lit "x"]])] in
  let follow : gmap str (gset str) := {[lit "E" := {[lit "+"]}]} in
  ∃ parsing_table goto_table,
    generate_slr1_parsing_table elements_order states transitions g ∅ follow
      = Ok (parsing_table, goto_table) ∧
    (∀ state items terminal, states !! state = Some items →
       (∃ action, reduce_candidate follow items terminal action ∧
          cell parsing_table state terminal = Some action) ∨
       ((∀ action, ¬ reduce_candidate follow items terminal action) ∧
          cell parsing_table state terminal =
          shift_candidate transitions g state terminal)) ∧
    (∀ state symbol,
       cell goto_table state symbol =
       if dict_mem g symbol then dict_get transitions (state, symbol) else None).
Proof.
  apply (generate_slr1_parsing_table_cells elements_order
           [{[(lit "E", [lit "x"], 1)]}; ∅] [(0, lit "+", 1)]
           [(lit "E", [[lit "x"]])] ∅ {[lit "E" := {[lit "+"]}]}).
  - apply NoDup_singleton.
  - intros i symbol j Hin. apply list_elem_of_singleton in Hin.
    injection Hin as -> _ _. simpl. lia.
  - intros items lhs rhs Hitems Hin _.
    apply elem_of_cons in Hitems as [->|Hitems].
    + apply elem_of_singleton in Hin. injection Hin as -> _ _.
      rewrite lookup_singleton_eq. eauto.
    + apply list_elem_of_singleton in Hitems. subst items.
      by apply elem_of_empty in Hin.
Defined.

(** ** Evaluating the script *)

(** A decidable property of a result is settled by evaluation. *)
Lemma res_check {A} (r : res A) (P : A → Prop) `{∀ a, Decision (P a)} :
  match r with Ok a => bool_decide (P a) | _ => false end = true →
  ∃ a, r = Ok a ∧ P a.
Proof.
  destruct r as [a| |]; [|done..]. intros HP%bool_decide_eq_true. by exists a.
Qed.

Lemma bind_Ok {A B} (r : res A) (k : A → res B) (b : B) :
  r ≫= k = Ok b → ∃ a, r = Ok a ∧ k a = Ok b.
Proof. destruct r as [a| |]; [|done..]. intros Hk. by exists a. Qed.

Lemma first_follow_Ok (g : grammar) (first follow : gmap str (gset str)) :
  (first ← compute_first_all g; follow ← compute_follow_all g first;
   Ok (first, follow)) = Ok (first, follow) →
  compute_first_all g = Ok first ∧ compute_follow_all g first = Ok follow.
Proof.
  intros (first' & Hfirst & (follow' & Hfollow & [= <- <-])%bind_Ok)%bind_Ok.
  done.
Qed.

Lemma reduce_candidate_intro (follow : gmap str (gset str)) (items : gset item)
    (terminal lhs : str) (rhs : list str) (terminals : gset str) :
  (lhs, rhs, length rhs) ∈ items →
  lhs ≠ S_prime →
  follow !! lhs = Some terminals →
  terminal ∈ terminals →
  reduce_candidate follow items terminal (reduce_action lhs rhs).
Proof.
  intros Hin Hl Hf Ht.
  exists (lhs, rhs, length rhs). split; [done|]. split; [done|]. right. eauto.
Qed.

(** C1 as worded fails. First, for [E -> E + E | id], state 4 with
    lookahead [+] has the shift [S3] and the reduce by [E -> E + E]; the
    cell holds the reduce, and the two tables are all the builder returns.
    Second, for [S -> A | B], [A -> a], [B -> a] the table built from one
    automaton and one FOLLOW table changes with the order in which the
    items of a state are visited. *)
Lemma table_conflicts_unreported :
  (∃ o items,
     script elements_order (lit "E -> E + E | id") = Ok o ∧
     out_states o !! 4 = Some items ∧
     shift_candidate (out_transitions o) (out_grammar o) 4 (lit "+")
       = Some (shift_action 3) ∧
     reduce_candidate (out_follow o) items (lit "+")
       (reduce_action (lit "E") [lit "E"; lit "+"; lit "E"]) ∧
     cell (out_parsing_table o) 4 (lit "+")
       = Some (reduce_action (lit "E") [lit "E"; lit "+"; lit "E"])) ∧
  (∃ o,
     script elements_order
       (lit "S -> A | B" ++ newline ++ lit "A -> a" ++ newline ++ lit "B -> a") = Ok o ∧
     ¬ table_order_independent (out_states o) (out_transitions o)
         (out_grammar o) (out_first o) (out_follow o)).
Proof.
  split.
  - destruct (res_check (script elements_order (lit "E -> E + E | id"))
      (λ o, 4 < length (out_states o) ∧
            (lit "E", [lit "E"; lit "+"; lit "E"], 3) ∈ out_states o !!! 4 ∧
            out_follow o !! lit "E" = Some {[lit "+"; dollar]} ∧
            shift_candidate (out_transitions o) (out_grammar o) 4 (lit "+")
              = Some (shift_action 3) ∧
            cell (out_parsing_table o) 4 (lit "+")
              = Some (reduce_action (lit "E") [lit "E"; lit "+"; lit "E"])))
      as (o & Ho & Hlen & Hitem & Hfollow & Hshift & Hcell);
      [vm_compute; reflexivity|].
    exists o, (out_states o !!! 4). split_and!; [done| |done| |done].
    + by apply list_lookup_lookup_total_lt.
    + eapply (reduce_candidate_intro _ _ _ (lit "E") [lit "E"; lit "+"; lit "E"]);
        [done|discriminate|done|set_solver].
  - destruct (res_check
      (script elements_order
         (lit "S -> A | B" ++ newline ++ lit "A -> a" ++ newline ++ lit "B -> a"))
      (λ o,
         match generate_slr1_parsing_table elements_order (out_states o)
                 (out_transitions o) (out_grammar o) (out_first o) (out_follow o)
         with Ok (parsing_table, _) => cell parsing_table 1 dollar | _ => None end
         ≠
         match generate_slr1_parsing_table reverse_order (out_states o)
                 (out_transitions o) (out_grammar o) (out_first o) (out_follow o)
         with Ok (parsing_table, _) => cell parsing_table 1 dollar | _ => None end))
      as (o & Ho & Hne); [vm_compute; reflexivity|].
    exists o. split; [done|]. intros Hind. apply Hne.
    by rewrite (Hind elements_order reverse_order).
Qed.

(** ** FIRST and FOLLOW on grammars with cycles *)

Lemma first_closed_fails (g : grammar) (first : gmap str (gset str))
    (lhs : str) (prods : list (list str)) (rhs : list str) (x : str) :
  dict_get g lhs = Some prods →
  rhs ∈ prods →
  x ∈ first_of_seq g first rhs →
  x ∉ first !!! lhs →
  ¬ first_closed g first.
Proof. intros Hprods Hrhs Hx Hnx Hcl. apply Hnx. by eapply Hcl. Qed.

Lemma follow_closed_fails (g : grammar) (first follow : gmap str (gset str))
    (lhs : str) (prods : list (list str)) (alpha : list str) (x z : str) :
  dict_get g lhs = Some prods →
  alpha ++ [x] ∈ prods →
  dict_mem g x = true →
  z ∈ follow !!! lhs →
  z ∉ follow !!! x →
  ¬ follow_closed g first follow.
Proof.
  intros Hprods Hrhs Hx Hz Hnz [_ Hcl].
  destruct (Hcl lhs prods alpha x [] Hprods Hrhs) as [_ Hsub]; [by rewrite Hx|].
  apply Hnz, Hsub; [by left|done].
Qed.

(** C2, at an input where the code departs from it. For [A -> B a | x],
    [B -> A b | y] the memoised recursion gives FIRST(B) = {y}, although
    every solution of the FIRST equations has [x] in FIRST(B): the table
    computed is not a solution, so not the least one. *)
Theorem compute_first_mutual_recursion :
  ∃ g first,
    get_grammar (lit "A -> B a | x" ++ newline ++ lit "B -> A b | y") = Grammar g ∧
    compute_first_all g = Ok first ∧
    first !! lit "A" = Some {[lit "x"; lit "y"]} ∧
    first !! lit "B" = Some {[lit "y"]} ∧
    (∀ first', first_closed g first' → lit "x" ∈ first' !!! lit "B") ∧
    ¬ first_closed g first ∧
    ¬ least_first g first.
Proof.
  set (g := [(lit "A", [[lit "B"; lit "a"]; [lit "x"]]);
             (lit "B", [[lit "A"; lit "b"]; [lit "y"]])] : grammar).
  destruct (res_check (compute_first_all g)
      (λ first, first !! lit "A" = Some {[lit "x"; lit "y"]} ∧
                first !! lit "B" = Some {[lit "y"]} ∧
                lit "x" ∈ first_of_seq g first [lit "A"; lit "b"] ∧
                lit "x" ∉ first !!! lit "B"))
    as (first & Hfirst & HA & HB & Hx & Hnx); [vm_compute; reflexivity|].
  assert (¬ first_closed g first) as Hfail.
  { eapply (first_closed_fails g first (lit "B") _ [lit "A"; lit "b"] (lit "x"));
      [reflexivity|by left|done|done]. }
  exists g, first. split_and!; [by vm_compute|done..| |done|].
  - intros first' Hcl.
    assert (lit "x" ∈ first' !!! lit "A") as HA'.
    { eapply (Hcl (lit "A") _ [lit "x"]); [reflexivity|by right; left|].
      cbn [first_of_seq]. apply elem_of_union. left.
      apply elem_of_difference. split; [|by rewrite not_elem_of_singleton].
      change (first_of_symbol g first' (lit "x")) with ({[lit "x"]} : gset str).
      by apply elem_of_singleton. }
    eapply (Hcl (lit "B") _ [lit "A"; lit "b"]); [reflexivity|by left|].
    cbn [first_of_seq]. apply elem_of_union. left.
    apply elem_of_difference. split; [done|by rewrite not_elem_of_singleton].
  - intros [Hcl _]. by apply Hfail.
Qed.

(** C3, at an input where the code departs from it. For [S -> B],
    [B -> b A | b], [A -> a B | B z] the memoised recursion gives
    FOLLOW(A) = {$}, although every solution of the FOLLOW equations has [z]
    in FOLLOW(A) (from [B -> b A] and [A -> B z]): the table computed is not
    a solution, so not the least one. *)
Theorem compute_follow_cycle :
  ∃ g first follow,
    get_grammar (lit "S -> B" ++ newline ++ lit "B -> b A | b" ++ newline
                 ++ lit "A -> a B | B z") = Grammar g ∧
    compute_first_all g = Ok first ∧
    compute_follow_all g first = Ok follow ∧
    follow !! lit "S" = Some {[dollar]} ∧
    follow !! lit "B" = Some {[dollar; lit "z"]} ∧
    follow !! lit "A" = Some {[dollar]} ∧
    (∀ follow', follow_closed g first follow' → lit "z" ∈ follow' !!! lit "A") ∧
    ¬ follow_closed g first follow ∧
    ¬ least_follow g first follow.
Proof.
  set (g := [(lit "S", [[lit "B"]]);
             (lit "B", [[lit "b"; lit "A"]; [lit "b"]]);
             (lit "A", [[lit "a"; lit "B"]; [lit "B"; lit "z"]])] : grammar).
  destruct (res_check
      (first ← compute_first_all g; follow ← compute_follow_all g first;
       Ok (first, follow))
      (λ ff, ff.2 !! lit "S" = Some {[dollar]} ∧
             ff.2 !! lit "B" = Some {[dollar; lit "z"]} ∧
             ff.2 !! lit "A" = Some {[dollar]} ∧
             lit "z" ∈ ff.2 !!! lit "B" ∧
             lit "z" ∉ ff.2 !!! lit "A"))
    as ([first follow] & [Hfirst Hfollow]%first_follow_Ok & HS & HB & HA & Hz & Hnz);
    [vm_compute; reflexivity|]. cbn [fst snd] in *.
  assert (¬ follow_closed g first follow) as Hfail.
  { eapply (follow_closed_fails g first follow (lit "B") _ [lit "b"] (lit "A") (lit "z"));
      [reflexivity|by left|done|done|done]. }
  exists g, first, follow. split_and!; [by vm_compute|done..| |done|].
  - intros follow' [_ Hcl].
    assert (lit "z" ∈ follow' !!! lit "B") as HB'.
    { destruct (Hcl (lit "A") _ [] (lit "B") [lit "z"] eq_refl) as [Hbeta _];
        [by right; left|by vm_compute|].
      apply Hbeta; [done|].
      apply elem_of_difference. split; [|by rewrite not_elem_of_singleton].
      cbn [first_of_seq]. apply elem_of_union. left.
      apply elem_of_difference. split; [|by rewrite not_elem_of_singleton].
      change (first_of_symbol g first (lit "z")) with ({[lit "z"]} : gset str).
      by apply elem_of_singleton. }
    destruct (Hcl (lit "B") _ [lit "b"] (lit "A") [] eq_refl) as [_ Hsub];
      [by left|by vm_compute|].
    apply Hsub; [by left|done].
  - intros [Hcl _]. by apply Hfail.
Qed.

(** [compute_follow] looks one symbol ahead only: in [S -> A B c] with a
    nullable [B] it gives FOLLOW(A) the end marker of [S] and not [c]. *)
Lemma compute_follow_one_symbol_ahead :
  ∃ g first follow,
    get_grammar (lit "S -> A B c" ++ newline ++ lit "A -> a" ++ newline
                 ++ lit "B -> b |") = Grammar g ∧
    compute_first_all g = Ok first ∧
    first !! lit "B" = Some {[lit "b"; epsilon]} ∧
    compute_follow_all g first = Ok follow ∧
    follow !! lit "A" = Some {[dollar; lit "b"]} ∧
    (∀ follow', follow_closed g first follow' → lit "c" ∈ follow' !!! lit "A").
Proof.
  set (g := [(lit "S", [[lit "A"; lit "B"; lit "c"]]);
             (lit "A", [[lit "a"]]);
             (lit "B", [[lit "b"]; []])] : grammar).
  destruct (res_check
      (first ← compute_first_all g; follow ← compute_follow_all g first;
       Ok (first, follow))
      (λ ff, ff.1 !! lit "B" = Some {[lit "b"; epsilon]} ∧
             ff.2 !! lit "A" = Some {[dollar; lit "b"]} ∧
             lit "c" ∈ first_of_seq g ff.1 [lit "B"; lit "c"]))
    as ([first follow] & [Hfirst Hfollow]%first_follow_Ok & HB & HA & Hc);
    [vm_compute; reflexivity|]. cbn [fst snd] in *.
  exists g, first, follow. split_and!; [by vm_compute|done..|].
  intros follow' [_ Hcl].
  destruct (Hcl (lit "S") _ [] (lit "A") [lit "B"; lit "c"] eq_refl) as [Hbeta _];
    [by left|by vm_compute|].
  apply Hbeta; [done|].
  apply elem_of_difference. split; [done|by rewrite not_elem_of_singleton].
Qed.

(** The same grammar with the alternative left empty: here the item
    [A -> .] is complete in state 0 and reduces on [b]. *)
Lemma script_empty_alternative :
  ∃ o,
    script elements_order
      (lit "S -> A B" ++ newline ++ lit "A -> a |" ++ newline ++ lit "B -> b") = Ok o ∧
    dict_get (out_grammar o) (lit "A") = Some [[lit "a"]; []] ∧
    out_first o !! lit "A" = Some {[lit "a"; epsilon]} ∧
    out_follow o !! lit "A" = Some {[lit "b"]} ∧
    out_states o !! 0 =
      Some {[ (S_prime, [lit "S"], 0); (lit "S", [lit "A"; lit "B"], 0);
              (lit "A", [lit "a"], 0); (lit "A", [], 0) ]} ∧
    cell (out_parsing_table o) 0 (lit "b") = Some (reduce_action (lit "A") []).
Proof. apply (res_check _ _). vm_compute. reflexivity. Qed.

(** ** The recursion of FIRST and FOLLOW ends *)

Lemma for_each_inv {A St} (body : St → A → res St) (I : St → Prop) (l : list A) :
  (∀ s a, a ∈ l → I s → ∃ s', body s a = Ok s' ∧ I s') →
  ∀ s, I s → ∃ s', for_each body s l = Ok s' ∧ I s'.
Proof.
  induction l as [|a l IH]; intros Hbody s Hs; cbn [for_each].
  - by exists s.
  - destruct (Hbody s a) as (s1 & -> & Hs1); [by left|done|]. cbn [mbind res_bind].
    apply IH; [|done]. intros s2 a2 Ha2. apply Hbody. by right.
Qed.

Lemma table_le_refl (t : gmap str (gset str)) : table_le t t.
Proof. intros k s Hk. by exists s. Qed.

Lemma table_le_trans (t1 t2 t3 : gmap str (gset str)) :
  table_le t1 t2 → table_le t2 t3 → table_le t1 t3.
Proof.
  intros H12 H23 k s Hk. destruct (H12 k s Hk) as (s2 & Hk2 & Hs2).
  destruct (H23 k s2 Hk2) as (s3 & Hk3 & Hs3). exists s3. split; [done|set_solver].
Qed.

Lemma table_le_insert (t : gmap str (gset str)) (k : str) (s : gset str) :
  t !! k = None → table_le t (<[k := s]> t).
Proof.
  intros Hk k' s' Hk'. exists s'. split; [|done].
  rewrite lookup_insert_ne; [done|]. congruence.
Qed.

Lemma table_le_alter (t : gmap str (gset str)) (k : str) (f : gset str → gset str) :
  (∀ s, s ⊆ f s) → table_le t (alter f k t).
Proof.
  intros Hf k' s' Hk'. destruct (decide (k = k')) as [->|Hne].
  - exists (f s'). split; [|done]. by rewrite lookup_alter_eq, Hk'.
  - exists s'. split; [|done]. by rewrite lookup_alter_ne.
Qed.

Lemma table_le_set_add (t : gmap str (gset str)) (k x : str) :
  table_le t (set_add k x t).
Proof. apply table_le_alter. set_solver. Qed.

Lemma table_le_set_update (t : gmap str (gset str)) (k : str) (xs : gset str) :
  table_le t (set_update k xs t).
Proof. apply table_le_alter. set_solver. Qed.

Lemma table_le_dom (t t' : gmap str (gset str)) : table_le t t' → dom t ⊆ dom t'.
Proof.
  intros Hle k [s Hk]%elem_of_dom. destruct (Hle k s Hk) as (s' & Hk' & _).
  apply elem_of_dom. eauto.
Qed.

Lemma table_le_elem (t t' : gmap str (gset str)) (k x : str) :
  table_le t t' → x ∈ t !!! k → x ∈ t' !!! k.
Proof.
  intros Hle. rewrite !lookup_total_alt. destruct (t !! k) as [s|] eqn:Hk; [|set_solver].
  destruct (Hle k s Hk) as (s' & -> & Hs). set_solver.
Qed.

Lemma size_list_to_set_le (l : list str) :
  size (list_to_set l : gset str) ≤ length l.
Proof.
  induction l as [|x l IH]; [by rewrite list_to_set_nil, size_empty|].
  rewrite list_to_set_cons. cbn [length].
  pose proof (size_union_alt ({[x]} : gset str) (list_to_set l)) as Hu.
  assert (size (list_to_set l ∖ {[x]} : gset str) ≤ size (list_to_set l : gset str))
    as Hd by (apply subseteq_size; set_solver).
  rewrite size_singleton in Hu. lia.
Qed.

Lemma dict_mem_nonterminals (g : grammar) (symbol : str) :
  dict_mem g symbol = true ↔ symbol ∈ nonterminals g.
Proof.
  unfold dict_mem, nonterminals.
  by rewrite bool_decide_eq_true, dict_get_is_Some, elem_of_list_to_set.
Qed.

(** Entering a nonterminal that has no entry yet leaves fewer of them
    without one. *)
Lemma fewer_missing (g : grammar) (t t' : gmap str (gset str)) (symbol : str)
    (fuel : nat) :
  symbol ∈ nonterminals g → t !! symbol = None →
  table_le (<[symbol := ∅]> t) t' →
  size (nonterminals g ∖ dom t) < S fuel →
  size (nonterminals g ∖ dom t') < fuel.
Proof.
  intros Hin Hnone Hle%table_le_dom Hsize.
  assert (nonterminals g ∖ dom t' ⊂ nonterminals g ∖ dom t) as Hlt%subset_size; [|lia].
  rewrite dom_insert_L in Hle. apply not_elem_of_dom in Hnone.
  split; [set_solver|]. intros Hsub.
  assert (symbol ∈ nonterminals g ∖ dom t') as Hs by set_solver. set_solver.
Qed.

Section first_total.
Context (g : grammar).

Lemma walk_production_total
    (call : gmap str (gset str) → str → res (gmap str (gset str)))
    (symbol : str) (first0 : gmap str (gset str)) (production : list str) :
  (∀ first sub_symbol, table_le first0 first → dict_mem g sub_symbol = true →
     ∃ first', call first sub_symbol = Ok first' ∧ table_le first first') →
  ∀ first, table_le first0 first →
    ∃ first', walk_production call g symbol first production = Ok first' ∧
      table_le first0 first'.
Proof.
  intros Hcall. induction production as [|sub_symbol rest IH]; intros first Hle;
    cbn [walk_production].
  - eexists. split; [done|]. eapply table_le_trans; [done|apply table_le_set_add].
  - destruct (dict_mem g sub_symbol) eqn:Hmem.
    + destruct (Hcall first sub_symbol Hle Hmem) as (first1 & -> & Hle1).
      cbn [mbind res_bind].
      assert (table_le first0
                (set_update symbol ((first1 !!! sub_symbol) ∖ {[epsilon]}) first1)) as Hle2.
      { eapply table_le_trans; [done|].
        eapply table_le_trans; [done|apply table_le_set_update]. }
      case_decide; [by apply IH|]. by eexists.
    + eexists. split; [done|]. eapply table_le_trans; [done|apply table_le_set_add].
Qed.

Lemma compute_first_total (fuel : nat) :
  ∀ (first : gmap str (gset str)) (symbol : str),
    size (nonterminals g ∖ dom first) < fuel →
    ∃ first', compute_first fuel g first symbol = Ok first' ∧
      table_le first first' ∧ symbol ∈ dom first'.
Proof.
  induction fuel as [|fuel IH]; intros first symbol Hfuel; [lia|].
  cbn [compute_first]. case_decide as Hin.
  - exists first. split_and!; [done|apply table_le_refl|by apply elem_of_dom].
  - apply eq_None_not_Some in Hin.
    assert (∃ first', for_each (λ first production,
              if decide (production = [empty_str])
              then Ok (set_add symbol epsilon first)
              else walk_production (compute_first fuel g) g symbol first production)
            (<[symbol := ∅]> first) (default [] (dict_get g symbol)) = Ok first' ∧
            table_le (<[symbol := ∅]> first) first') as (first' & -> & Hle).
    { destruct (dict_get g symbol) as [prods|] eqn:Hprods; cbn [default];
        [|eexists; split; [done|apply table_le_refl]].
      assert (symbol ∈ nonterminals g) as Hsym.
      { apply dict_mem_nonterminals. unfold dict_mem. by rewrite Hprods. }
      apply for_each_inv; [|apply table_le_refl].
      intros first1 production _ Hle1. case_decide.
      - eexists. split; [done|]. eapply table_le_trans; [done|apply table_le_set_add].
      - apply walk_production_total; [|done].
        intros first2 sub_symbol Hle2 _.
        destruct (IH first2 sub_symbol) as (first3 & ? & ? & _); [|eauto].
        by eapply fewer_missing. }
    exists first'. split_and!; [done| |].
    + eapply table_le_trans; [by apply table_le_insert|done].
    + apply (table_le_dom _ _ Hle). rewrite dom_insert_L. set_solver.
Qed.

(** [compute_first_all] returns, with an entry for every nonterminal. *)
Lemma compute_first_all_total :
  ∃ first, compute_first_all g = Ok first ∧ nonterminals g ⊆ dom first.
Proof.
  unfold compute_first_all.
  assert (∀ (l : list str) (first : gmap str (gset str)),
            ∃ first', for_each (compute_first (S (length g)) g) first l = Ok first' ∧
              table_le first first' ∧ ∀ nt, nt ∈ l → nt ∈ dom first') as Hloop.
  { induction l as [|nt l IHl]; intros first; cbn [for_each].
    - exists first. split_and!; [done|apply table_le_refl|].
      intros nt Hnt. by apply elem_of_nil in Hnt.
    - destruct (compute_first_total (S (length g)) first nt) as (first1 & -> & Hle1 & Hnt).
      { pose proof (subseteq_size (nonterminals g ∖ dom first) (nonterminals g)) as Hs.
        pose proof (size_list_to_set_le g.*1) as Hl. rewrite length_fmap in Hl.
        unfold nonterminals in *. assert (list_to_set g.*1 ∖ dom first ⊆
          (list_to_set g.*1 : gset str)) as Hsub%Hs by set_solver. lia. }
      cbn [mbind res_bind]. destruct (IHl first1) as (first' & -> & Hle' & Hl).
      exists first'. split_and!; [done|by eapply table_le_trans|].
      intros nt' [->|?]%elem_of_cons; [|auto].
      by apply (table_le_dom _ _ Hle'). }
  destruct (Hloop g.*1 ∅) as (first & Hfirst & _ & Hdom).
  exists first. split; [done|]. intros nt Hnt%elem_of_list_to_set. auto.
Qed.
End first_total.

Section follow_total.
Context (g : grammar) (first : gmap str (gset str)) (start : str).
Hypothesis Hstart : dict_first g = Some start.
Hypothesis Hfirst : nonterminals g ⊆ dom first.

Lemma follow_occurrence_total
    (call : gmap str (gset str) → str → res (gmap str (gset str)))
    (symbol lhs : str) (rhs : list str) (follow0 : gmap str (gset str))
    (occurrence : nat * str) :
  (∀ follow, table_le follow0 follow →
     ∃ follow', call follow lhs = Ok follow' ∧ table_le follow follow') →
  ∀ follow, table_le follow0 follow →
    ∃ follow',
      follow_occurrence call g first symbol lhs rhs follow occurrence = Ok follow' ∧
      table_le follow0 follow'.
Proof.
  intros Hcall follow Hle. destruct occurrence as [i sub_symbol].
  assert (∀ follow1, table_le follow0 follow1 →
            ∃ follow', (follow ← call follow1 lhs;
                        Ok (set_update symbol (follow !!! lhs) follow)) = Ok follow' ∧
              table_le follow0 follow') as Hcall'.
  { intros follow1 Hle1. destruct (Hcall follow1 Hle1) as (follow2 & -> & Hle2).
    cbn [mbind res_bind]. eexists. split; [done|].
    eapply table_le_trans; [done|].
    eapply table_le_trans; [done|apply table_le_set_update]. }
  unfold follow_occurrence. case_decide; [|by exists follow].
  destruct (rhs !! (i + 1)) as [next_symbol|].
  - destruct (dict_mem g next_symbol) eqn:Hmem.
    + apply dict_mem_nonterminals, Hfirst, elem_of_dom in Hmem as [next_sym_first ->].
      assert (table_le follow0
                (set_update symbol (next_sym_first ∖ {[epsilon]}) follow)) as Hle1.
      { eapply table_le_trans; [done|apply table_le_set_update]. }
      case_decide; [by apply Hcall'|by eexists].
    + eexists. split; [done|]. eapply table_le_trans; [done|apply table_le_set_add].
  - case_decide; [by apply Hcall'|by exists follow].
Qed.

Lemma compute_follow_total (fuel : nat) :
  ∀ (follow : gmap str (gset str)) (symbol : str),
    symbol ∈ nonterminals g →
    size (nonterminals g ∖ dom follow) < fuel →
    ∃ follow', compute_follow fuel g first follow symbol = Ok follow' ∧
      table_le follow follow' ∧ symbol ∈ dom follow' ∧
      (follow !! symbol = None → symbol = start → dollar ∈ follow' !!! symbol).
Proof.
  induction fuel as [|fuel IH]; intros follow symbol Hsym Hfuel; [lia|].
  cbn [compute_follow]. case_decide as Hin.
  - exists follow. split_and!; [done|apply table_le_refl|by apply elem_of_dom|].
    intros Hnone. rewrite Hnone in Hin. by destruct Hin.
  - apply eq_None_not_Some in Hin. rewrite Hstart.
    set (follow1 := if decide (symbol = start)
                    then set_add symbol dollar (<[symbol := ∅]> follow)
                    else <[symbol := ∅]> follow).
    assert (table_le (<[symbol := ∅]> follow) follow1) as Hle1.
    { unfold follow1. case_decide; [apply table_le_set_add|apply table_le_refl]. }
    assert (symbol = start → dollar ∈ follow1 !!! symbol) as Hdollar.
    { intros Heq. unfold follow1. rewrite decide_True by done. unfold set_add.
      rewrite lookup_total_alt, lookup_alter_eq, lookup_insert_eq. set_solver. }
    destruct (for_each_inv
      (λ follow '(lhs, rhs_list),
         for_each (λ follow rhs,
             for_each
               (follow_occurrence (compute_follow fuel g first) g first symbol lhs rhs)
               follow (enumerate rhs))
           follow rhs_list)
      (table_le follow1) g) with (s := follow1) as (follow' & -> & Hle');
      [|apply table_le_refl|].
    { intros follow2 [lhs rhs_list] Hg Hle2.
      assert (lhs ∈ nonterminals g) as Hlhs.
      { apply elem_of_list_to_set, list_elem_of_fmap. by exists (lhs, rhs_list). }
      apply for_each_inv; [|done]. intros follow3 rhs _ Hle3.
      apply for_each_inv; [|done]. intros follow4 occurrence _ Hle4.
      apply follow_occurrence_total; [|done].
      intros follow5 Hle5.
      destruct (IH follow5 lhs) as (follow6 & ? & ? & _); [done| |eauto].
      apply (fewer_missing g follow follow5 symbol fuel); [done|done| |done].
      by eapply table_le_trans. }
    exists follow'. split_and!; [done| | |].
    + eapply table_le_trans; [by apply table_le_insert|]. by eapply table_le_trans.
    + apply (table_le_dom (<[symbol := ∅]> follow)); [by eapply table_le_trans|].
      rewrite dom_insert_L. set_solver.
    + intros _ Heq. eapply table_le_elem; [done|auto].
Qed.

(** [compute_follow_all] returns, with an entry for every nonterminal and
    the end marker in the entry of the start symbol. *)
Lemma compute_follow_all_total :
  ∃ follow, compute_follow_all g first = Ok follow ∧
    nonterminals g ⊆ dom follow ∧ dollar ∈ follow !!! start.
Proof.
  unfold compute_follow_all.
  assert (∀ (l : list str) (follow : gmap str (gset str)),
            (∀ nt, nt ∈ l → nt ∈ nonterminals g) →
            ∃ follow', for_each (compute_follow (S (length g)) g first) follow l
                         = Ok follow' ∧
              table_le follow follow' ∧ (∀ nt, nt ∈ l → nt ∈ dom follow') ∧
              (∀ nt l', l = nt :: l' → follow !! nt = None → nt = start →
                 dollar ∈ follow' !!! nt)) as Hloop.
  { induction l as [|nt l IHl]; intros follow Hl; cbn [for_each].
    - exists follow. split_and!; [done|apply table_le_refl| |done].
      intros nt Hnt. by apply elem_of_nil in Hnt.
    - destruct (compute_follow_total (S (length g)) follow nt)
        as (follow1 & -> & Hle1 & Hnt & Hdollar).
      { apply Hl. by left. }
      { pose proof (subseteq_size (nonterminals g ∖ dom follow) (nonterminals g)) as Hs.
        pose proof (size_list_to_set_le g.*1) as Hlen. rewrite length_fmap in Hlen.
        unfold nonterminals in *. assert (list_to_set g.*1 ∖ dom follow ⊆
          (list_to_set g.*1 : gset str)) as Hsub%Hs by set_solver. lia. }
      cbn [mbind res_bind]. destruct (IHl follow1) as (follow' & -> & Hle' & Hdom & _).
      { intros nt' Hnt'. apply Hl. by right. }
      exists follow'. split_and!; [done|by eapply table_le_trans| |].
      + intros nt' [->|?]%elem_of_cons; [|auto]. by apply (table_le_dom _ _ Hle').
      + intros nt' l' [= <- <-] Hnone Heq. eapply table_le_elem; [done|auto]. }
  destruct (Hloop g.*1 ∅) as (follow & Hfollow & _ & Hdom & Hdollar).
  { intros nt Hnt. by apply elem_of_list_to_set. }
  exists follow. split_and!; [done| |].
  - intros nt Hnt%elem_of_list_to_set. auto.
  - destruct g as [|[start' prods] g']; [done|]. injection Hstart as ->.
    by eapply Hdollar.
Qed.
End follow_total.

(** For every grammar with a nonterminal, FIRST and FOLLOW are computed
    without an exception, and the end marker is in FOLLOW of the start
    symbol. *)
Lemma follow_of_start_has_dollar (g : grammar) (start : str) :
  dict_first g = Some start →
  ∃ first follow,
    compute_first_all g = Ok first ∧ compute_follow_all g first = Ok follow ∧
    dollar ∈ follow !!! start.
Proof.
  intros Hstart. destruct (compute_first_all_total g) as (first & Hfirst & Hdom).
  destruct (compute_follow_all_total g first start Hstart Hdom)
    as (follow & Hfollow & _ & Hdollar).
  by exists first, follow.
Qed.

(** ** The order of the loops and the item sets *)

Lemma closure_order (ord1 ord2 : set_order) (items : gset item) (g : grammar) :
  closure ord1 items g = closure ord2 items g.
Proof.
  destruct (closure_spec ord1 g items) as (c1 & E1 & _).
  destruct (closure_spec ord2 g items) as (c2 & E2 & _).
  rewrite E1, E2. f_equal. by eapply closure_order_irrelevant.
Qed.

Lemma symbols_after_dot_order (ord1 ord2 : set_order) (state : gset item) :
  symbols_after_dot ord1 state = symbols_after_dot ord2 state.
Proof. apply set_eq. intros symbol. by rewrite !symbols_after_dot_spec. Qed.

Lemma goto_order (ord1 ord2 : set_order) (items : gset item) (symbol : str)
    (g : grammar) :
  goto ord1 items symbol g = goto ord2 items symbol g.
Proof.
  destruct (goto_spec ord1 g items symbol) as (s1 & E1 & Ha1 & Hc1 & _ & Hl1 & _).
  destruct (goto_spec ord2 g items symbol) as (s2 & E2 & Ha2 & Hc2 & _ & Hl2 & _).
  rewrite E1, E2. f_equal. apply set_eq. intros x. split.
  - by apply Hl1.
  - by apply Hl2.
Qed.

(** What the automaton and the table need from each other, for the script
    run on a grammar [g] and its augmented grammar [aug]. *)
Lemma script_tables (ord : set_order) (g aug : grammar)
    (first follow : gmap str (gset str)) (w : lr0) (s0 : gset item) :
  lr0_inv ord aug s0 (length (states w)) (λ i _, i < length (states w)) w →
  (∀ lhs, lhs ∈ aug.*1 → lhs ≠ S_prime → is_Some (follow !! lhs)) →
  ∃ shifts parsing_table goto_table,
    generate_slr1_parsing_table ord (states w) (transitions w) g first follow
      = Ok (parsing_table, goto_table) ∧
    (∀ state terminal,
       cell shifts state terminal
       = shift_candidate (transitions w) g state terminal) ∧
    writes (λ s x a, ∃ items, states w !! s = Some items ∧
              reduce_candidate follow items x a) shifts parsing_table.
Proof.
  intros Hinv Hfollow.
  destruct (generate_slr1_parsing_table_writes ord (states w) (transitions w)
              g first follow) as (pt1 & pt & gt & Hgen & Hpt1 & Hw2 & _).
  - by eapply inv_keys.
  - intros i symbol j Hin. apply dict_get_NoDup in Hin; [|by eapply inv_keys].
    apply (inv_sound _ _ _ _ _ _ Hinv) in Hin as (s & _ & Hi & _).
    by eapply lookup_lt_Some.
  - intros items lhs rhs Hitems Hin Hlhs. apply Hfollow; [|done].
    apply (inv_reach _ _ _ _ _ _ Hinv), reachable_items in Hitems.
    apply Hitems, elem_of_all_items in Hin as (prods & Hin & _).
    apply list_elem_of_fmap. by exists (lhs, prods).
  - by exists pt1, pt, gt.
Qed.

(** C4, at its input, for every order of the loops over sets. The
    alternative written [ε] is read as the one-symbol right-hand side [ε], a
    terminal: FIRST(A) = {a, ε} and FOLLOW(A) = {b} come out as stated, but
    state 0 has the item [A -> .ε] and not [A -> .]; it shifts on [ε] and
    has no action on [b]. The reduce by [A -> ε] on [b] is in the state
    reached over the terminal [ε]. *)
Theorem script_epsilon_literal (ord : set_order) :
  ∃ o j,
    script ord
      (lit "S -> A B" ++ newline ++ lit "A -> a | " ++ epsilon ++ newline
       ++ lit "B -> b") = Ok o ∧
    dict_get (out_grammar o) (lit "A") = Some [[lit "a"]; [epsilon]] ∧
    out_first o !! lit "A" = Some {[lit "a"; epsilon]} ∧
    out_follow o !! lit "A" = Some {[lit "b"]} ∧
    out_states o !! 0 =
      Some {[ (S_prime, [lit "S"], 0); (lit "S", [lit "A"; lit "B"], 0);
              (lit "A", [lit "a"], 0); (lit "A", [epsilon], 0) ]} ∧
    cell (out_parsing_table o) 0 (lit "b") = None ∧
    cell (out_parsing_table o) 0 epsilon = Some (shift_action j) ∧
    out_states o !! j = Some {[ (lit "A", [epsilon], 1) ]} ∧
    cell (out_parsing_table o) j (lit "b")
      = Some (reduce_action (lit "A") [epsilon]).
Proof.
  set (g := [(lit "S", [[lit "A"; lit "B"]]);
             (lit "A", [[lit "a"]; [epsilon]]);
             (lit "B", [[lit "b"]])] : grammar).
  set (aug := (S_prime, [[lit "S"]]) :: g).
  set (S0 := {[ (S_prime, [lit "S"], 0); (lit "S", [lit "A"; lit "B"], 0);
                (lit "A", [lit "a"], 0); (lit "A", [epsilon], 0) ]} : gset item).
  set (S1 := {[ (lit "A", [epsilon], 1) ]} : gset item).
  destruct (generate_lr0_items_inv ord aug S_prime [lit "S"] [] g eq_refl)
    as (w & s0 & Hgen & Hs0 & Hinv).
  assert (s0 = S0) as ->.
  { rewrite (closure_order ord elements_order) in Hs0.
    assert (closure elements_order {[(S_prime, [lit "S"], 0)]} aug = Ok S0) as HS0
      by (vm_compute; reflexivity).
    congruence. }
  assert (goto ord S0 epsilon aug = Ok S1) as Hgoto.
  { rewrite (goto_order ord elements_order). vm_compute. reflexivity. }
  destruct (res_check
      (first ← compute_first_all g; follow ← compute_follow_all g first;
       Ok (first, follow))
      (λ ff, ff.1 !! lit "A" = Some {[lit "a"; epsilon]} ∧
             ff.2 !! lit "A" = Some {[lit "b"]} ∧
             is_Some (ff.2 !! lit "S") ∧ is_Some (ff.2 !! lit "B")))
    as ([first follow] & [Hfirst Hfollow]%first_follow_Ok & HfA & HA & HS & HB);
    [vm_compute; reflexivity|]. cbn [fst snd] in *.
  destruct (script_tables ord g aug first follow w S0 Hinv)
    as (pt1 & pt & gt & Htable & Hpt1 & Hw).
  { intros lhs Hin Hlhs.
    assert (lhs ∈ [S_prime; lit "S"; lit "A"; lit "B"]) as Hin' by exact Hin.
    apply elem_of_cons in Hin' as [->|Hin']; [done|].
    apply elem_of_cons in Hin' as [->|Hin']; [done|].
    apply elem_of_cons in Hin' as [->|Hin']; [by rewrite HA|].
    apply list_elem_of_singleton in Hin' as ->. done. }
  assert (states w !! 0 = Some S0) as H0 by by eapply inv_init.
  assert (∀ terminal action, ¬ reduce_candidate follow S0 terminal action) as Hno0.
  { intros terminal action (it & Hin & Hact). destruct it as [[lhs rhs] d].
    destruct Hact as [Hd _]. unfold S0 in Hin.
    set_unfold in Hin. destruct_or!; simplify_eq; done. }
  assert (∀ terminal, cell pt 0 terminal
            = shift_candidate (transitions w) g 0 terminal) as Hrow0.
  { intros terminal.
    destruct (proj2 Hw 0 terminal) as [(a & (items & Hitems & Ha) & _)|[_ ->]]; [|done].
    rewrite H0 in Hitems. injection Hitems as <-. by apply Hno0 in Ha. }
  destruct (lr0_inv_goto ord aug S0 w 0 S0 S1 epsilon) as (j & Hj & HS1); [done..| |done|].
  { apply symbols_after_dot_spec. exists (lit "A"), [epsilon], 0.
    split; [unfold S0; set_solver|done]. }
  eexists {| out_grammar := g; out_states := states w;
             out_transitions := transitions w; out_first := first;
             out_follow := follow; out_parsing_table := pt;
             out_goto_table := gt |}, j.
  cbn [out_grammar out_states out_first out_follow out_parsing_table].
  split_and!; [|done..| | | |].
  - unfold script.
    assert (get_grammar (lit "S -> A B" ++ newline ++ lit "A -> a | " ++ epsilon
                         ++ newline ++ lit "B -> b") = Grammar g) as -> by by vm_compute.
    assert (augment_grammar g = Ok aug) as Haug by by vm_compute.
    unfold g at 1. rewrite Haug. cbn [mbind res_bind].
    rewrite Hgen. cbn [mbind res_bind]. rewrite Hfirst. cbn [mbind res_bind].
    rewrite Hfollow. cbn [mbind res_bind]. rewrite Htable. done.
  - rewrite Hrow0. unfold shift_candidate.
    assert (dict_mem g (lit "b") = false) as -> by by vm_compute.
    destruct (dict_get (transitions w) (0, lit "b")) as [j'|] eqn:Hj'; [|done].
    apply (inv_sound _ _ _ _ _ _ Hinv) in Hj' as (s & _ & Hs & Hb & _).
    rewrite H0 in Hs. injection Hs as <-.
    apply symbols_after_dot_spec in Hb as (lhs & rhs & d & Hin & Hb).
    unfold S0 in Hin. set_unfold in Hin. destruct_or!; simplify_eq; done.
  - rewrite Hrow0. unfold shift_candidate.
    assert (dict_mem g epsilon = false) as -> by by vm_compute.
    by rewrite Hj.
  - done.
  - destruct (proj2 Hw j (lit "b")) as [(a & (items & Hitems & Ha) & ->)|[Hno _]].
    + rewrite HS1 in Hitems. injection Hitems as <-.
      destruct Ha as (it & Hin & Hact). unfold S1 in Hin.
      apply elem_of_singleton in Hin as ->. destruct Hact as [_ Hact].
      destruct Hact as [[? _]|(_ & ? & _ & _ & ->)]; done.
    + exfalso. apply (Hno (reduce_action (lit "A") [epsilon])). exists S1. split; [done|].
      eapply (reduce_candidate_intro _ _ _ (lit "A") [epsilon]);
        [unfold S1; set_solver|done|done|set_solver].
Qed.

(** * Further properties of the code *)

(** ** The grammar reader *)

Lemma split_go_length sep s : ∀ skip cur, 1 ≤ length (split_go sep skip cur s).
Proof.
  induction s as [|c s IH]; intros skip cur; cbn [split_go]; [simpl; lia|].
  destruct skip; [|apply IH]. case_match; [simpl; lia|apply IH].
Qed.

Lemma contains_split_length sep s : ∀ cur,
  sep ≠ [] → contains sep s = true → 2 ≤ length (split_go sep 0 cur s).
Proof.
  induction s as [|c s IH]; intros cur Hsep; cbn [contains split_go].
  - destruct sep; [done|]. done.
  - destruct (starts_with sep (c :: s)) eqn:Hst.
    + intros _. cbn [length]. pose proof (split_go_length sep s (length sep - 1) []). lia.
    + rewrite orb_false_l. by apply IH.
Qed.

Lemma parse_line_None_length line :
  contains arrow line = true → parse_line line = None →
  2 < length (split arrow line).
Proof.
  intros Hc%(contains_split_length arrow line []); [|done]. unfold parse_line, split.
  destruct (split_go arrow 0 [] line) as [|?[|?[|??]]]; simpl in *; done || lia.
Qed.

(** X1. The first line of the text that does not unpack into a left-hand
    side and alternatives decides what [get_grammar] does: with no such line
    a dictionary is returned; if that line lacks the separator it is
    reported and [None] returned; if it has the separator twice or more the
    unpacking raises [ValueError]. *)
Theorem get_grammar_outcome (grammar_text : str) :
  match get_grammar grammar_text with
  | Grammar g => is_Some (mapM parse_line (get_lines grammar_text))
  | ReturnedNone line =>
      ∃ pre post, get_lines grammar_text = pre ++ line :: post ∧
        Forall (λ l, is_Some (parse_line l)) pre ∧
        contains arrow line = false
  | RaisedValueError =>
      ∃ pre line post, get_lines grammar_text = pre ++ line :: post ∧
        Forall (λ l, is_Some (parse_line l)) pre ∧
        contains arrow line = true ∧ 2 < length (split arrow line)
  end.
Proof.
  unfold get_grammar. generalize (get_lines grammar_text) ([] : grammar).
  induction l as [|line lines IH]; intros g; cbn [get_grammar_loop].
  - by eexists.
  - destruct (contains arrow line) eqn:Hc.
    + unfold add_line. destruct (parse_line line) as [[lhs alts]|] eqn:Hp;
        cbn [mbind option_bind].
      * assert (∀ g', match get_grammar_loop g' lines with
          | Grammar _ => is_Some (mapM parse_line (line :: lines))
          | ReturnedNone line0 =>
              ∃ pre post, line :: lines = pre ++ line0 :: post ∧
                Forall (λ l, is_Some (parse_line l)) pre ∧
                contains arrow line0 = false
          | RaisedValueError =>
              ∃ pre line0 post, line :: lines = pre ++ line0 :: post ∧
                Forall (λ l, is_Some (parse_line l)) pre ∧
                contains arrow line0 = true ∧ 2 < length (split arrow line0)
          end) as Hrest.
        { intros g'. specialize (IH g'). destruct (get_grammar_loop g' lines).
          - destruct IH as [entries Hm]. cbn [mapM]. rewrite Hp, Hm. by eexists.
          - destruct IH as (pre & post & -> & Hpre & Hl).
            exists (line :: pre), post. split_and!; [done| |done].
            apply Forall_cons. by rewrite Hp.
          - destruct IH as (pre & l0 & post & -> & Hpre & Hl).
            exists (line :: pre), l0, post. split_and!; [done| |apply Hl..].
            apply Forall_cons. by rewrite Hp. }
        destruct (dict_get g lhs); apply Hrest.
      * exists [], line, lines. repeat split; try done.
        by apply parse_line_None_length.
    + by exists [], lines.
Qed.

Lemma lstrip_blank (s : str) : forallb is_space s = true → lstrip s = [].
Proof.
  induction s as [|c s IH]; [done|]. cbn [forallb lstrip].
  intros [-> Hs]%andb_true_iff. auto.
Qed.

(** X2. On a text that is empty or consists of white space only,
    [get_grammar] reports the empty line and returns [None]. *)
Theorem get_grammar_blank (grammar_text : str) :
  forallb is_space grammar_text = true →
  get_grammar grammar_text = ReturnedNone [].
Proof.
  intros Hblank. unfold get_grammar, get_lines, strip.
  by rewrite (lstrip_blank _ Hblank).
Qed.

Lemma get_grammar_blank_witness :
  get_grammar (lit "  " ++ newline ++ lit " ") = ReturnedNone [].
Proof. apply (get_grammar_blank (lit "  " ++ newline ++ lit " ")). reflexivity. Defined.

(** *** What a returned dictionary looks like *)

Lemma lstrip_suffix (s : str) : ∃ pre, s = pre ++ lstrip s.
Proof.
  induction s as [|c s [pre IH]]; [by exists []|]. cbn [lstrip].
  destruct (is_space c); [|by exists []]. exists (c :: pre). by rewrite IH at 1.
Qed.

Lemma lstrip_head (s : str) :
  lstrip s = [] ∨ ∃ c t, lstrip s = c :: t ∧ is_space c = false.
Proof.
  induction s as [|c s IH]; [by left|]. cbn [lstrip].
  destruct (is_space c) eqn:Hc; [done|]. right. by exists c, s.
Qed.

Lemma lstrip_fixed (s : str) :
  (s = [] ∨ ∃ c t, s = c :: t ∧ is_space c = false) → lstrip s = s.
Proof. intros [->|(c & t & -> & Hc)]; [done|]. cbn [lstrip]. by rewrite Hc. Qed.

Lemma strip_idemp (s : str) : strip (strip s) = strip s.
Proof.
  unfold strip. set (a := lstrip s). set (b := lstrip (rev a)).
  assert (lstrip b = b) as Hb by (apply lstrip_fixed, lstrip_head).
  assert (lstrip (rev b) = rev b) as Hrb.
  { apply lstrip_fixed. destruct (lstrip_suffix (rev a)) as [pre Hpre].
    fold b in Hpre. apply (f_equal (λ l : list N, rev l)) in Hpre.
    rewrite rev_involutive, rev_app_distr in Hpre.
    destruct (rev b) as [|c t] eqn:Hrev; [by left|]. right. exists c, t. split; [done|].
    destruct (lstrip_head s) as [Ha|(c' & t' & Ha & Hc')]; fold a in Ha;
      rewrite Ha in Hpre; simpl in Hpre; congruence. }
  by rewrite Hrb, rev_involutive, Hb.
Qed.

Lemma split_ws_go_words (s : str) : ∀ cur word,
  no_space cur → word ∈ split_ws_go cur s → word ≠ [] ∧ no_space word.
Proof.
  assert (∀ cur : str, no_space cur → cur ≠ [] →
            rev cur ≠ [] ∧ no_space (rev cur)) as Hrev.
  { intros cur Hcur Hne. split.
    - intros Hr%(f_equal (λ l : list N, rev l)). by rewrite rev_involutive in Hr.
    - unfold no_space. rewrite rev_alt. by apply Forall_reverse. }
  induction s as [|c s IH]; intros cur word Hcur; cbn [split_ws_go].
  - destruct cur as [|c' cur']; [by intros ?%elem_of_nil|].
    intros ->%list_elem_of_singleton. by apply Hrev.
  - destruct (is_space c) eqn:Hc.
    + destruct cur as [|c' cur'].
      * apply IH. constructor.
      * intros [->|Hin]%elem_of_cons; [by apply Hrev|].
        revert Hin. apply IH. constructor.
    + apply IH. by constructor.
Qed.

Lemma parse_line_parts (line lhs : str) (alts : list (list str)) :
  parse_line line = Some (lhs, alts) →
  strip lhs = lhs ∧ alts ≠ [] ∧
  ∀ alt symbol, alt ∈ alts → symbol ∈ alt → symbol ≠ [] ∧ no_space symbol.
Proof.
  unfold parse_line. destruct (split arrow line) as [|l [|r [|??]]]; try done.
  intros [= <- <-]. split_and!.
  - apply strip_idemp.
  - pose proof (split_go_length bar r 0 []) as Hlen. unfold split.
    destruct (split_go bar 0 [] r); [simpl in Hlen; lia|done].
  - intros alt symbol (prod & -> & _)%list_elem_of_fmap.
    apply split_ws_go_words. constructor.
Qed.

Lemma elem_of_dict_set {K V} `{EqDecision K} (d : list (K * V)) k v k' v' :
  (k', v') ∈ dict_set d k v → (k', v') = (k, v) ∨ (k', v') ∈ d.
Proof.
  induction d as [|[k0 v0] d IH]; cbn [dict_set].
  - intros ->%list_elem_of_singleton. by left.
  - case_decide as Hk.
    + intros [?|?]%elem_of_cons; [by left|]. right. by right.
    + intros [->|Hin]%elem_of_cons; [right; by left|].
      destruct (IH Hin); [by left|]. right. by right.
Qed.

Lemma dict_set_nonempty {K V} `{EqDecision K} (d : list (K * V)) k v :
  dict_set d k v ≠ [].
Proof. destruct d as [|[??]?]; cbn [dict_set]; [done|]. by case_decide. Qed.

Lemma add_line_parsed (g g' : grammar) (line : str) :
  parsed_grammar g → add_line g line = Some g' → g' ≠ [] ∧ parsed_grammar g'.
Proof.
  intros [Hnd Hg]. unfold add_line.
  destruct (parse_line line) as [[lhs alts]|] eqn:Hp; [|done]. cbn [mbind option_bind].
  apply parse_line_parts in Hp as (Hlhs & Halts & Hsyms).
  destruct (dict_get g lhs) as [old|] eqn:Hold; intros [= <-].
  - split; [apply dict_set_nonempty|]. split; [by apply dict_set_NoDup|].
    intros l p [[= -> ->]|Hin]%elem_of_dict_set; [|by apply Hg].
    apply dict_get_Some_elem, Hg in Hold as (_ & Hne & Hold).
    split_and!; [done|by destruct old|].
    intros alt symbol [?|?]%elem_of_app; eauto.
  - split; [apply dict_set_nonempty|]. split; [by apply dict_set_NoDup|].
    intros l p [[= -> ->]|Hin]%elem_of_dict_set; [|by apply Hg]. done.
Qed.

Lemma get_grammar_loop_parsed (lines : list str) : ∀ g g',
  parsed_grammar g → (g ≠ [] ∨ lines ≠ []) →
  get_grammar_loop g lines = Grammar g' → g' ≠ [] ∧ parsed_grammar g'.
Proof.
  induction lines as [|line lines IH]; intros g g' Hg Hne; cbn [get_grammar_loop].
  - intros [= <-]. by destruct Hne.
  - destruct (contains arrow line); [|done].
    destruct (add_line g line) as [g1|] eqn:Hadd; [|done].
    apply add_line_parsed in Hadd as [Hne1 Hg1]; [|done].
    apply IH; [done|by left].
Qed.

(** X3. A dictionary that [get_grammar] returns is never empty; its keys
    are distinct and have no white space at either end; every key has at
    least one alternative; and every symbol of every alternative is a
    non-empty word without white space. *)
Theorem get_grammar_parsed (grammar_text : str) (g : grammar) :
  get_grammar grammar_text = Grammar g → g ≠ [] ∧ parsed_grammar g.
Proof.
  unfold get_grammar. apply get_grammar_loop_parsed.
  - split; [apply NoDup_nil_2|]. by intros lhs prods ?%elem_of_nil.
  - right. unfold get_lines, split.
    pose proof (split_go_length newline (strip grammar_text) 0 []) as Hlen.
    destruct (split_go newline 0 [] (strip grammar_text)); [simpl in Hlen; lia|done].
Qed.

Lemma get_grammar_parsed_witness :
  let g := [(lit "A", [[lit "a"; lit "B"]; []]); (lit "B", [[lit "b"]])] in
  g ≠ [] ∧ parsed_grammar g.
Proof.
  apply (get_grammar_parsed (lit " A  -> a B |" ++ newline ++ lit "B->b")).
  reflexivity.
Defined.

(** ** Augmentation *)

Section dict_update_facts.
Context {K V : Type} `{EqDecision K}.
Implicit Types (d e : list (K * V)) (k : K) (v : V).

Lemma dict_get_update e : ∀ d k,
  NoDup e.*1 →
  dict_get (dict_update d e) k =
  match dict_get e k with Some v => Some v | None => dict_get d k end.
Proof.
  unfold dict_update.
  induction e as [|[k0 v0] e IH]; intros d k Hnd; cbn [foldl fst snd dict_get]; [done|].
  rewrite fmap_cons in Hnd. cbn [fst] in Hnd. apply NoDup_cons in Hnd as [Hk0 Hnd].
  rewrite IH, dict_get_set by done. case_decide as Hk; [|done]. subst k0.
  apply dict_get_None in Hk0. by rewrite Hk0.
Qed.

Lemma dict_update_NoDup e : ∀ d, NoDup d.*1 → NoDup (dict_update d e).*1.
Proof.
  unfold dict_update. induction e as [|[k0 v0] e IH]; intros d Hnd; cbn [foldl]; [done|].
  apply IH. by apply dict_set_NoDup.
Qed.

Lemma dict_first_set d k v : d ≠ [] → dict_first (dict_set d k v) = dict_first d.
Proof.
  destruct d as [|[k0 v0] d]; [done|]. intros _. cbn [dict_set].
  case_decide; [by subst|done].
Qed.

Lemma dict_first_update e : ∀ d, d ≠ [] → dict_first (dict_update d e) = dict_first d.
Proof.
  unfold dict_update. induction e as [|[k0 v0] e IH]; intros d Hd; cbn [foldl]; [done|].
  rewrite IH by apply dict_set_nonempty. by apply dict_first_set.
Qed.
End dict_update_facts.

(** X4. For a grammar whose first nonterminal [start] is not the empty
    string, the augmented grammar has [S'] as its first key, distinct keys,
    and every nonterminal of the grammar with exactly the alternatives it
    had - also [S'] itself when the grammar defines it, in which case the
    production [S' -> start] is not there; a fresh [S'] has the single
    alternative [start]. *)
Theorem augment_grammar_lookup (g : grammar) (start : str) :
  NoDup g.*1 → dict_first g = Some start → start ≠ empty_str →
  ∃ aug, augment_grammar g = Ok aug ∧
    dict_first aug = Some S_prime ∧ NoDup aug.*1 ∧
    ∀ k, dict_get aug k =
      match dict_get g k with
      | Some prods => Some prods
      | None => if decide (k = S_prime) then Some [[start]] else None
      end.
Proof.
  intros Hnd Hfirst Hstart. unfold augment_grammar. rewrite Hfirst.
  rewrite decide_False by done. eexists. split_and!; [done| | |].
  - by rewrite dict_first_update.
  - apply dict_update_NoDup. apply NoDup_singleton.
  - intros k. rewrite dict_get_update by done.
    destruct (dict_get g k); [done|]. cbn [dict_get].
    destruct (decide (S_prime = k)) as [<-|Hne]; [by rewrite decide_True|].
    by rewrite decide_False.
Qed.

Lemma augment_grammar_lookup_witness :
  let g := [(lit "S", [[lit "a"]]); (S_prime, [[lit "b"]])] in
  ∃ aug, augment_grammar g = Ok aug ∧
    dict_first aug = Some S_prime ∧ NoDup aug.*1 ∧
    ∀ k, dict_get aug k =
      match dict_get g k with
      | Some prods => Some prods
      | None => if decide (k = S_prime) then Some [[lit "S"]] else None
      end.
Proof.
  apply (augment_grammar_lookup [(lit "S", [[lit "a"]]); (S_prime, [[lit "b"]])] (lit "S")).
  - apply NoDup_cons. split; [|apply NoDup_singleton].
    intros Hin. apply list_elem_of_singleton in Hin. discriminate.
  - reflexivity.
  - discriminate.
Defined.

(** ** Closure and goto *)

(** X5. For every grammar and item set, [closure] returns the least set
    that includes the given items and is closed under the closure rule;
    what it adds are items of the grammar. *)
Theorem closure_least_closed (ord : set_order) (g : grammar) (items : gset item) :
  ∃ cs, closure ord items g = Ok cs ∧
    items ⊆ cs ∧ closed g cs ∧ cs ⊆ items ∪ all_items g ∧
    ∀ X : gset item, items ⊆ X → closed g X → cs ⊆ X.
Proof.
  destruct (closure_spec ord g items) as (cs & Hcs & Hsub & Hcl & Hup & Hleast).
  by exists cs.
Qed.

(** X6. [closure] is monotone: a larger item set has a larger closure. *)
Theorem closure_monotone (ord : set_order) (g : grammar)
    (items1 items2 : gset item) :
  items1 ⊆ items2 →
  ∃ cs1 cs2, closure ord items1 g = Ok cs1 ∧ closure ord items2 g = Ok cs2 ∧
    cs1 ⊆ cs2.
Proof.
  intros Hsub.
  destruct (closure_spec ord g items1) as (cs1 & Hcs1 & _ & _ & _ & Hleast).
  destruct (closure_spec ord g items2) as (cs2 & Hcs2 & Hsub2 & Hcl2 & _).
  exists cs1, cs2. split_and!; [done..|]. apply Hleast; [|done]. set_solver.
Qed.

Lemma closure_monotone_witness :
  let g : grammar := [(lit "A", [[lit "a"]])] in
  ∃ cs1 cs2,
    closure elements_order ∅ g = Ok cs1 ∧
    closure elements_order {[(lit "S", [lit "A"], 0)]} g = Ok cs2 ∧
    cs1 ⊆ cs2.
Proof.
  apply (closure_monotone elements_order [(lit "A", [[lit "a"]])]
           ∅ {[(lit "S", [lit "A"], 0)]}).
  apply empty_subseteq.
Defined.

(** X7. What [closure], [goto] and the set of symbols after a dot return
    does not depend on the order in which their loops visit the items. *)
Theorem item_sets_order_independent (ord1 ord2 : set_order) (g : grammar)
    (items : gset item) (symbol : str) :
  closure ord1 items g = closure ord2 items g ∧
  goto ord1 items symbol g = goto ord2 items symbol g ∧
  symbols_after_dot ord1 items = symbols_after_dot ord2 items.
Proof.
  split_and!.
  - apply closure_order.
  - apply goto_order.
  - apply symbols_after_dot_order.
Qed.

(** X8. [goto] returns, and its result is empty exactly when no item has
    the symbol after its dot; otherwise it holds every item with the dot
    moved over the symbol, is closed, and every item in it either is such
    an advanced item or has its dot at position 0. *)
Theorem goto_result (ord : set_order) (g : grammar) (items : gset item)
    (symbol : str) :
  ∃ s', goto ord items symbol g = Ok s' ∧
    (s' = ∅ ↔ ¬ ∃ lhs rhs dot_pos,
                  (lhs, rhs, dot_pos) ∈ items ∧ rhs !! dot_pos = Some symbol) ∧
    (∀ x, advanced items symbol x → x ∈ s') ∧
    closed g s' ∧
    (∀ lhs rhs dot_pos, (lhs, rhs, dot_pos) ∈ s' →
       dot_pos = 0 ∨ advanced items symbol (lhs, rhs, dot_pos)).
Proof.
  destruct (goto_spec ord g items symbol) as (s' & Hs' & Hadv & Hcl & _ & Hleast & Hempty).
  exists s'. split_and!; [done| |done|done|].
  - by rewrite Hempty, symbols_after_dot_spec.
  - set (keep := λ x : item,
      match x.2 with
      | S d => bool_decide ((x.1.1, x.1.2, d) ∈ items ∧ x.1.2 !! d = Some symbol)
      | O => true
      end).
    assert (s' ⊆ filter (λ x, keep x = true) s') as Hsub.
    { apply Hleast.
      - intros x Hx. apply elem_of_filter. split; [|by apply Hadv].
        destruct Hx as (l & r & d & Hin & Hsym & ->). unfold keep. cbn [fst snd].
        by apply bool_decide_eq_true.
      - intros x Hx. apply elem_of_filter. split.
        + by destruct Hx as (? & ? & ? & ? & ? & ? & _ & _ & _ & _ & ->).
        + apply Hcl. eapply predicted_mono; [|done].
          intros y Hy. by apply elem_of_filter in Hy as [_ ?]. }
    intros lhs rhs dot_pos [Hkeep _]%Hsub%elem_of_filter.
    unfold keep in Hkeep. cbn [fst snd] in Hkeep.
    destruct dot_pos as [|d]; [by left|]. right.
    apply bool_decide_eq_true in Hkeep as [? ?]. by exists lhs, rhs, d.
Qed.

(** ** The automaton *)

(** A result with decidable equality is compared by evaluation. *)
Lemma res_eq_check {A} `{EqDecision A} (r : res A) (x : A) :
  match r with Ok a => bool_decide (a = x) | _ => false end = true → r = Ok x.
Proof.
  destruct r as [a| |]; [|done..]. by intros ->%bool_decide_eq_true.
Qed.

Lemma generate_lr0_items_Ok_inv (ord : set_order) (g : grammar)
    (sts : list (gset item)) (trs : list (nat * str * nat)) :
  generate_lr0_items ord g = Ok (sts, trs) →
  ∃ w s0, sts = states w ∧ trs = transitions w ∧
    lr0_inv ord g s0 (length (states w)) (λ i _, i < length (states w)) w ∧
    ∀ start rhs prods rest, g = (start, rhs :: prods) :: rest →
      closure ord {[(start, rhs, 0)]} g = Ok s0.
Proof.
  intros Hgen. destruct g as [|[start [|rhs prods]] rest]; [done..|].
  destruct (generate_lr0_items_inv ord _ start rhs prods rest eq_refl)
    as (w & s0 & Hgen' & Hs0 & Hinv).
  rewrite Hgen in Hgen'. injection Hgen' as -> ->. exists w, s0.
  split_and!; [done..|]. by intros ? ? ? ? [= <- <- <- <-].
Qed.

Lemma reachable_closed (ord : set_order) (g : grammar) (s : gset item) :
  reachable ord g s → s ≠ ∅ ∧ closed g s.
Proof.
  induction 1 as [start rhs prods rest s0 Hg Hcl|s symbol s' Hs IH Hsym Hgoto].
  - destruct (closure_spec ord g {[(start, rhs, 0)]}) as (cs & Hcs & Hsub & Hclosed & _).
    rewrite Hcl in Hcs. injection Hcs as <-. split; [set_solver|done].
  - destruct (goto_spec ord g s symbol) as (s1 & Hs1 & _ & Hclosed & _ & _ & Hempty).
    rewrite Hgoto in Hs1. injection Hs1 as <-. split; [|done].
    intros Hs'. by apply Hempty in Hs'.
Qed.

(** X9. In what [generate_lr0_items] returns, no state is empty, every
    state is closed under the closure rule, every item of a state is a
    production of the grammar with the dot inside or at the end of its
    right-hand side, and every transition goes from a state to a state of
    the list. *)
Theorem generate_lr0_items_well_formed (ord : set_order) (g : grammar)
    (sts : list (gset item)) (trs : list (nat * str * nat)) :
  generate_lr0_items ord g = Ok (sts, trs) →
  (∀ s, s ∈ sts → s ≠ ∅ ∧ closed g s) ∧
  (∀ s lhs rhs dot_pos, s ∈ sts → (lhs, rhs, dot_pos) ∈ s →
     ∃ prods, (lhs, prods) ∈ g ∧ rhs ∈ prods ∧ dot_pos ≤ length rhs) ∧
  (∀ i symbol j, (i, symbol, j) ∈ trs → i < length sts ∧ j < length sts).
Proof.
  intros (w & s0 & -> & -> & Hinv & _)%generate_lr0_items_Ok_inv. split_and!.
  - intros s Hs. eapply reachable_closed. by eapply inv_reach.
  - intros s lhs rhs dot_pos Hs Hin. apply elem_of_all_items.
    eapply reachable_items; [|done]. by eapply inv_reach.
  - intros i symbol j Hin. apply dict_get_NoDup in Hin; [|by eapply inv_keys].
    apply (inv_sound _ _ _ _ _ _ Hinv) in Hin as (s & s' & Hi & _ & _ & Hj).
    split; by eapply lookup_lt_Some.
Qed.

Lemma generate_lr0_items_well_formed_witness :
  let g := [(S_prime, [[lit "S"]]); (lit "S", [[lit "a"]])] in
  let sts : list (gset item) :=
    [ {[(S_prime, [lit "S"], 0); (lit "S", [lit "a"], 0)]};
      {[(lit "S", [lit "a"], 1)]}; {[(S_prime, [lit "S"], 1)]} ] in
  let trs := [(0, lit "a", 1); (0, lit "S", 2)] in
  (∀ s, s ∈ sts → s ≠ ∅ ∧ closed g s) ∧
  (∀ s lhs rhs dot_pos, s ∈ sts → (lhs, rhs, dot_pos) ∈ s →
     ∃ prods, (lhs, prods) ∈ g ∧ rhs ∈ prods ∧ dot_pos ≤ length rhs) ∧
  (∀ i symbol j, (i, symbol, j) ∈ trs → i < length sts ∧ j < length sts).
Proof.
  apply (generate_lr0_items_well_formed elements_order
           [(S_prime, [[lit "S"]]); (lit "S", [[lit "a"]])]).
  apply res_eq_check. vm_compute. reflexivity.
Defined.

Lemma reachable_order (ord1 ord2 : set_order) (g : grammar) (s : gset item) :
  reachable ord1 g s → reachable ord2 g s.
Proof.
  induction 1 as [start rhs prods rest s0 Hg Hcl|s symbol s' Hs IH Hsym Hgoto].
  - eapply reachable_initial; [done|]. by rewrite (closure_order ord2 ord1).
  - eapply reachable_goto; [done| |].
    + by rewrite (symbols_after_dot_order ord2 ord1).
    + by rewrite (goto_order ord2 ord1).
Qed.

(** The states and transitions of a run, as item sets. *)
Lemma generate_lr0_items_graph (ord : set_order) (g : grammar)
    (sts : list (gset item)) (trs : list (nat * str * nat)) :
  generate_lr0_items ord g = Ok (sts, trs) →
  NoDup sts ∧
  (∀ s, s ∈ sts ↔ reachable ord g s) ∧
  (∀ s symbol s',
     (∃ i j, sts !! i = Some s ∧ (i, symbol, j) ∈ trs ∧ sts !! j = Some s') ↔
     s ∈ sts ∧ symbol ∈ symbols_after_dot ord s ∧ goto ord s symbol g = Ok s').
Proof.
  intros Hgen.
  destruct (generate_lr0_items_Ok_inv _ _ _ _ Hgen) as (w & s0 & -> & -> & Hinv & Hs0).
  split_and!.
  - by eapply lr0_inv_NoDup.
  - intros s. split; [by eapply inv_reach|].
    induction 1 as [start rhs prods rest s1 Hg Hcl|s symbol s' Hs IH Hsym Hgoto].
    + rewrite (Hs0 _ _ _ _ Hg) in Hcl. injection Hcl as <-.
      eapply list_elem_of_lookup_2. by eapply inv_init.
    + apply list_elem_of_lookup_1 in IH as [i Hi].
      destruct (lr0_inv_goto ord g s0 w i s s' symbol) as (j & _ & Hj); [done..|].
      by eapply list_elem_of_lookup_2.
  - intros s symbol s'. split.
    + intros (i & j & Hi & Hin & Hj).
      apply dict_get_NoDup in Hin; [|by eapply inv_keys].
      apply (inv_sound _ _ _ _ _ _ Hinv) in Hin as (s1 & s1' & Hi1 & Hsym & Hgoto & Hj1).
      rewrite Hi in Hi1. injection Hi1 as <-. rewrite Hj in Hj1. injection Hj1 as <-.
      split_and!; [by eapply list_elem_of_lookup_2|done..].
    + intros ([i Hi]%list_elem_of_lookup_1 & Hsym & Hgoto).
      destruct (lr0_inv_goto ord g s0 w i s s' symbol) as (j & Hin & Hj); [done..|].
      exists i, j. split_and!; [done| |done]. by apply dict_get_Some_elem.
Qed.

(** X10. The automaton does not depend on the order in which the loops
    visit sets, except for the numbering of the states: two runs return the
    same item sets (a permutation of each other, with the same state 0),
    and the same transitions between item sets. *)
Theorem generate_lr0_items_order (ord1 ord2 : set_order) (g : grammar)
    (sts1 sts2 : list (gset item)) (trs1 trs2 : list (nat * str * nat)) :
  generate_lr0_items ord1 g = Ok (sts1, trs1) →
  generate_lr0_items ord2 g = Ok (sts2, trs2) →
  sts1 ≡ₚ sts2 ∧ sts1 !! 0 = sts2 !! 0 ∧
  ∀ s symbol s',
    (∃ i j, sts1 !! i = Some s ∧ (i, symbol, j) ∈ trs1 ∧ sts1 !! j = Some s') ↔
    (∃ i j, sts2 !! i = Some s ∧ (i, symbol, j) ∈ trs2 ∧ sts2 !! j = Some s').
Proof.
  intros Hgen1 Hgen2.
  destruct (generate_lr0_items_graph _ _ _ _ Hgen1) as (Hnd1 & Hre1 & Htr1).
  destruct (generate_lr0_items_graph _ _ _ _ Hgen2) as (Hnd2 & Hre2 & Htr2).
  assert (∀ s, s ∈ sts1 ↔ s ∈ sts2) as Hsame.
  { intros s. rewrite Hre1, Hre2. split; apply reachable_order. }
  split_and!.
  - by apply NoDup_Permutation.
  - destruct (generate_lr0_items_Ok_inv _ _ _ _ Hgen1) as (w1 & a1 & -> & _ & Hinv1 & Ha1).
    destruct (generate_lr0_items_Ok_inv _ _ _ _ Hgen2) as (w2 & a2 & -> & _ & Hinv2 & Ha2).
    rewrite (inv_init _ _ _ _ _ _ Hinv1), (inv_init _ _ _ _ _ _ Hinv2).
    destruct g as [|[start [|rhs prods]] rest]; [done..|].
    specialize (Ha1 _ _ _ _ eq_refl). specialize (Ha2 _ _ _ _ eq_refl).
    rewrite (closure_order ord1 ord2) in Ha1. congruence.
  - intros s symbol s'. rewrite Htr1, Htr2, Hsame.
    by rewrite (symbols_after_dot_order ord1 ord2), (goto_order ord1 ord2).
Qed.

Lemma generate_lr0_items_order_witness :
  let sts1 : list (gset item) :=
    [ {[(S_prime, [lit "S"], 0); (lit "S", [lit "a"], 0); (lit "S", [lit "b"], 0)]};
      {[(lit "S", [lit "b"], 1)]}; {[(lit "S", [lit "a"], 1)]};
      {[(S_prime, [lit "S"], 1)]} ] in
  let trs1 := [(0, lit "b", 1); (0, lit "a", 2); (0, lit "S", 3)] in
  let sts2 : list (gset item) :=
    [ {[(S_prime, [lit "S"], 0); (lit "S", [lit "a"], 0); (lit "S", [lit "b"], 0)]};
      {[(S_prime, [lit "S"], 1)]}; {[(lit "S", [lit "a"], 1)]};
      {[(lit "S", [lit "b"], 1)]} ] in
  let trs2 := [(0, lit "S", 1); (0, lit "a", 2); (0, lit "b", 3)] in
  sts1 ≡ₚ sts2 ∧ sts1 !! 0 = sts2 !! 0 ∧
  ∀ s symbol s',
    (∃ i j, sts1 !! i = Some s ∧ (i, symbol, j) ∈ trs1 ∧ sts1 !! j = Some s') ↔
    (∃ i j, sts2 !! i = Some s ∧ (i, symbol, j) ∈ trs2 ∧ sts2 !! j = Some s').
Proof.
  apply (generate_lr0_items_order elements_order reverse_order
           [(S_prime, [[lit "S"]]); (lit "S", [[lit "a"]; [lit "b"]])]).
  - apply res_eq_check. vm_compute. reflexivity.
  - apply res_eq_check. vm_compute. reflexivity.
Defined.

(** ** FIRST and FOLLOW *)

(** What holds before a loop and is kept by every round that returns holds
    when the loop returns. *)
Lemma for_each_Ok_inv {A St} (body : St → A → res St) (I : St → Prop) (l : list A) :
  (∀ s a s', a ∈ l → I s → body s a = Ok s' → I s') →
  ∀ s s', I s → for_each body s l = Ok s' → I s'.
Proof.
  induction l as [|a l IH]; intros Hbody s s' Hs; cbn [for_each].
  - by intros [= <-].
  - intros (s1 & Hs1 & Hrest)%bind_Ok. eapply IH; [|by eapply Hbody; [left|..]|done].
    intros s2 a2 s2' Ha2. apply Hbody. by right.
Qed.

Lemma elem_of_set_update (t : gmap str (gset str)) (key k x : str) (xs : gset str) :
  x ∈ set_update key xs t !!! k →
  x ∈ t !!! k ∨ (k = key ∧ x ∈ xs ∧ key ∈ dom t).
Proof.
  unfold set_update. rewrite lookup_total_alter. case_decide as Hk; [|by left].
  subst k. rewrite lookup_total_alt. destruct (t !! key) as [s|] eqn:Hs; cbn.
  - rewrite elem_of_union. intros [Hx|Hx]; [right|by left].
    split_and!; [done..|]. by apply elem_of_dom.
  - by intros ?%elem_of_empty.
Qed.

Lemma elem_of_set_add (t : gmap str (gset str)) (key k x y : str) :
  x ∈ set_add key y t !!! k → x ∈ t !!! k ∨ (k = key ∧ x = y ∧ key ∈ dom t).
Proof.
  intros [?|(? & ?%elem_of_singleton & ?)]%(elem_of_set_update t key k x {[y]}); auto.
Qed.

Lemma set_update_lookup_total (t : gmap str (gset str)) (key : str) (xs : gset str) :
  key ∈ dom t → set_update key xs t !!! key = xs ∪ t !!! key.
Proof.
  intros [s Hs]%elem_of_dom. unfold set_update.
  by rewrite lookup_total_alter_eq, lookup_total_alt, Hs.
Qed.

Lemma set_add_lookup_total (t : gmap str (gset str)) (key x : str) :
  key ∈ dom t → x ∈ set_add key x t !!! key.
Proof.
  intros [s Hs]%elem_of_dom. unfold set_add.
  rewrite lookup_total_alter_eq, Hs. set_solver.
Qed.

Lemma set_update_lookup_ne (t : gmap str (gset str)) (key k : str) (xs : gset str) :
  key ≠ k → set_update key xs t !! k = t !! k.
Proof. apply lookup_alter_ne. Qed.

Lemma dom_set_update (t : gmap str (gset str)) (key : str) (xs : gset str) :
  dom (set_update key xs t) = dom t.
Proof. apply dom_alter_L. Qed.

Lemma dom_set_add (t : gmap str (gset str)) (key x : str) :
  dom (set_add key x t) = dom t.
Proof. apply dom_alter_L. Qed.

(** *** The keys of the two tables *)

Lemma walk_production_dom
    (call : gmap str (gset str) → str → res (gmap str (gset str)))
    (g : grammar) (symbol : str) (production : list str) :
  (∀ t x t', dict_mem g x = true → call t x = Ok t' →
     dom t' ⊆ dom t ∪ nonterminals g) →
  ∀ t t', walk_production call g symbol t production = Ok t' →
    dom t' ⊆ dom t ∪ nonterminals g.
Proof.
  intros Hcall. induction production as [|y rest IH]; intros t t'; cbn [walk_production].
  - intros [= <-]. rewrite dom_set_add. set_solver.
  - destruct (dict_mem g y) eqn:Hy.
    + intros (t1 & Ht1%Hcall & Hrest)%bind_Ok; [|done]. case_decide.
      * apply IH in Hrest. rewrite dom_set_update in Hrest. set_solver.
      * injection Hrest as <-. rewrite dom_set_update. set_solver.
    + intros [= <-]. rewrite dom_set_add. set_solver.
Qed.

Lemma compute_first_dom (g : grammar) (fuel : nat) :
  ∀ (t : gmap str (gset str)) (symbol : str) (t' : gmap str (gset str)),
    compute_first fuel g t symbol = Ok t' →
    dom t' ⊆ dom t ∪ nonterminals g ∪ {[symbol]}.
Proof.
  induction fuel as [|fuel IH]; intros t symbol t'; [done|].
  cbn [compute_first]. case_decide; [intros [= <-]; set_solver|].
  apply (for_each_Ok_inv _ (λ u, dom u ⊆ dom t ∪ nonterminals g ∪ {[symbol]})).
  - intros u production u' _ Hu. case_decide.
    + intros [= <-]. by rewrite dom_set_add.
    + intros Hwalk%walk_production_dom; [set_solver|].
      intros t1 x t1' Hx%dict_mem_nonterminals Hcall%IH. set_solver.
  - rewrite dom_insert_L. set_solver.
Qed.

Lemma compute_first_all_dom (g : grammar) (first : gmap str (gset str)) :
  compute_first_all g = Ok first → dom first ⊆ nonterminals g.
Proof.
  unfold compute_first_all.
  apply (for_each_Ok_inv _ (λ u, dom u ⊆ nonterminals g)); [|set_solver].
  intros u nt u' Hnt Hu Hcall%compute_first_dom.
  assert (nt ∈ nonterminals g) by by apply elem_of_list_to_set. set_solver.
Qed.

Lemma follow_occurrence_dom
    (call : gmap str (gset str) → str → res (gmap str (gset str)))
    (g : grammar) (first : gmap str (gset str)) (symbol lhs : str)
    (rhs : list str) (occurrence : nat * str) (t t' : gmap str (gset str)) :
  (∀ u u', call u lhs = Ok u' → dom u' ⊆ dom u ∪ nonterminals g) →
  follow_occurrence call g first symbol lhs rhs t occurrence = Ok t' →
  dom t' ⊆ dom t ∪ nonterminals g.
Proof.
  intros Hcall. destruct occurrence as [i y]. unfold follow_occurrence.
  repeat first
    [ case_decide | case_match | intros [= <-]
    | intros (u & Hu%Hcall & [= <-])%bind_Ok ];
    rewrite ?dom_set_update, ?dom_set_add in *; try done; set_solver.
Qed.

Lemma compute_follow_dom (g : grammar) (first : gmap str (gset str)) (fuel : nat) :
  ∀ (t : gmap str (gset str)) (symbol : str) (t' : gmap str (gset str)),
    compute_follow fuel g first t symbol = Ok t' →
    dom t' ⊆ dom t ∪ nonterminals g ∪ {[symbol]}.
Proof.
  induction fuel as [|fuel IH]; intros t symbol t'; [done|].
  cbn [compute_follow]. case_decide; [intros [= <-]; set_solver|].
  destruct (dict_first g) as [start|]; [|done].
  apply (for_each_Ok_inv _ (λ u, dom u ⊆ dom t ∪ nonterminals g ∪ {[symbol]})).
  - intros u [lhs rhs_list] u' Hlhs Hu.
    assert (lhs ∈ nonterminals g) as Hnt.
    { apply elem_of_list_to_set, list_elem_of_fmap. by exists (lhs, rhs_list). }
    apply (for_each_Ok_inv _ (λ u, dom u ⊆ dom t ∪ nonterminals g ∪ {[symbol]}));
      [|done].
    intros u1 rhs u1' _ Hu1.
    apply (for_each_Ok_inv _ (λ u, dom u ⊆ dom t ∪ nonterminals g ∪ {[symbol]}));
      [|done].
    intros u2 occurrence u2' _ Hu2 Hocc%follow_occurrence_dom; [set_solver|].
    intros u3 u3' Hcall%IH. set_solver.
  - case_decide; rewrite ?dom_set_add, dom_insert_L; set_solver.
Qed.

Lemma compute_follow_all_dom (g : grammar) (first follow : gmap str (gset str)) :
  compute_follow_all g first = Ok follow → dom follow ⊆ nonterminals g.
Proof.
  unfold compute_follow_all.
  apply (for_each_Ok_inv _ (λ u, dom u ⊆ nonterminals g)); [|set_solver].
  intros u nt u' Hnt Hu Hcall%compute_follow_dom.
  assert (nt ∈ nonterminals g) by by apply elem_of_list_to_set. set_solver.
Qed.

(** *** How deep the recursion goes *)

Lemma for_each_Ok_ext {A St} (body body' : St → A → res St) (l : list A) :
  (∀ s a s', a ∈ l → body s a = Ok s' → body' s a = Ok s') →
  ∀ s s', for_each body s l = Ok s' → for_each body' s l = Ok s'.
Proof.
  induction l as [|a l IH]; intros Hbody s s'; cbn [for_each]; [done|].
  intros (s1 & Hs1 & Hrest)%bind_Ok. rewrite (Hbody s a s1); [|by left|done].
  cbn [mbind res_bind]. apply IH; [|done]. intros s2 a2 s2' Ha2. apply Hbody. by right.
Qed.

Lemma walk_production_call_mono
    (call call' : gmap str (gset str) → str → res (gmap str (gset str)))
    (g : grammar) (symbol : str) (production : list str) :
  (∀ t y t', call t y = Ok t' → call' t y = Ok t') →
  ∀ t t', walk_production call g symbol t production = Ok t' →
    walk_production call' g symbol t production = Ok t'.
Proof.
  intros Hcall. induction production as [|y rest IH]; intros t t';
    cbn [walk_production]; [done|].
  destruct (dict_mem g y); [|done].
  intros (t1 & Ht1%Hcall & Hrest)%bind_Ok. rewrite Ht1. cbn [mbind res_bind].
  case_decide; [by apply IH|done].
Qed.

(** A call that returns within some depth returns the same with more. *)
Lemma compute_first_depth_mono (g : grammar) (fuel : nat) :
  ∀ (fuel' : nat) (t : gmap str (gset str)) (symbol : str)
    (t' : gmap str (gset str)),
    fuel ≤ fuel' → compute_first fuel g t symbol = Ok t' →
    compute_first fuel' g t symbol = Ok t'.
Proof.
  induction fuel as [|fuel IH]; intros fuel' t symbol t' Hle; [done|].
  destruct fuel' as [|fuel']; [lia|]. cbn [compute_first].
  case_decide; [done|]. apply for_each_Ok_ext.
  intros u production u' _. case_decide; [done|].
  apply walk_production_call_mono. intros u1 y u1'. apply IH. lia.
Qed.

Lemma follow_occurrence_call_mono
    (call call' : gmap str (gset str) → str → res (gmap str (gset str)))
    (g : grammar) (first : gmap str (gset str)) (symbol lhs : str)
    (rhs : list str) (occurrence : nat * str) (t t' : gmap str (gset str)) :
  (∀ u u', call u lhs = Ok u' → call' u lhs = Ok u') →
  follow_occurrence call g first symbol lhs rhs t occurrence = Ok t' →
  follow_occurrence call' g first symbol lhs rhs t occurrence = Ok t'.
Proof.
  intros Hcall. destruct occurrence as [i y]. unfold follow_occurrence.
  assert (∀ u u', (follow ← call u lhs;
                   Ok (set_update symbol (follow !!! lhs) follow)) = Ok u' →
                  (follow ← call' u lhs;
                   Ok (set_update symbol (follow !!! lhs) follow)) = Ok u') as Hcall'.
  { intros u u' (u1 & Hu1%Hcall & Hres)%bind_Ok. by rewrite Hu1. }
  case_decide; [|done]. destruct (rhs !! (i + 1)) as [next_symbol|].
  - destruct (dict_mem g next_symbol); [|done].
    destruct (first !! next_symbol) as [next_sym_first|]; [|done].
    case_decide; [apply Hcall'|done].
  - case_decide; [apply Hcall'|done].
Qed.

Lemma compute_follow_depth_mono (g : grammar) (first : gmap str (gset str))
    (fuel : nat) :
  ∀ (fuel' : nat) (t : gmap str (gset str)) (symbol : str)
    (t' : gmap str (gset str)),
    fuel ≤ fuel' → compute_follow fuel g first t symbol = Ok t' →
    compute_follow fuel' g first t symbol = Ok t'.
Proof.
  induction fuel as [|fuel IH]; intros fuel' t symbol t' Hle; [done|].
  destruct fuel' as [|fuel']; [lia|]. cbn [compute_follow].
  case_decide; [done|]. destruct (dict_first g) as [start|]; [|done].
  apply for_each_Ok_ext. intros u [lhs rhs_list] u' _.
  apply for_each_Ok_ext. intros u1 rhs u1' _.
  apply for_each_Ok_ext. intros u2 occurrence u2' _.
  apply follow_occurrence_call_mono. intros v v'. apply IH. lia.
Qed.

(** With room for one call more than there are nonterminals, the loop
    over [compute_first] is not cut short. *)
Lemma compute_first_loop_total (g : grammar) (depth : nat) :
  size (nonterminals g) < depth →
  ∃ first, for_each (compute_first depth g) ∅ g.*1 = Ok first.
Proof.
  intros Hdepth.
  assert (∀ (l : list str) (first : gmap str (gset str)),
            ∃ first', for_each (compute_first depth g) first l = Ok first') as Hloop.
  { induction l as [|nt l IHl]; intros first; cbn [for_each]; [by eexists|].
    destruct (compute_first_total g depth first nt) as (first1 & -> & _).
    { pose proof (subseteq_size (nonterminals g ∖ dom first) (nonterminals g)) as Hs.
      assert (nonterminals g ∖ dom first ⊆ nonterminals g) as Hsub%Hs by set_solver.
      lia. }
    cbn [mbind res_bind]. apply IHl. }
  apply Hloop.
Qed.

Lemma compute_follow_loop_total (g : grammar) (first : gmap str (gset str))
    (start : str) (depth : nat) :
  dict_first g = Some start → nonterminals g ⊆ dom first →
  size (nonterminals g) < depth →
  ∃ follow, for_each (compute_follow depth g first) ∅ g.*1 = Ok follow.
Proof.
  intros Hstart Hfirst Hdepth.
  assert (∀ (l : list str) (follow : gmap str (gset str)),
            (∀ nt, nt ∈ l → nt ∈ nonterminals g) →
            ∃ follow', for_each (compute_follow depth g first) follow l = Ok follow')
    as Hloop.
  { induction l as [|nt l IHl]; intros follow Hl; cbn [for_each]; [by eexists|].
    destruct (compute_follow_total g first start Hstart Hfirst depth follow nt)
      as (follow1 & -> & _).
    { apply Hl. by left. }
    { pose proof (subseteq_size (nonterminals g ∖ dom follow) (nonterminals g)) as Hs.
      assert (nonterminals g ∖ dom follow ⊆ nonterminals g) as Hsub%Hs by set_solver.
      lia. }
    cbn [mbind res_bind]. apply IHl. intros nt' Hnt'. apply Hl. by right. }
  apply Hloop. intros nt Hnt. by apply elem_of_list_to_set.
Qed.

(** X11. When the loops over [compute_first] and [compute_follow] return,
    both tables have one entry for each nonterminal and no other entry, and
    [$] is in FOLLOW of the first nonterminal. The calls are then never
    nested deeper than one more than the number of nonterminals, whether the
    grammar is left-recursive or not: a run in which the nesting of the
    calls is cut at any such depth returns the same two tables. What the
    interpreter does at its own limit on the depth of recursion is outside
    the model; a table is the result of a run that stays below it. *)
Theorem first_follow_tables (g : grammar) (start : str)
    (first follow : gmap str (gset str)) :
  dict_first g = Some start →
  compute_first_all g = Ok first →
  compute_follow_all g first = Ok follow →
  dom first = nonterminals g ∧ dom follow = nonterminals g ∧
  dollar ∈ follow !!! start ∧
  ∀ depth, size (nonterminals g) < depth →
    for_each (compute_first depth g) ∅ g.*1 = Ok first ∧
    for_each (compute_follow depth g first) ∅ g.*1 = Ok follow.
Proof.
  intros Hstart Hfirst Hfollow.
  destruct (compute_first_all_total g) as (first0 & Hfirst0 & Hdom).
  rewrite Hfirst in Hfirst0. injection Hfirst0 as <-.
  destruct (compute_follow_all_total g first start Hstart Hdom)
    as (follow0 & Hfollow0 & Hdom' & Hdollar).
  rewrite Hfollow in Hfollow0. injection Hfollow0 as <-.
  split_and!; [| |done|].
  - apply (anti_symm (⊆)); [by apply compute_first_all_dom|done].
  - apply (anti_symm (⊆)); [by eapply compute_follow_all_dom|done].
  - intros depth Hdepth. split.
    + destruct (compute_first_loop_total g depth Hdepth) as (first1 & Hfirst1).
      rewrite Hfirst1. f_equal.
      apply (for_each_Ok_ext _ (compute_first (depth `max` S (length g)) g))
        in Hfirst1; [|intros t nt t' _; apply compute_first_depth_mono; lia].
      unfold compute_first_all in Hfirst.
      apply (for_each_Ok_ext _ (compute_first (depth `max` S (length g)) g))
        in Hfirst; [|intros t nt t' _; apply compute_first_depth_mono; lia].
      congruence.
    + destruct (compute_follow_loop_total g first start depth Hstart Hdom Hdepth)
        as (follow1 & Hfollow1).
      rewrite Hfollow1. f_equal.
      apply (for_each_Ok_ext _ (compute_follow (depth `max` S (length g)) g first))
        in Hfollow1; [|intros t nt t' _; apply compute_follow_depth_mono; lia].
      unfold compute_follow_all in Hfollow.
      apply (for_each_Ok_ext _ (compute_follow (depth `max` S (length g)) g first))
        in Hfollow; [|intros t nt t' _; apply compute_follow_depth_mono; lia].
      congruence.
Qed.

Lemma first_follow_tables_witness :
  let g := [(lit "E", [[lit "E"; lit "+"; lit "T"]; [lit "T"]]);
            (lit "T", [[lit "T"; lit "*"; lit "F"]; [lit "F"]]);
            (lit "F", [[lit "("; lit "E"; lit ")"]; [lit "id"]])] in
  let first : gmap str (gset str) :=
    {[ lit "E" := {[lit "("; lit "id"]}; lit "T" := {[lit "("; lit "id"]};
       lit "F" := {[lit "("; lit "id"]} ]} in
  let follow : gmap str (gset str) :=
    {[ lit "E" := {[dollar; lit "+"; lit ")"]};
       lit "T" := {[dollar; lit "+"; lit "*"; lit ")"]};
       lit "F" := {[dollar; lit "+"; lit "*"; lit ")"]} ]} in
  dom first = nonterminals g ∧ dom follow = nonterminals g ∧
  dollar ∈ follow !!! lit "E" ∧
  ∀ depth, size (nonterminals g) < depth →
    for_each (compute_first depth g) ∅ g.*1 = Ok first ∧
    for_each (compute_follow depth g first) ∅ g.*1 = Ok follow.
Proof.
  apply (first_follow_tables
           [(lit "E", [[lit "E"; lit "+"; lit "T"]; [lit "T"]]);
            (lit "T", [[lit "T"; lit "*"; lit "F"]; [lit "F"]]);
            (lit "F", [[lit "("; lit "E"; lit ")"]; [lit "id"]])]
           (lit "E")).
  - reflexivity.
  - apply res_eq_check. vm_compute. reflexivity.
  - apply res_eq_check. vm_compute. reflexivity.
Defined.

(** *** The table of [compute_first] stays below every solution *)

Section first_below.
Context (g : grammar) (F : str → str → Prop).
Hypothesis HF : ∀ lhs prods rhs x,
  dict_get g lhs = Some prods → rhs ∈ prods → seq_has g F rhs x → F lhs x.
Hypothesis Heps : epsilon_free g.

Lemma epsilon_free_elem (lhs : str) (prods : list (list str)) (rhs : list str) :
  dict_get g lhs = Some prods → rhs ∈ prods → rhs ≠ [empty_str] ∧ epsilon ∉ rhs.
Proof.
  intros Hprods%dict_get_Some_elem Hrhs. unfold epsilon_free in Heps.
  rewrite Forall_forall in Heps. specialize (Heps _ Hprods). cbn in Heps.
  rewrite Forall_forall in Heps. by apply Heps.
Qed.

Lemma walk_production_below
    (call : gmap str (gset str) → str → res (gmap str (gset str)))
    (symbol : str) (rest : list str) :
  (∀ t y t', below F t → call t y = Ok t' → below F t') →
  (∀ x, seq_has g F rest x → F symbol x) →
  epsilon ∉ rest →
  ∀ t t', below F t → walk_production call g symbol t rest = Ok t' → below F t'.
Proof.
  intros Hcall. induction rest as [|y rest IH]; intros Hseq Hne t t' Ht;
    cbn [walk_production].
  - intros [= <-] k x [Hx|(-> & -> & _)]%elem_of_set_add; [by apply Ht|].
    by apply Hseq.
  - apply not_elem_of_cons in Hne as [Hy Hne]. cbn [seq_has] in Hseq.
    destruct (dict_mem g y) eqn:Hmem.
    + intros (t1 & Ht1 & Hrest)%bind_Ok. apply Hcall in Ht1; [|done].
      assert (below F (set_update symbol (t1 !!! y ∖ {[epsilon]}) t1)) as Ht2.
      { intros k x [Hx|(-> & [Hx Hxe]%elem_of_difference & _)]%elem_of_set_update;
          [by apply Ht1|].
        apply Hseq. left. split; [by apply Ht1|]. by rewrite elem_of_singleton in Hxe. }
      case_decide as He; [|by injection Hrest as <-].
      eapply IH; [|done|done|done]. intros x Hx. apply Hseq. right.
      split; [by apply Ht1|done].
    + intros [= <-] k x [Hx|(-> & -> & _)]%elem_of_set_add; [by apply Ht|].
      apply Hseq. left. split; [done|congruence].
Qed.

Lemma compute_first_below (fuel : nat) :
  ∀ (t : gmap str (gset str)) (symbol : str) (t' : gmap str (gset str)),
    below F t → compute_first fuel g t symbol = Ok t' → below F t'.
Proof.
  induction fuel as [|fuel IH]; intros t symbol t' Ht; [done|].
  cbn [compute_first]. case_decide; [by intros [= <-]|].
  apply (for_each_Ok_inv _ (below F)).
  - intros u production u' Hprod Hu.
    destruct (dict_get g symbol) as [prods|] eqn:Hprods;
      [|by apply elem_of_nil in Hprod].
    cbn [default] in Hprod.
    destruct (epsilon_free_elem symbol prods production) as [Hne Hnoeps]; [done..|].
    case_decide; [done|].
    apply walk_production_below; [by apply IH| |done..].
    intros x Hx. by eapply HF.
  - intros k x. rewrite lookup_total_insert. case_decide; [set_solver|apply Ht].
Qed.

Lemma compute_first_all_below (first : gmap str (gset str)) :
  compute_first_all g = Ok first → below F first.
Proof.
  unfold compute_first_all. apply (for_each_Ok_inv _ (below F)).
  - intros u nt u' _ Hu. by apply compute_first_below.
  - intros k x. rewrite lookup_total_empty. set_solver.
Qed.
End first_below.

Lemma seq_has_first_of_seq (g : grammar) (first : gmap str (gset str))
    (rhs : list str) (x : str) :
  seq_has g (λ k x, x ∈ first !!! k) rhs x → x ∈ first_of_seq g first rhs.
Proof.
  induction rhs as [|y rest IH]; cbn [seq_has first_of_seq].
  - intros ->. by apply elem_of_singleton.
  - unfold first_of_symbol. destruct (dict_mem g y).
    + intros [[Hx Hne]|[He Hx]]; [set_solver|]. rewrite decide_True by done. set_solver.
    + intros [[-> Hne]|[-> Hx]]; [set_solver|].
      rewrite decide_True by set_solver. set_solver.
Qed.

(** X12. FIRST as computed never has a symbol too many. When no
    alternative of the grammar uses [ε] as a symbol or is the single empty
    string, every symbol that [compute_first] puts into the entry of a
    nonterminal is in that entry in every solution of the FIRST equations,
    so in FIRST proper: where the memoised recursion departs from FIRST, it
    is by leaving symbols out. *)
Theorem compute_first_sound (g : grammar) (first solution : gmap str (gset str)) :
  epsilon_free g →
  compute_first_all g = Ok first →
  first_closed g solution →
  ∀ lhs, first !!! lhs ⊆ solution !!! lhs.
Proof.
  intros Heps Hfirst Hclosed lhs x Hx.
  eapply (compute_first_all_below g (λ k x, x ∈ solution !!! k)); [|done..].
  intros lhs' prods rhs x' Hprods Hrhs Hseq.
  eapply Hclosed; [done..|]. by apply seq_has_first_of_seq.
Qed.

(** A table is checked against the FIRST equations alternative by
    alternative. *)
Lemma first_closed_check (g : grammar) (first : gmap str (gset str)) :
  Forall (λ lp : str * list (list str),
            Forall (λ rhs, first_of_seq g first rhs ⊆ first !!! lp.1) lp.2) g →
  first_closed g first.
Proof.
  rewrite Forall_forall. intros Hall lhs prods rhs Hprods%dict_get_Some_elem Hrhs.
  specialize (Hall _ Hprods). rewrite Forall_forall in Hall. by apply Hall.
Qed.

Lemma compute_first_sound_witness :
  let first : gmap str (gset str) :=
    {[ lit "A" := {[lit "x"; lit "y"]}; lit "B" := {[lit "y"]} ]} in
  let solution : gmap str (gset str) :=
    {[ lit "A" := {[lit "x"; lit "y"]}; lit "B" := {[lit "x"; lit "y"]} ]} in
  first !!! lit "B" ⊆ solution !!! lit "B".
Proof.
  apply (compute_first_sound
           [(lit "A", [[lit "B"; lit "a"]; [lit "x"]]);
            (lit "B", [[lit "A"; lit "b"]; [lit "y"]])]
           {[ lit "A" := {[lit "x"; lit "y"]}; lit "B" := {[lit "y"]} ]}
           {[ lit "A" := {[lit "x"; lit "y"]}; lit "B" := {[lit "x"; lit "y"]} ]}).
  - unfold epsilon_free. apply (bool_decide_eq_true_1 _). vm_compute. reflexivity.
  - apply res_eq_check. vm_compute. reflexivity.
  - apply first_closed_check, (bool_decide_eq_true_1 _). vm_compute. reflexivity.
Defined.

(** *** FIRST is exact when the only left recursion is direct *)

(** A loop that returns has kept its invariant, and has established for
    each element what its round establishes, when later rounds keep that. *)
Lemma for_each_Ok_collect {A St} (body : St → A → res St) (I : St → Prop)
    (Q : A → St → Prop) (l : list A) :
  (∀ s a s', a ∈ l → I s → body s a = Ok s' →
     I s' ∧ Q a s' ∧ ∀ b, Q b s → Q b s') →
  ∀ s s', I s → for_each body s l = Ok s' →
    I s' ∧ (∀ a, a ∈ l → Q a s') ∧ (∀ b, Q b s → Q b s').
Proof.
  induction l as [|a l IH]; intros Hbody s s' Hs; cbn [for_each].
  - intros [= <-]. split_and!; [done| |done]. intros a Ha. by apply elem_of_nil in Ha.
  - intros (s1 & Hs1 & Hrest)%bind_Ok.
    destruct (Hbody s a s1) as (HI1 & HQ1 & Hst1); [by left|done..|].
    destruct (IH) with (s := s1) (s' := s') as (HI & HQ & Hst); [|done..|].
    { intros s2 a2 s2' Ha2. apply Hbody. by right. }
    split_and!; [done| |by intros b Hb; apply Hst, Hst1].
    intros a' [->|Ha']%elem_of_cons; [by apply Hst|by apply HQ].
Qed.

Lemma compute_first_memo (g : grammar) (fuel : nat) (t t' : gmap str (gset str))
    (symbol : str) :
  symbol ∈ dom t → compute_first fuel g t symbol = Ok t' → t' = t.
Proof.
  intros Hin%elem_of_dom. destruct fuel as [|fuel]; [done|]. cbn [compute_first].
  rewrite decide_True by done. by intros [= <-].
Qed.

Section first_exact.
Context (g : grammar) (rank : str → nat) (nul : gset str).
Hypothesis Heps : epsilon_free g.
Hypothesis Hmild : mild_left_recursion g rank nul.

Lemma mild_left_recursion_elem (lhs : str) (prods : list (list str))
    (rhs : list str) :
  dict_get g lhs = Some prods → rhs ∈ prods →
  (Forall (.∈ nul) rhs → lhs ∈ nul) ∧ leftmost_ranked g rank nul lhs rhs = true.
Proof.
  intros Hprods%dict_get_Some_elem Hrhs. unfold mild_left_recursion in Hmild.
  rewrite Forall_forall in Hmild. specialize (Hmild _ Hprods). cbn in Hmild.
  rewrite Forall_forall in Hmild. by apply Hmild.
Qed.

Lemma seq_has_nul (rhs : list str) :
  epsilon ∉ rhs → seq_has g (nullable_in nul) rhs epsilon → Forall (.∈ nul) rhs.
Proof.
  induction rhs as [|y rest IH]; cbn [seq_has]; [by constructor|].
  intros [Hy Hne]%not_elem_of_cons. destruct (dict_mem g y).
  - intros [[_ ?]|[Hnul Hrest]]; [done|]. constructor; [by apply Hnul|by apply IH].
  - intros [[_ ?]|[-> _]]; done.
Qed.

Lemma nullable_in_closed (lhs : str) (prods : list (list str)) (rhs : list str)
    (x : str) :
  dict_get g lhs = Some prods → rhs ∈ prods →
  seq_has g (nullable_in nul) rhs x → nullable_in nul lhs x.
Proof.
  intros Hprods Hrhs Hseq ->.
  destruct (mild_left_recursion_elem lhs prods rhs) as [Hnul _]; [done..|].
  apply Hnul, seq_has_nul; [|done]. by eapply epsilon_free_elem.
Qed.

Lemma covered_agree (t t' : gmap str (gset str)) (k : str) (rhs : list str) :
  (∀ k', k' ∈ dom t → rank k' < rank k → t' !! k' = t !! k') →
  t !!! k ⊆ t' !!! k →
  covered g rank nul t k rhs → covered g rank nul t' k rhs.
Proof.
  intros Hagree Hk. induction rhs as [|y rest IH]; cbn [covered]; [set_solver|].
  destruct (dict_mem g y); [|set_solver].
  intros [Hself|(Hy & Hr & Hsub & Hrest)]; [by left|right].
  assert (t' !! y = t !! y) as Hyy by by apply Hagree.
  assert (t' !!! y = t !!! y) as Hyt by by rewrite !lookup_total_alt, Hyy.
  split_and!; [|done| |].
  - apply elem_of_dom. rewrite Hyy. by apply elem_of_dom.
  - rewrite Hyt. set_solver.
  - rewrite Hyt. auto.
Qed.

Lemma settled_agree (t t' : gmap str (gset str)) (k : str) :
  (∀ k', k' ∈ dom t → rank k' < rank k → t' !! k' = t !! k') →
  t !!! k ⊆ t' !!! k →
  settled g rank nul t k → settled g rank nul t' k.
Proof.
  intros Hagree Hk Hset prods rhs Hprods Hrhs.
  eapply covered_agree; [done..|]. by eapply Hset.
Qed.

Lemma grows_refl (symbol : str) (u : gmap str (gset str)) :
  grows g rank nul symbol u u.
Proof. split_and!; [done..|]. by intros k Hk Hnk. Qed.

Lemma grows_trans (symbol : str) (u u1 u2 : gmap str (gset str)) :
  grows g rank nul symbol u u1 → grows g rank nul symbol u1 u2 →
  grows g rank nul symbol u u2.
Proof.
  intros (Hd1 & Hk1 & Hs1 & Hn1) (Hd2 & Hk2 & Hs2 & Hn2). split_and!.
  - set_solver.
  - intros k Hk Hne. rewrite Hk2 by auto. by apply Hk1.
  - set_solver.
  - intros k Hk Hnk. destruct (decide (k ∈ dom u1)) as [Hin|Hnin]; [|by apply Hn2].
    destruct (Hn1 k Hin Hnk) as [Hset Hr]. split; [|done].
    eapply settled_agree; [| |done].
    + intros k' Hk' Hr'. apply Hk2; [done|]. intros ->. lia.
    + rewrite !lookup_total_alt, Hk2; [done..|]. intros ->. lia.
Qed.

Lemma grows_alter (symbol : str) (u : gmap str (gset str))
    (f : gset str → gset str) :
  (∀ s, s ⊆ f s) → grows g rank nul symbol u (alter f symbol u).
Proof.
  intros Hf. split_and!.
  - by rewrite dom_alter_L.
  - intros k _ Hne. by apply lookup_alter_ne.
  - rewrite lookup_total_alter_eq, lookup_total_alt.
    destruct (u !! symbol); cbn; [apply Hf|done].
  - intros k Hk Hnk. by rewrite dom_alter_L in Hk.
Qed.

Lemma grows_set_add (symbol x : str) (u : gmap str (gset str)) :
  grows g rank nul symbol u (set_add symbol x u).
Proof. apply grows_alter. intros s. apply union_subseteq_r. Qed.

Lemma grows_set_update (symbol : str) (xs : gset str) (u : gmap str (gset str)) :
  grows g rank nul symbol u (set_update symbol xs u).
Proof. apply grows_alter. intros s. apply union_subseteq_r. Qed.

Lemma lower_settled_grows (symbol : str) (u u' : gmap str (gset str)) :
  lower_settled g rank nul symbol u → grows g rank nul symbol u u' →
  lower_settled g rank nul symbol u'.
Proof.
  intros Hpre (Hd & Hk & Hs & Hn) k Hk' Hr.
  destruct (decide (k ∈ dom u)) as [Hin|Hnin]; [|by apply Hn].
  eapply settled_agree; [| |by apply Hpre].
  - intros k' Hk'' Hr'. apply Hk; [done|]. intros ->. lia.
  - rewrite !lookup_total_alt, Hk; [done..|]. intros ->. lia.
Qed.

Lemma covered_grows (symbol : str) (u u' : gmap str (gset str)) (rhs : list str) :
  grows g rank nul symbol u u' →
  covered g rank nul u symbol rhs → covered g rank nul u' symbol rhs.
Proof.
  intros (Hd & Hk & Hs & Hn). apply covered_agree; [|done].
  intros k' Hk' Hr. apply Hk; [done|]. intros ->. lia.
Qed.

Lemma walk_production_covers
    (call : gmap str (gset str) → str → res (gmap str (gset str)))
    (symbol : str) :
  (∀ u y u1, call u y = Ok u1 → below (nullable_in nul) u →
     lower_settled g rank nul y u →
     (∀ k, k ∈ dom u → u1 !! k = u !! k) ∧ y ∈ dom u1 ∧
     (∀ k, k ∈ dom u1 → k ∉ dom u → settled g rank nul u1 k ∧ rank k ≤ rank y)) →
  (∀ u y u1, y ∈ dom u → call u y = Ok u1 → u1 = u) →
  (∀ u y u1, below (nullable_in nul) u → call u y = Ok u1 →
     below (nullable_in nul) u1) →
  ∀ (rest : list str) (u u' : gmap str (gset str)),
    leftmost_ranked g rank nul symbol rest = true → epsilon ∉ rest →
    symbol ∈ dom u → below (nullable_in nul) u →
    lower_settled g rank nul symbol u →
    walk_production call g symbol u rest = Ok u' →
    grows g rank nul symbol u u' ∧ covered g rank nul u' symbol rest.
Proof.
  intros Hcall Hmemo Hnul.
  induction rest as [|y rest IH]; intros u u' Hlr Hne Hsym Hbelow Hpre;
    cbn [walk_production].
  - intros [= <-]. split; [apply grows_set_add|].
    cbn [covered]. by apply set_add_lookup_total.
  - apply not_elem_of_cons in Hne as [Hy Hne]. cbn [leftmost_ranked covered] in *.
    destruct (dict_mem g y) eqn:Hmem.
    + apply andb_true_iff in Hlr as [Hrk Hlr]. apply orb_true_iff in Hrk.
      intros (u1 & Hu1 & Hrest)%bind_Ok.
      destruct Hrk as [Hrk%bool_decide_eq_true|[-> Hnn]%bool_decide_eq_true].
      * destruct (Hcall u y u1 Hu1 Hbelow) as (Hfr & Hyd & Hnew).
        { intros k Hk Hr. apply Hpre; [done|lia]. }
        assert (grows g rank nul symbol u u1) as G1.
        { split_and!.
          - intros k Hk. apply elem_of_dom. rewrite Hfr by done. by apply elem_of_dom.
          - intros k Hk _. by apply Hfr.
          - by rewrite !lookup_total_alt, Hfr.
          - intros k Hk Hnk. destruct (Hnew k Hk Hnk). split; [done|lia]. }
        assert (below (nullable_in nul) u1) as Hb1 by eauto.
        assert (symbol ∈ dom u1) as Hsym1 by by apply G1.
        assert (y ≠ symbol) as Hys by (intros ->; lia).
        remember (set_update symbol (u1 !!! y ∖ {[epsilon]}) u1) as u2 eqn:Hu2.
        assert (grows g rank nul symbol u1 u2) as G2.
        { subst u2. apply grows_set_update. }
        assert (u2 !!! y = u1 !!! y) as Hy2.
        { subst u2. unfold set_update. by rewrite lookup_total_alter_ne. }
        assert (u1 !!! y ∖ {[epsilon]} ⊆ u2 !!! symbol) as Hsub.
        { subst u2. rewrite set_update_lookup_total by done. apply union_subseteq_l. }
        assert (below (nullable_in nul) u2) as Hb2.
        { subst u2. intros k x [Hx|(-> & Hx & _)]%elem_of_set_update; [by apply Hb1|].
          intros ->. apply elem_of_difference in Hx as [_ Hx].
          destruct Hx. by apply elem_of_singleton. }
        assert (y ∈ dom u2) as Hyd2 by (subst u2; by rewrite dom_set_update).
        assert (grows g rank nul symbol u u2) as G12 by by eapply grows_trans.
        case_decide as He.
        -- destruct (IH u2 u') as [G3 Hcov]; [| |by apply G12|done| |done|].
           { rewrite bool_decide_eq_true_2 in Hlr; [done|]. by apply (Hb1 y epsilon). }
           { done. }
           { by eapply lower_settled_grows. }
           split; [by eapply grows_trans|]. right.
           destruct G3 as (Hd3 & Hk3 & Hs3 & _).
           assert (u' !!! y = u1 !!! y) as Hy3.
           { rewrite <- Hy2, !lookup_total_alt, Hk3; done. }
           split_and!; [by apply Hd3|done|rewrite Hy3; by etrans|done].
        -- injection Hrest as <-. split; [done|]. right.
           split_and!; [done|done|by rewrite Hy2|]. by rewrite Hy2.
      * apply Hmemo in Hu1 as ->; [|done].
        rewrite decide_False in Hrest.
        -- injection Hrest as <-. split; [apply grows_set_update|]. by left.
        -- intros He. by apply Hnn, (Hbelow symbol epsilon).
    + intros [= <-]. split; [apply grows_set_add|].
      split; [congruence|]. by apply set_add_lookup_total.
Qed.

Lemma compute_first_settles (fuel : nat) :
  ∀ (t : gmap str (gset str)) (symbol : str) (t' : gmap str (gset str)),
    compute_first fuel g t symbol = Ok t' → below (nullable_in nul) t →
    lower_settled g rank nul symbol t →
    (∀ k, k ∈ dom t → t' !! k = t !! k) ∧ symbol ∈ dom t' ∧
    (∀ k, k ∈ dom t' → k ∉ dom t →
       settled g rank nul t' k ∧ rank k ≤ rank symbol).
Proof.
  induction fuel as [|fuel IH]; intros t symbol t'; [done|].
  cbn [compute_first]. case_decide as Hin.
  { intros [= <-] _ _. split_and!; [done|by apply elem_of_dom|done]. }
  intros Hloop Hbelow Hpre. apply eq_None_not_Some in Hin.
  remember (<[symbol := ∅]> t) as u0 eqn:Hu0.
  apply (for_each_Ok_collect _
           (λ u, symbol ∈ dom u ∧ below (nullable_in nul) u ∧
                 lower_settled g rank nul symbol u ∧ grows g rank nul symbol u0 u)
           (λ rhs u, covered g rank nul u symbol rhs)) in Hloop
    as ((Hsym & Hb & Hp & Hd & Hk & Hs & Hn) & Hcov & _).
  - split_and!.
    + intros k Hk'. assert (k ≠ symbol) as Hne.
      { intros ->. by apply not_elem_of_dom in Hin. }
      rewrite Hk; [by rewrite Hu0, lookup_insert_ne| |done].
      rewrite Hu0, dom_insert_L. set_solver.
    + done.
    + intros k Hk' Hnk. destruct (decide (k = symbol)) as [->|Hne].
      * split; [|done]. intros prods rhs Hprods Hrhs. apply Hcov.
        by rewrite Hprods.
      * destruct (Hn k Hk') as [Hset Hr]; [|split; [done|lia]].
        rewrite Hu0, dom_insert_L. set_solver.
  - intros u production u' Hprod (Hsym & Hb & Hp & G) Hbody.
    destruct (dict_get g symbol) as [prods|] eqn:Hprods;
      [|by apply elem_of_nil in Hprod].
    cbn [default] in Hprod.
    destruct (epsilon_free_elem g Heps symbol prods production)
      as [Hne Hnoeps]; [done..|].
    destruct (mild_left_recursion_elem symbol prods production)
      as [_ Hlr]; [done..|].
    rewrite decide_False in Hbody by done.
    assert (below (nullable_in nul) u') as Hb'.
    { eapply (walk_production_below g (nullable_in nul)); [| | |done|done].
      - intros u1 y u1'. by apply compute_first_below; [apply nullable_in_closed|].
      - intros x Hx. by eapply nullable_in_closed.
      - done. }
    apply walk_production_covers in Hbody as [G' Hcov];
      [|exact (IH)|intros u1 y u1'; apply compute_first_memo| |done..].
    + split_and!; [by apply G'|done|by eapply lower_settled_grows
                  |by eapply grows_trans|done|].
      intros b. by apply covered_grows.
    + intros u1 y u1'. by apply compute_first_below; [apply nullable_in_closed|].
  - split_and!.
    + rewrite Hu0, dom_insert_L. set_solver.
    + intros k x. rewrite Hu0, lookup_total_insert. case_decide; [set_solver|apply Hbelow].
    + intros k Hk Hr. assert (k ≠ symbol) as Hne by (intros ->; lia).
      assert (k ∈ dom t) as Hkt.
      { rewrite Hu0, dom_insert_L in Hk. set_solver. }
      eapply settled_agree; [| |by apply Hpre].
      * intros k' Hk' _. rewrite Hu0, lookup_insert_ne; [done|].
        intros ->. by apply not_elem_of_dom in Hin.
      * by rewrite Hu0, lookup_total_insert_ne.
    + apply grows_refl.
Qed.

Lemma compute_first_all_settled (first : gmap str (gset str)) :
  compute_first_all g = Ok first →
  below (nullable_in nul) first ∧ ∀ k, k ∈ dom first → settled g rank nul first k.
Proof.
  unfold compute_first_all.
  apply (for_each_Ok_inv _
           (λ t, below (nullable_in nul) t ∧ ∀ k, k ∈ dom t → settled g rank nul t k)).
  - intros t nt t' _ [Hb Hset] Hcall. split.
    + eapply compute_first_below; [apply nullable_in_closed|done..].
    + apply compute_first_settles in Hcall as (Hfr & _ & Hnew); [|done|].
      * intros k Hk. destruct (decide (k ∈ dom t)) as [Hin|Hnin]; [|by apply Hnew].
        eapply settled_agree; [| |by apply Hset].
        -- intros k' Hk' _. by apply Hfr.
        -- by rewrite !lookup_total_alt, Hfr.
      * intros k Hk _. by apply Hset.
  - split; [|set_solver]. intros k x. rewrite lookup_total_empty. set_solver.
Qed.

Lemma covered_first_of_seq (t : gmap str (gset str)) (k : str) (rhs : list str) :
  below (nullable_in nul) t → covered g rank nul t k rhs →
  first_of_seq g t rhs ⊆ t !!! k.
Proof.
  intros Hb. induction rhs as [|y rest IH]; cbn [covered first_of_seq]; [set_solver|].
  unfold first_of_symbol. destruct (dict_mem g y).
  - intros [[-> Hnn]|(Hy & Hr & Hsub & Hrest)].
    + rewrite decide_False; [set_solver|]. intros He. by apply Hnn, (Hb k epsilon).
    + case_decide; set_solver.
  - intros [Hne Hy]. rewrite decide_False by set_solver. set_solver.
Qed.
End first_exact.

(** X13. FIRST as computed is FIRST proper when the only left recursion is
    direct. If no alternative uses [ε] as a symbol or is the single empty
    string, and the nonterminals that can begin what a nonterminal derives
    are of lower rank, or are the nonterminal itself when it does not derive
    the empty word, then the table that the loop over [compute_first]
    returns is the least solution of the FIRST equations. The grammar the
    application starts with is of this kind. *)
Theorem compute_first_exact (g : grammar) (rank : str → nat) (nul : gset str)
    (first : gmap str (gset str)) :
  epsilon_free g → mild_left_recursion g rank nul →
  compute_first_all g = Ok first →
  least_first g first.
Proof.
  intros Heps Hmild Hfirst.
  destruct (compute_first_all_total g) as (first0 & Hfirst0 & Hdom).
  rewrite Hfirst in Hfirst0. injection Hfirst0 as <-.
  destruct (compute_first_all_settled g rank nul Heps Hmild first Hfirst)
    as [Hb Hset].
  split.
  - intros lhs prods rhs Hprods Hrhs.
    eapply (covered_first_of_seq g rank nul); [done..|].
    eapply Hset; [|done..]. apply Hdom, dict_mem_nonterminals.
    unfold dict_mem. apply bool_decide_eq_true. by rewrite Hprods.
  - intros first' Hclosed lhs _ x Hx.
    eapply (compute_first_all_below g (λ k x, x ∈ first' !!! k)); [|done..].
    intros lhs' prods rhs x' Hprods Hrhs Hseq.
    eapply Hclosed; [done..|]. by apply seq_has_first_of_seq.
Qed.

Lemma compute_first_exact_witness :
  let g := [(lit "E", [[lit "E"; lit "+"; lit "T"]; [lit "T"]]);
            (lit "T", [[lit "T"; lit "*"; lit "F"]; [lit "F"]]);
            (lit "F", [[lit "("; lit "E"; lit ")"]; [lit "id"]])] in
  let first : gmap str (gset str) :=
    {[ lit "E" := {[lit "("; lit "id"]}; lit "T" := {[lit "("; lit "id"]};
       lit "F" := {[lit "("; lit "id"]} ]} in
  least_first g first.
Proof.
  apply (compute_first_exact
           [(lit "E", [[lit "E"; lit "+"; lit "T"]; [lit "T"]]);
            (lit "T", [[lit "T"; lit "*"; lit "F"]; [lit "F"]]);
            (lit "F", [[lit "("; lit "E"; lit ")"]; [lit "id"]])]
           (λ k, if decide (k = lit "E") then 2
                 else if decide (k = lit "T") then 1 else 0)
           ∅).
  - unfold epsilon_free. apply (bool_decide_eq_true_1 _). vm_compute. reflexivity.
  - unfold mild_left_recursion. apply (bool_decide_eq_true_1 _). vm_compute.
    reflexivity.
  - apply res_eq_check. vm_compute. reflexivity.
Defined.

(** ** The script as a whole *)

Lemma get_lines_nonempty (grammar_text : str) : get_lines grammar_text ≠ [].
Proof.
  unfold get_lines, split.
  pose proof (split_go_length newline (strip grammar_text) 0 []) as Hlen.
  destruct (split_go newline 0 [] (strip grammar_text)); [simpl in Hlen; lia|done].
Qed.

Lemma get_grammar_Grammar (grammar_text : str) (g : grammar) :
  get_grammar grammar_text = Grammar g → g ≠ [] ∧ parsed_grammar g.
Proof.
  unfold get_grammar. apply get_grammar_loop_parsed.
  - split; [apply NoDup_nil_2|]. by intros lhs prods ?%elem_of_nil.
  - right. apply get_lines_nonempty.
Qed.

Lemma set_cell_rows {V} (t t' : gmap nat (gmap str V)) (state : nat)
    (symbol : str) (v : V) :
  set_cell t state symbol v = Ok t' → ∀ s, is_Some (t' !! s) ↔ is_Some (t !! s).
Proof.
  unfold set_cell. destruct (t !! state) as [row|] eqn:Hrow; [|done].
  intros [= <-] s. rewrite lookup_insert. case_decide; [|done].
  subst s. by rewrite Hrow.
Qed.

(** Both tables keep the rows they are created with, one for each state. *)
Lemma generate_slr1_parsing_table_rows (ord : set_order)
    (states : list (gset item)) (transitions : list (nat * str * nat))
    (g : grammar) (first follow : gmap str (gset str))
    (parsing_table : gmap nat (gmap str str)) (goto_table : gmap nat (gmap str nat)) :
  generate_slr1_parsing_table ord states transitions g first follow
    = Ok (parsing_table, goto_table) →
  ∀ state, (is_Some (parsing_table !! state) ↔ state < length states) ∧
           (is_Some (goto_table !! state) ↔ state < length states).
Proof.
  unfold generate_slr1_parsing_table.
  intros ([pt1 gt] & Hloop1 & Hrest)%bind_Ok.
  apply bind_Ok in Hrest as (pt & Hloop2 & [= <- <-]).
  assert (∀ V s, is_Some ((empty_rows (length states) : gmap nat (gmap str V)) !! s)
                 ↔ s < length states) as Hrows.
  { intros V s. rewrite empty_rows_lookup. case_decide; [|by rewrite is_Some_alt].
    split; [done|]. by eexists. }
  assert (∀ s, (is_Some (pt1 !! s) ↔ s < length states) ∧
               (is_Some (gt !! s) ↔ s < length states)) as H1.
  { revert Hloop1.
    apply (for_each_Ok_inv _
             (λ t, ∀ s, (is_Some (t.1 !! s) ↔ s < length states) ∧
                        (is_Some (t.2 !! s) ↔ s < length states))).
    - intros [pt0 gt0] [[state symbol] next_state] [pt0' gt0'] _ Ht.
      cbn [write_transition fst snd] in *. destruct (dict_mem g symbol).
      + intros (gt' & Hc & [= <- <-])%bind_Ok s.
        rewrite (set_cell_rows _ _ _ _ _ Hc). apply Ht.
      + intros (pt' & Hc & [= <- <-])%bind_Ok s.
        rewrite (set_cell_rows _ _ _ _ _ Hc). apply Ht.
    - intros s. cbn [fst snd]. split; apply Hrows. }
  assert (∀ s, is_Some (pt !! s) ↔ s < length states) as H2.
  { revert Hloop2.
    apply (for_each_Ok_inv _ (λ t, ∀ s, is_Some (t !! s) ↔ s < length states)).
    - intros t [state items] t' _ Ht.
      apply (for_each_Ok_inv _ (λ t, ∀ s, is_Some (t !! s) ↔ s < length states));
        [|done].
      intros t1 [[lhs rhs] dot_pos] t1' _ Ht1. cbn [write_item].
      case_decide; [|by intros [= <-]].
      case_decide; [intros Hc s; by rewrite (set_cell_rows _ _ _ _ _ Hc)|].
      destruct (follow !! lhs) as [terminals|]; [|done].
      apply (for_each_Ok_inv _ (λ t, ∀ s, is_Some (t !! s) ↔ s < length states));
        [|done].
      intros t2 terminal t2' _ Ht2 Hc s. by rewrite (set_cell_rows _ _ _ _ _ Hc).
    - intros s. apply H1. }
  intros s. split; [apply H2|apply H1].
Qed.

(** X14. How the script ends, whatever the order of the loops over sets.
    It raises [ValueError] when [get_grammar] does, and stops at [st.stop()]
    when [get_grammar] returns [None] or when the first rule has an empty
    left-hand side. Otherwise augmentation and [generate_lr0_items] return
    - the worklist empties, no lookup fails - with at least one state; and
    when the loops over [compute_first] and [compute_follow] return, the
    table builder returns without [KeyError] and the script reaches the
    display, with exactly one row for each state in both tables, as the loop
    of [display_slr1_parsing_table] over the rows needs. The interpreter's
    limit on the depth of the recursion of [compute_first] and
    [compute_follow] is outside the model, so that nothing is said of those
    two loops returning. *)
Theorem script_outcome (ord : set_order) (grammar_input : str) :
  match get_grammar grammar_input with
  | RaisedValueError => script ord grammar_input = Raise ValueError
  | ReturnedNone _ => script ord grammar_input = Raise ScriptStopped
  | Grammar g =>
      if decide (dict_first g = Some empty_str)
      then script ord grammar_input = Raise ScriptStopped
      else
        ∃ augmented_grammar states transitions,
          augment_grammar g = Ok augmented_grammar ∧
          generate_lr0_items ord augmented_grammar = Ok (states, transitions) ∧
          states ≠ [] ∧
          ∀ first follow,
            compute_first_all g = Ok first →
            compute_follow_all g first = Ok follow →
            ∃ parsing_table goto_table,
              generate_slr1_parsing_table ord states transitions g first follow
                = Ok (parsing_table, goto_table) ∧
              script ord grammar_input =
                Ok {| out_grammar := g; out_states := states;
                      out_transitions := transitions; out_first := first;
                      out_follow := follow; out_parsing_table := parsing_table;
                      out_goto_table := goto_table |} ∧
              ∀ state,
                (is_Some (parsing_table !! state) ↔ state < length states) ∧
                (is_Some (goto_table !! state) ↔ state < length states)
  end.
Proof.
  unfold script. destruct (get_grammar grammar_input) as [g|line|] eqn:Hget; [|done..].
  apply get_grammar_Grammar in Hget as [Hne [Hnd Hg]].
  destruct g as [|[start prods0] rest] eqn:Heq; [done|]. rewrite <-Heq in *.
  assert (dict_first g = Some start) as Hstart by by rewrite Heq.
  unfold augment_grammar. rewrite Hstart.
  case_decide as Hempty.
  { injection Hempty as ->. by rewrite decide_True. }
  rewrite decide_False by congruence. cbn [mbind res_bind].
  set (aug := dict_update [(S_prime, [[start]])] g).
  assert (∀ k, dict_get aug k =
               match dict_get g k with
               | Some v => Some v
               | None => dict_get [(S_prime, [[start]])] k
               end) as Haug by (intros k; by apply dict_get_update).
  assert (dict_first aug = Some S_prime) as Hfirst_key
    by by apply (dict_first_update g [(S_prime, [[start]])]).
  destruct aug as [|[k0 [|rhs prods]] aug_rest] eqn:Haug_eq; [done| |].
  { injection Hfirst_key as ->. specialize (Haug S_prime).
    cbn [dict_get] in Haug. rewrite decide_True in Haug by done.
    destruct (dict_get g S_prime) as [v|] eqn:Hv;
      [|by rewrite decide_True in Haug by done].
    injection Haug as <-. apply dict_get_Some_elem, Hg in Hv. by destruct Hv as (_ & ? & _). }
  rewrite <-Haug_eq in *.
  destruct (generate_lr0_items_inv ord aug k0 rhs prods aug_rest Haug_eq)
    as (w & s0 & Hgen & _ & Hinv).
  exists aug, (states w), (transitions w). split_and!; [done|done| |].
  { intros Hnil. pose proof (inv_init _ _ _ _ _ _ Hinv) as H0.
    by rewrite Hnil in H0. }
  intros first follow Hfirst Hfollow.
  destruct (compute_first_all_total g) as (first0 & Hfirst0 & Hdom).
  rewrite Hfirst in Hfirst0. injection Hfirst0 as <-.
  destruct (compute_follow_all_total g first start Hstart Hdom)
    as (follow0 & Hfollow0 & Hdom' & _).
  rewrite Hfollow in Hfollow0. injection Hfollow0 as <-.
  destruct (script_tables ord g aug first follow w s0 Hinv)
    as (shifts & pt & gt & Htable & _).
  { intros lhs Hlhs%dict_get_is_Some Hns. rewrite Haug in Hlhs.
    assert (lhs ∈ nonterminals g) as Hin.
    { apply dict_mem_nonterminals. unfold dict_mem. apply bool_decide_eq_true.
      destruct (dict_get g lhs); [done|]. cbn [dict_get] in Hlhs.
      rewrite decide_False in Hlhs by done. by destruct Hlhs. }
    apply elem_of_dom. by apply Hdom'. }
  exists pt, gt. split_and!; [done| |by eapply generate_slr1_parsing_table_rows].
  rewrite Hgen. cbn [mbind res_bind]. rewrite Hfirst. cbn [mbind res_bind].
  rewrite Hfollow. cbn [mbind res_bind]. rewrite Htable. done.
Qed.

(** ** What FOLLOW always has *)

(** A loop whose rounds are related by a preorder: what a round
    establishes for its element, and later rounds keep, holds at the end. *)
Lemma for_each_Ok_rel {A St} (body : St → A → res St) (R : St → St → Prop)
    (Q : A → St → Prop) (l : list A) (s0 : St) :
  (∀ s, R s s) → (∀ s1 s2 s3, R s1 s2 → R s2 s3 → R s1 s3) →
  (∀ a s s', Q a s → R s s' → Q a s') →
  (∀ s a s', a ∈ l → R s0 s → body s a = Ok s' → R s s' ∧ Q a s') →
  ∀ s', for_each body s0 l = Ok s' → R s0 s' ∧ ∀ a, a ∈ l → Q a s'.
Proof.
  intros Hrefl Htrans Hstable Hbody.
  assert (∀ s s', R s0 s → for_each body s l = Ok s' →
            R s s' ∧ ∀ a, a ∈ l → Q a s') as Hgen; [|by intros s'; apply Hgen].
  induction l as [|a l IH]; intros s s' Hs; cbn [for_each].
  - intros [= <-]. split; [done|]. intros a Ha. by apply elem_of_nil in Ha.
  - intros (s1 & Hs1 & Hrest)%bind_Ok.
    destruct (Hbody s a s1) as [HR1 HQ1]; [by left|done..|].
    destruct (IH) with (s := s1) (s' := s') as [HR HQ]; [|by eapply Htrans|done|].
    { intros s2 a2 s2' Ha2. apply Hbody. by right. }
    split; [by eapply Htrans|].
    intros a' [->|Ha']%elem_of_cons; [by eapply Hstable|by apply HQ].
Qed.

Section follow_direct.
Context (g : grammar) (first : gmap str (gset str)).

Lemma direct_follow_mono (t t' : gmap str (gset str)) (B : str) :
  table_le t t' → direct_follow g first t B → direct_follow g first t' B.
Proof.
  intros Hle Hd lhs rhs_list rhs i next Hlhs Hrhs Hi Hnext.
  specialize (Hd lhs rhs_list rhs i next Hlhs Hrhs Hi Hnext).
  destruct (dict_mem g next).
  - intros x Hx. eapply table_le_elem; [done|]. by apply Hd.
  - by eapply table_le_elem.
Qed.

Lemma follow_grows_refl (u : gmap str (gset str)) : follow_grows g first u u.
Proof. split; [apply table_le_refl|]. by intros k Hk Hnk. Qed.

Lemma follow_grows_trans (u1 u2 u3 : gmap str (gset str)) :
  follow_grows g first u1 u2 → follow_grows g first u2 u3 →
  follow_grows g first u1 u3.
Proof.
  intros [Hle1 Hn1] [Hle2 Hn2]. split; [by eapply table_le_trans|].
  intros k Hk Hnk. destruct (decide (k ∈ dom u2)) as [Hin|Hnin]; [|by apply Hn2].
  eapply direct_follow_mono; [done|]. by apply Hn1.
Qed.

Lemma follow_grows_set_update (u : gmap str (gset str)) (key : str) (xs : gset str) :
  follow_grows g first u (set_update key xs u).
Proof.
  split; [apply table_le_set_update|]. intros k Hk Hnk.
  by rewrite dom_set_update in Hk.
Qed.

Lemma follow_grows_set_add (u : gmap str (gset str)) (key x : str) :
  follow_grows g first u (set_add key x u).
Proof.
  split; [apply table_le_set_add|]. intros k Hk Hnk. by rewrite dom_set_add in Hk.
Qed.

Lemma occurrence_done_mono (symbol : str) (rhs : list str) (occurrence : nat * str)
    (u u' : gmap str (gset str)) :
  occurrence_done g first symbol rhs occurrence u → follow_grows g first u u' →
  occurrence_done g first symbol rhs occurrence u'.
Proof.
  intros Hd [Hle _] Hocc next Hnext. specialize (Hd Hocc next Hnext).
  destruct (dict_mem g next).
  - intros x Hx. eapply table_le_elem; [done|]. by apply Hd.
  - by eapply table_le_elem.
Qed.

Lemma follow_occurrence_post
    (call : gmap str (gset str) → str → res (gmap str (gset str)))
    (symbol lhs : str) (rhs : list str) (occurrence : nat * str)
    (u u' : gmap str (gset str)) :
  (∀ v v', call v lhs = Ok v' → follow_grows g first v v') →
  symbol ∈ dom u →
  follow_occurrence call g first symbol lhs rhs u occurrence = Ok u' →
  follow_grows g first u u' ∧ occurrence_done g first symbol rhs occurrence u'.
Proof.
  intros Hcall Hsym. destruct occurrence as [i y].
  unfold follow_occurrence, occurrence_done. cbn [fst snd].
  assert (∀ v v', (follow ← call v lhs; Ok (set_update symbol (follow !!! lhs) follow))
                  = Ok v' → follow_grows g first v v') as Hcall'.
  { intros v v' (v1 & Hv1%Hcall & [= <-])%bind_Ok.
    eapply follow_grows_trans; [done|apply follow_grows_set_update]. }
  case_decide as Hy; [|intros [= <-]; split; [apply follow_grows_refl|done]].
  destruct (rhs !! (i + 1)) as [next_symbol|] eqn:Hnext.
  - destruct (dict_mem g next_symbol) eqn:Hmem.
    + destruct (first !! next_symbol) as [next_sym_first|] eqn:Hfirst; [|done].
      assert (first !!! next_symbol = next_sym_first) as Htotal
        by by rewrite lookup_total_alt, Hfirst.
      pose proof (follow_grows_set_update u symbol (next_sym_first ∖ {[epsilon]}))
        as G1.
      assert (next_sym_first ∖ {[epsilon]} ⊆
              set_update symbol (next_sym_first ∖ {[epsilon]}) u !!! symbol) as Hsub.
      { rewrite set_update_lookup_total by done. apply union_subseteq_l. }
      intros Hres.
      assert (follow_grows g first
                (set_update symbol (next_sym_first ∖ {[epsilon]}) u) u') as G2.
      { case_decide; [by apply Hcall'|]. injection Hres as <-. apply follow_grows_refl. }
      split; [by eapply follow_grows_trans|].
      intros _ next [= <-]. rewrite Hmem, Htotal.
      intros x Hx. eapply table_le_elem; [apply G2|]. by apply Hsub.
    + intros [= <-]. split; [apply follow_grows_set_add|].
      intros _ next [= <-]. rewrite Hmem. by apply set_add_lookup_total.
  - intros Hres. split; [|by intros _ next ?].
    case_decide; [by apply Hcall'|]. injection Hres as <-. apply follow_grows_refl.
Qed.

Lemma compute_follow_post (fuel : nat) :
  ∀ (t : gmap str (gset str)) (symbol : str) (t' : gmap str (gset str)),
    compute_follow fuel g first t symbol = Ok t' →
    follow_grows g first t t' ∧ symbol ∈ dom t'.
Proof.
  induction fuel as [|fuel IH]; intros t symbol t'; [done|].
  cbn [compute_follow]. case_decide as Hin.
  { intros [= <-]. split; [apply follow_grows_refl|by apply elem_of_dom]. }
  apply eq_None_not_Some in Hin.
  destruct (dict_first g) as [start|]; [|done].
  remember (if decide (symbol = start)
            then set_add symbol dollar (<[symbol:=∅]> t)
            else <[symbol:=∅]> t) as u0 eqn:Hu0.
  assert (table_le t u0) as Hle0.
  { subst u0. case_decide.
    - eapply table_le_trans; [by apply table_le_insert|apply table_le_set_add].
    - by apply table_le_insert. }
  assert (symbol ∈ dom u0) as Hsym0.
  { subst u0. case_decide; rewrite ?dom_set_add, dom_insert_L; set_solver. }
  assert (∀ k, k ∈ dom u0 → k ≠ symbol → k ∈ dom t) as Hdom0.
  { subst u0. intros k. case_decide; rewrite ?dom_set_add, dom_insert_L; set_solver. }
  intros Hloop.
  apply (for_each_Ok_rel _ (follow_grows g first)
           (λ (lp : str * list (list str)) u,
              ∀ rhs, rhs ∈ lp.2 → ∀ occurrence, occurrence ∈ enumerate rhs →
                occurrence_done g first symbol rhs occurrence u)) in Hloop
    as [[Hle Hnew] Hdone].
  - split; [|by eapply table_le_dom].
    split; [by eapply table_le_trans|].
    intros k Hk Hnk. destruct (decide (k = symbol)) as [->|Hne].
    + intros lhs rhs_list rhs i next Hlhs Hrhs Hi Hnext.
      apply (Hdone (lhs, rhs_list) Hlhs rhs Hrhs (i, symbol)); [|done..].
      by apply elem_of_enumerate.
    + apply Hnew; [done|]. intros Hk0. by apply Hnk, Hdom0.
  - apply follow_grows_refl.
  - apply follow_grows_trans.
  - intros lp u u' HQ G rhs Hrhs occurrence Hocc.
    eapply occurrence_done_mono; [by apply HQ|done].
  - intros u [lhs rhs_list] u' _ G0.
    apply (for_each_Ok_rel _ (follow_grows g first)
             (λ rhs u, ∀ occurrence, occurrence ∈ enumerate rhs →
                occurrence_done g first symbol rhs occurrence u)).
    + apply follow_grows_refl.
    + apply follow_grows_trans.
    + intros rhs v v' HQ G occurrence Hocc.
      eapply occurrence_done_mono; [by apply HQ|done].
    + intros v rhs v' _ G1.
      apply (for_each_Ok_rel _ (follow_grows g first)
               (λ occurrence u, occurrence_done g first symbol rhs occurrence u)).
      * apply follow_grows_refl.
      * apply follow_grows_trans.
      * intros occurrence x x'. apply occurrence_done_mono.
      * intros x occurrence x' _ G2. apply follow_occurrence_post.
        -- intros y y' Hcall. by apply IH in Hcall as [? _].
        -- eapply table_le_dom; [|done].
           eapply table_le_trans; [apply G0|]. eapply table_le_trans; [apply G1|apply G2].
Qed.

Lemma compute_follow_all_post (follow : gmap str (gset str)) :
  compute_follow_all g first = Ok follow →
  ∀ B, B ∈ g.*1 → direct_follow g first follow B.
Proof.
  unfold compute_follow_all. intros Hloop.
  apply (for_each_Ok_rel _ (follow_grows g first) (λ nt u, nt ∈ dom u)) in Hloop
    as [[_ Hnew] Hdom].
  - intros B HB. apply Hnew; [by apply Hdom|]. by rewrite dom_empty_L.
  - apply follow_grows_refl.
  - apply follow_grows_trans.
  - intros nt u u' Hnt [Hle _]. by eapply table_le_dom.
  - intros u nt u' _ _. apply compute_follow_post.
Qed.
End follow_direct.

(** X15. FOLLOW as computed always has the symbols that come right after
    a nonterminal. For every right-hand side in which a nonterminal [B] is
    followed by a symbol: when that symbol is a terminal, it is in the entry
    of [B]; when it is a nonterminal, its entry of the FIRST table without
    [ε] is in the entry of [B]. What the memoised recursion can leave out is
    only what FOLLOW of a left-hand side should pass on. *)
Theorem compute_follow_direct (g : grammar) (first follow : gmap str (gset str))
    (lhs B next : str) (rhs_list : list (list str)) (rhs : list str) (i : nat) :
  compute_follow_all g first = Ok follow →
  (lhs, rhs_list) ∈ g → rhs ∈ rhs_list → dict_mem g B = true →
  rhs !! i = Some B → rhs !! (i + 1) = Some next →
  if dict_mem g next then first !!! next ∖ {[epsilon]} ⊆ follow !!! B
  else next ∈ follow !!! B.
Proof.
  intros Hfollow Hlhs Hrhs HB Hi Hnext.
  eapply (compute_follow_all_post g first follow Hfollow B); [|done..].
  unfold dict_mem in HB. apply bool_decide_eq_true in HB.
  by apply dict_get_is_Some.
Qed.

Lemma compute_follow_direct_witness :
  let follow : gmap str (gset str) :=
    {[ lit "E" := {[dollar; lit "+"; lit ")"]};
       lit "T" := {[dollar; lit "+"; lit "*"; lit ")"]};
       lit "F" := {[dollar; lit "+"; lit "*"; lit ")"]} ]} in
  lit ")" ∈ follow !!! lit "E".
Proof.
  apply (compute_follow_direct
           [(lit "E", [[lit "E"; lit "+"; lit "T"]; [lit "T"]]);
            (lit "T", [[lit "T"; lit "*"; lit "F"]; [lit "F"]]);
            (lit "F", [[lit "("; lit "E"; lit ")"]; [lit "id"]])]
           {[ lit "E" := {[lit "("; lit "id"]}; lit "T" := {[lit "("; lit "id"]};
              lit "F" := {[lit "("; lit "id"]} ]}
           _ (lit "F") (lit "E") (lit ")")
           [[lit "("; lit "E"; lit ")"]; [lit "id"]]
           [lit "("; lit "E"; lit ")"] 1).
  - apply res_eq_check. vm_compute. reflexivity.
  - by right; right; left.
  - by left.
  - reflexivity.
  - reflexivity.
  - reflexivity.
Defined.

(** ** The columns of the two tables *)

Section columns.
Context (g : grammar).

(** FIRST sets hold [ε] and symbols that are not nonterminals. *)
Lemma walk_production_terminals
    (call : gmap str (gset str) → str → res (gmap str (gset str)))
    (symbol : str) (rest : list str) :
  (∀ t y t', below (λ _ x, x = epsilon ∨ dict_mem g x = false) t →
     call t y = Ok t' → below (λ _ x, x = epsilon ∨ dict_mem g x = false) t') →
  ∀ t t', below (λ _ x, x = epsilon ∨ dict_mem g x = false) t →
    walk_production call g symbol t rest = Ok t' →
    below (λ _ x, x = epsilon ∨ dict_mem g x = false) t'.
Proof.
  intros Hcall. induction rest as [|y rest IH]; intros t t' Ht; cbn [walk_production].
  - intros [= <-] k x [Hx|(-> & -> & _)]%elem_of_set_add; [by apply (Ht k)|by left].
  - destruct (dict_mem g y) eqn:Hmem.
    + intros (t1 & Ht1 & Hrest)%bind_Ok. apply Hcall in Ht1; [|done].
      assert (below (λ _ x, x = epsilon ∨ dict_mem g x = false)
                (set_update symbol (t1 !!! y ∖ {[epsilon]}) t1)) as Ht2.
      { intros k x [Hx|(-> & [Hx _]%elem_of_difference & _)]%elem_of_set_update;
          [by apply (Ht1 k)|by apply (Ht1 y)]. }
      case_decide; [by eapply IH|by injection Hrest as <-].
    + intros [= <-] k x [Hx|(-> & -> & _)]%elem_of_set_add; [by apply (Ht k)|by right].
Qed.

Lemma compute_first_terminals (fuel : nat) :
  ∀ (t : gmap str (gset str)) (symbol : str) (t' : gmap str (gset str)),
    below (λ _ x, x = epsilon ∨ dict_mem g x = false) t →
    compute_first fuel g t symbol = Ok t' →
    below (λ _ x, x = epsilon ∨ dict_mem g x = false) t'.
Proof.
  induction fuel as [|fuel IH]; intros t symbol t' Ht; [done|].
  cbn [compute_first]. case_decide; [by intros [= <-]|].
  apply (for_each_Ok_inv _ (below (λ _ x, x = epsilon ∨ dict_mem g x = false))).
  - intros u production u' _ Hu. case_decide.
    + intros [= <-] k x [Hx|(-> & -> & _)]%elem_of_set_add; [by apply (Hu k)|by left].
    + by apply walk_production_terminals.
  - intros k x. rewrite lookup_total_insert. case_decide; [set_solver|apply Ht].
Qed.

Lemma compute_first_all_terminals (first : gmap str (gset str)) :
  compute_first_all g = Ok first →
  below (λ _ x, x = epsilon ∨ dict_mem g x = false) first.
Proof.
  unfold compute_first_all.
  apply (for_each_Ok_inv _ (below (λ _ x, x = epsilon ∨ dict_mem g x = false))).
  - intros u nt u' _ Hu. by apply compute_first_terminals.
  - intros k x. rewrite lookup_total_empty. set_solver.
Qed.

(** FOLLOW sets hold [$] and symbols that are not nonterminals. *)
Lemma follow_occurrence_lookahead
    (call : gmap str (gset str) → str → res (gmap str (gset str)))
    (first : gmap str (gset str)) (symbol lhs : str) (rhs : list str)
    (occurrence : nat * str) (t t' : gmap str (gset str)) :
  below (λ _ x, x = epsilon ∨ dict_mem g x = false) first →
  (∀ u u', below (λ _, lookahead_symbol g) u → call u lhs = Ok u' →
     below (λ _, lookahead_symbol g) u') →
  below (λ _, lookahead_symbol g) t →
  follow_occurrence call g first symbol lhs rhs t occurrence = Ok t' →
  below (λ _, lookahead_symbol g) t'.
Proof.
  intros Hfirst Hcall Ht. destruct occurrence as [i y]. unfold follow_occurrence.
  assert (∀ u u', below (λ _, lookahead_symbol g) u →
            (follow ← call u lhs; Ok (set_update symbol (follow !!! lhs) follow))
            = Ok u' → below (λ _, lookahead_symbol g) u') as Hcall'.
  { intros u u' Hu (u1 & Hu1 & [= <-])%bind_Ok. apply Hcall in Hu1; [|done].
    intros k x [Hx|(-> & Hx & _)]%elem_of_set_update; [by apply (Hu1 k)|by apply (Hu1 lhs)]. }
  case_decide; [|by intros [= <-]].
  destruct (rhs !! (i + 1)) as [next_symbol|].
  - destruct (dict_mem g next_symbol) eqn:Hmem.
    + destruct (first !! next_symbol) as [next_sym_first|] eqn:Hnext; [|done].
      assert (below (λ _, lookahead_symbol g)
                (set_update symbol (next_sym_first ∖ {[epsilon]}) t)) as Ht1.
      { intros k x [Hx|(-> & [Hx Hne]%elem_of_difference & _)]%elem_of_set_update;
          [by apply (Ht k)|].
        right. destruct (Hfirst next_symbol x) as [->|Hx']; [|by destruct Hne; apply elem_of_singleton|done].
        by rewrite lookup_total_alt, Hnext. }
      case_decide; [by apply Hcall'|by intros [= <-]].
    + intros [= <-] k x [Hx|(-> & -> & _)]%elem_of_set_add; [by apply (Ht k)|by right].
  - case_decide; [by apply Hcall'|by intros [= <-]].
Qed.

Lemma compute_follow_lookahead (first : gmap str (gset str)) (fuel : nat) :
  below (λ _ x, x = epsilon ∨ dict_mem g x = false) first →
  ∀ (t : gmap str (gset str)) (symbol : str) (t' : gmap str (gset str)),
    below (λ _, lookahead_symbol g) t →
    compute_follow fuel g first t symbol = Ok t' →
    below (λ _, lookahead_symbol g) t'.
Proof.
  intros Hfirst. induction fuel as [|fuel IH]; intros t symbol t' Ht; [done|].
  cbn [compute_follow]. case_decide; [by intros [= <-]|].
  destruct (dict_first g) as [start|]; [|done].
  apply (for_each_Ok_inv _ (below (λ _, lookahead_symbol g))).
  - intros u [lhs rhs_list] u' _ Hu.
    apply (for_each_Ok_inv _ (below (λ _, lookahead_symbol g))); [|done].
    intros u1 rhs u1' _ Hu1.
    apply (for_each_Ok_inv _ (below (λ _, lookahead_symbol g))); [|done].
    intros u2 occurrence u2' _ Hu2. apply follow_occurrence_lookahead; [done| |done].
    intros v v'. apply IH.
  - assert (below (λ _, lookahead_symbol g) (<[symbol:=∅]> t)) as Ht0.
    { intros k x. rewrite lookup_total_insert. case_decide; [set_solver|apply Ht]. }
    case_decide; [|done].
    intros k x [Hx|(-> & -> & _)]%elem_of_set_add; [by apply (Ht0 k)|by left].
Qed.

Lemma compute_follow_all_lookahead (first follow : gmap str (gset str)) :
  below (λ _ x, x = epsilon ∨ dict_mem g x = false) first →
  compute_follow_all g first = Ok follow →
  below (λ _, lookahead_symbol g) follow.
Proof.
  intros Hfirst. unfold compute_follow_all.
  apply (for_each_Ok_inv _ (below (λ _, lookahead_symbol g))).
  - intros u nt u' _ Hu. by apply compute_follow_lookahead.
  - intros k x. rewrite lookup_total_empty. set_solver.
Qed.

Lemma set_cell_cell {V} (t t' : gmap nat (gmap str V)) (state s : nat)
    (symbol x : str) (v : V) :
  set_cell t state symbol v = Ok t' →
  cell t' s x = if decide (s = state ∧ x = symbol) then Some v else cell t s x.
Proof.
  unfold set_cell, cell. destruct (t !! state) as [row|] eqn:Hrow; [|done].
  intros [= <-]. rewrite lookup_insert. case_decide as Hs.
  - subst s. cbn. rewrite lookup_insert. rewrite Hrow. cbn.
    repeat case_decide; naive_solver.
  - rewrite decide_False by naive_solver. done.
Qed.

(** The builder writes terminals and [$] into the action table and
    nonterminals into the goto table. *)
Lemma generate_slr1_parsing_table_columns (ord : set_order)
    (states : list (gset item)) (transitions : list (nat * str * nat))
    (first follow : gmap str (gset str))
    (parsing_table : gmap nat (gmap str str)) (goto_table : gmap nat (gmap str nat)) :
  below (λ _, lookahead_symbol g) follow →
  generate_slr1_parsing_table ord states transitions g first follow
    = Ok (parsing_table, goto_table) →
  ∀ state x,
    (is_Some (cell parsing_table state x) → lookahead_symbol g x) ∧
    (is_Some (cell goto_table state x) → dict_mem g x = true).
Proof.
  intros Hfollow. unfold generate_slr1_parsing_table.
  intros ([pt1 gt] & Hloop1 & Hrest)%bind_Ok.
  apply bind_Ok in Hrest as (pt & Hloop2 & [= <- <-]).
  assert (∀ s x, (is_Some (cell pt1 s x) → lookahead_symbol g x) ∧
                 (is_Some (cell gt s x) → dict_mem g x = true)) as H1.
  { revert Hloop1.
    apply (for_each_Ok_inv _
             (λ t, ∀ s x, (is_Some (cell t.1 s x) → lookahead_symbol g x) ∧
                          (is_Some (cell t.2 s x) → dict_mem g x = true))).
    - intros [pt0 gt0] [[state symbol] next_state] [pt0' gt0'] _ Ht.
      cbn [write_transition fst snd] in *. destruct (dict_mem g symbol) eqn:Hmem.
      + intros (gt' & Hc & [= <- <-])%bind_Ok s x.
        rewrite (set_cell_cell _ _ _ _ _ _ _ Hc). split; [apply Ht|].
        case_decide as Hsx; [by destruct Hsx as [_ ->]|apply Ht].
      + intros (pt' & Hc & [= <- <-])%bind_Ok s x.
        rewrite (set_cell_cell _ _ _ _ _ _ _ Hc). split; [|apply Ht].
        case_decide as Hsx; [destruct Hsx as [_ ->]; by right|apply Ht].
    - intros s x. cbn [fst snd]. rewrite !empty_rows_cell.
      split; by intros [? ?]. }
  assert (∀ s x, is_Some (cell pt s x) → lookahead_symbol g x) as H2.
  { revert Hloop2.
    apply (for_each_Ok_inv _
             (λ t, ∀ s x, is_Some (cell t s x) → lookahead_symbol g x)).
    - intros t [state items] t' _ Ht.
      apply (for_each_Ok_inv _
               (λ t, ∀ s x, is_Some (cell t s x) → lookahead_symbol g x)); [|done].
      intros t1 [[lhs rhs] dot_pos] t1' _ Ht1. cbn [write_item].
      case_decide; [|by intros [= <-]].
      case_decide.
      { intros Hc s x. rewrite (set_cell_cell _ _ _ _ _ _ _ Hc).
        case_decide as Hsx; [destruct Hsx as [_ ->]; by left|apply Ht1]. }
      destruct (follow !! lhs) as [terminals|] eqn:Hlhs; [|done].
      apply (for_each_Ok_inv _
               (λ t, ∀ s x, is_Some (cell t s x) → lookahead_symbol g x)); [|done].
      intros t2 terminal t2' Hterm Ht2 Hc s x.
      rewrite (set_cell_cell _ _ _ _ _ _ _ Hc).
      case_decide as Hsx; [|apply Ht2]. destruct Hsx as [_ ->]. intros _.
      apply (Hfollow lhs). rewrite lookup_total_alt, Hlhs. cbn.
      by apply elem_of_iter_set in Hterm.
    - intros s x. apply H1. }
  intros s x. split; [apply H2|apply H1].
Qed.
End columns.

(** X16. In the tables that the script displays, the action table has
    entries only in columns of [$] and of symbols that are not nonterminals
    of the grammar, the goto table only in columns of nonterminals: FIRST
    sets hold only [ε] and such symbols, FOLLOW sets only [$] and such
    symbols, and the reduce entries are written under the members of FOLLOW
    sets. *)
Theorem script_table_columns (ord : set_order) (grammar_input : str) (o : output) :
  script ord grammar_input = Ok o →
  (∀ lhs x, x ∈ out_first o !!! lhs → x = epsilon ∨ dict_mem (out_grammar o) x = false) ∧
  (∀ lhs x, x ∈ out_follow o !!! lhs → lookahead_symbol (out_grammar o) x) ∧
  ∀ state x,
    (is_Some (cell (out_parsing_table o) state x) →
       lookahead_symbol (out_grammar o) x) ∧
    (is_Some (cell (out_goto_table o) state x) → dict_mem (out_grammar o) x = true).
Proof.
  unfold script. destruct (get_grammar grammar_input) as [g| |]; [|done..].
  destruct g as [|lp g']; [done|]. remember (lp :: g') as g eqn:Hg. clear Hg.
  intros (aug & _ & Hrest)%bind_Ok.
  apply bind_Ok in Hrest as ([sts trs] & _ & Hrest).
  apply bind_Ok in Hrest as (first & Hfirst & Hrest).
  apply bind_Ok in Hrest as (follow & Hfollow & Hrest).
  apply bind_Ok in Hrest as ([pt gt] & Htable & [= <-]). cbn.
  pose proof (compute_first_all_terminals g first Hfirst) as H1.
  pose proof (compute_follow_all_lookahead g first follow H1 Hfollow) as H2.
  split_and!; [done..|].
  by eapply generate_slr1_parsing_table_columns.
Qed.

Lemma script_table_columns_witness :
  ∃ o, script elements_order (lit "S -> a S | b") = Ok o ∧
    (∀ lhs x, x ∈ out_first o !!! lhs →
       x = epsilon ∨ dict_mem (out_grammar o) x = false) ∧
    (∀ lhs x, x ∈ out_follow o !!! lhs → lookahead_symbol (out_grammar o) x) ∧
    ∀ state x,
      (is_Some (cell (out_parsing_table o) state x) →
         lookahead_symbol (out_grammar o) x) ∧
      (is_Some (cell (out_goto_table o) state x) →
         dict_mem (out_grammar o) x = true).
Proof.
  destruct (res_check (script elements_order (lit "S -> a S | b")) (λ _, True))
    as (o & Ho & _); [vm_compute; reflexivity|].
  exists o. split; [exact Ho|].
  exact (script_table_columns elements_order (lit "S -> a S | b") o Ho).
Defined.
